(** * excelCalculate: the loan calculation of [src/main.py] and [src/backup.py]

    The two in-scope functions of the repository are [calculate_insurance_rate]
    (the piecewise insurance-rate lookup) and [process_record] (the formula
    pipeline that turns one loan record into one spreadsheet row).  Both files
    carry the same two functions; the embedding follows [src/main.py], whose
    [LoanInput] class fixes the field types ([float] for the money and
    percentage fields, [int] for [loan_period]), and notes where
    [src/backup.py] differs.  Around them stand the [Field] bounds of
    [LoanInput] and the first lines of [generate_excel], which turn a request
    into rows; the writing and formatting of the spreadsheet file is outside
    the embedding.

    Python's [float] is IEEE 754 binary64: it is embedded as Rocq's primitive
    [float], so every arithmetic step below rounds exactly as the interpreter's
    does.  Python's [int] is unbounded: it is embedded as [Z]. *)

From Stdlib Require Import ZArith Floats String Ascii List Bool Lia.
From Stdlib Require Import DecimalString.
Import ListNotations.

Set Warnings "-inexact-float".

(** ** The part of the Python runtime the two functions rely on *)

Module Py.

(** The two exceptions float arithmetic can raise here; both are subclasses
    of [ArithmeticError]. *)
Inductive exn : Set :=
| ZeroDivisionError
| OverflowError.

Inductive result (T : Type) : Type :=
| Ok (v : T)
| Raise (e : exn).
Arguments Ok {T} v.
Arguments Raise {T} e.

Definition bind {T U : Type} (r : result T) (k : T -> result U) : result U :=
  match r with
  | Ok v => k v
  | Raise e => Raise e
  end.

(** [float(n)] for an [int] [n], as [PyLong_AsDouble] computes it: the
    nearest binary64 value, ties to even, and [OverflowError] ("int too large
    to convert to float") when that value is out of range. *)
Definition float_of_int (n : Z) : result float :=
  match binary_normalize prec emax n 0 false with
  | S754_infinity _ => Raise OverflowError
  | f => Ok (SF2Prim f)
  end.

(** [a / b] on two floats: [ZeroDivisionError] when [b == 0.0]. *)
Definition truediv (a b : float) : result float :=
  if (b =? 0)%float then Raise ZeroDivisionError else Ok (a / b)%float.

(** [a / n] and [a * n] for a float [a] and an int [n]: the int operand is
    converted first. *)
Definition truediv_int (a : float) (n : Z) : result float :=
  bind (float_of_int n) (truediv a).

Definition mul_int (a : float) (n : Z) : result float :=
  bind (float_of_int n) (fun b => Ok (a * b)%float).

(** *** Decimal rendering

    [dtoa] in mode 3 with two places gives the decimal digits of [|x| * 100]
    rounded to an integer, ties to even, on the exact binary value
    [m * 2 ^ e].  [cents] is that integer. *)
Definition cents (m : positive) (e : Z) : Z :=
  match e with
  | Zneg k =>
      let num := (Zpos m * 100)%Z in
      let den := (2 ^ Zpos k)%Z in
      let q := (num / den)%Z in
      let r := (num mod den)%Z in
      match (2 * r ?= den)%Z with
      | Lt => q
      | Gt => (q + 1)%Z
      | Eq => if Z.even q then q else (q + 1)%Z
      end
  | _ => (Zpos m * 100 * 2 ^ e)%Z
  end.

(** Digits are grouped from the right; the list is least significant digit
    first. *)
Fixpoint group3_rev (ds : list ascii) : list ascii :=
  match ds with
  | a :: b :: c :: rest =>
      match rest with
      | [] => ds
      | _ :: _ => a :: b :: c :: ","%char :: group3_rev rest
      end
  | _ => ds
  end.

Definition thousands (s : string) : string :=
  string_of_list_ascii (rev (group3_rev (rev (list_ascii_of_string s)))).

Definition str_nat (n : Z) : string :=
  NilZero.string_of_uint (N.to_uint (Z.to_N n)).

Definition two_digits (n : Z) : string :=
  if (n <? 10)%Z then ("0" ++ str_nat n)%string else str_nat n.

Definition sign_prefix (s : bool) : string :=
  if s then "-"%string else ""%string.

(** [format(x, ",.2f")]: fixed notation, two places, thousands separators. *)
Definition format_2f (x : float) : string :=
  match Prim2SF x with
  | S754_nan => "nan"
  | S754_infinity s => sign_prefix s ++ "inf"
  | S754_zero s => sign_prefix s ++ "0.00"
  | S754_finite s m e =>
      let c := cents m e in
      sign_prefix s ++ thousands (str_nat (c / 100)) ++ "." ++ two_digits (c mod 100)
  end%string.

(** [str(n)] for an int. *)
Definition str_int (n : Z) : string :=
  NilZero.string_of_int (Z.to_int n).

(** The binary64 value nearest to [(-1)^s * c / 100]: what [strtod] returns
    on the two-place decimal string. *)
Definition of_cents (s : bool) (c : Z) : float :=
  match c with
  | Zpos p => SF2Prim (SFdiv prec emax (S754_finite s p 0) (S754_finite false 100 0))
  | _ => SF2Prim (S754_zero s)
  end.

(** [round(x, 2)]: infinities and NaN round to themselves; a finite [x] is
    printed with two places and read back. *)
Definition round2 (x : float) : float :=
  match Prim2SF x with
  | S754_finite s m e => of_cents s (cents m e)
  | _ => x
  end.

End Py.

Notation "'let*' x ':=' r 'in' k" := (Py.bind r (fun x => k))
  (at level 10, x name, r at level 100, k at level 200).

Local Open Scope float_scope.

(** ** [calculate_insurance_rate] (main.py 24-35, backup.py 10-26)

    [None] is the "not applicable" outcome.  The int literals [70], [81], [90]
    and [95] compare with a float as the floats of the same value. *)
Definition calculate_insurance_rate (loan_percentage : float) (loan_period : Z)
  : option float :=
  if 95.01 <? loan_percentage then None
  else if (70 <=? loan_percentage) && (loan_percentage <=? 80.99) then Some 0.0032
  else if loan_percentage =? 81 then
    Some (if (loan_period <=? 25)%Z then 0.0021 else 0.0032)
  else if (81.01 <=? loan_percentage) && (loan_percentage <=? 90) then
    Some (if (loan_period <=? 25)%Z then 0.0041 else 0.0052)
  else if (90.01 <=? loan_percentage) && (loan_percentage <=? 95) then
    Some (if (loan_period <=? 25)%Z then 0.0067 else 0.0078)
  else None.

(** ** [LoanInput] (main.py 38-54)

    The fields as the class declares them.  The [Field] bounds are checked by
    the web framework before [process_record] is called; the script of
    [backup.py] passes a plain dict and checks nothing. *)
Record LoanInput : Type := {
  sample_no : string;
  customer_reference : string;
  customer_name : string;
  city_state : string;
  A : float;
  down_payment : float;
  loan_period : Z;
  annuity_interest : float;
  purchase_value_reduction : float;
  monthly_principal_reduction : float;
  total_interest_reduction : float;
  guarantor_name : string;
  guarantor_reference : string
}.

(** [insurance_monthly] holds either the string ["NA"] or a float. *)
Inductive insurance : Type :=
| NA
| Amount (v : float).

(** The local variables of [process_record] when it reaches its [return]. *)
Record locals : Type := {
  purchase_value : float;
  loan_amount : float;
  base_principal : float;
  principal : float;
  base_interest : float;
  interest_value : float;
  total_interest : float;
  loan_percentage : float;
  rate : option float;
  insurance_monthly : insurance
}.

(** The returned dict: keys in insertion order, every value a string. *)
Definition LoanOutputRow : Type := list (string * string).

Fixpoint row_get (key : string) (row : LoanOutputRow) : option string :=
  match row with
  | [] => None
  | (k, v) :: rest => if String.eqb k key then Some v else row_get key rest
  end.

Definition insurance_key : string := "Period & Property Insurance per Month".

Section ProcessRecord.

(** [str(x)] of a float, used for the fields the row shows with a [%] sign;
    it is the interpreter's shortest round-trip rendering and plays no part
    in the arithmetic. *)
Variable str_float : float -> string.

(** main.py 58-77 (backup.py 33-64): the calculation.  Division by the int
    literals [100] and [12] and subtraction from [100] convert the literal
    exactly, see [truediv_int_100], [truediv_int_12]. *)
Definition process_record_locals (data : LoanInput) : Py.result locals :=
  let purchase_value := A data * purchase_value_reduction data / 100 in
  let loan_amount := purchase_value * down_payment data / 100 in
  let* q := Py.truediv_int loan_amount (loan_period data) in
  let base_principal := q / 12 in
  let principal :=
    base_principal - (base_principal * monthly_principal_reduction data / 100) in
  let* base_interest := Py.mul_int loan_amount (loan_period data) in
  let interest_value := base_interest * annuity_interest data / 100 in
  let total_interest :=
    interest_value - (interest_value * total_interest_reduction data / 100) in
  let loan_percentage := 100 - down_payment data in
  let rate := calculate_insurance_rate loan_percentage (loan_period data) in
  let insurance_monthly :=
    match rate with
    | None => NA
    | Some rate => Amount (Py.round2 ((loan_amount * rate) / 12))
    end in
  Py.Ok {| purchase_value := purchase_value;
           loan_amount := loan_amount;
           base_principal := base_principal;
           principal := principal;
           base_interest := base_interest;
           interest_value := interest_value;
           total_interest := total_interest;
           loan_percentage := loan_percentage;
           rate := rate;
           insurance_monthly := insurance_monthly |}.

(** main.py 79-97: the row.  backup.py spells three keys differently
    (["Sample No"], ["City State"], [&] for [AND]) and builds the same
    values. *)
Definition output_row (data : LoanInput) (l : locals) : LoanOutputRow :=
  [ ("Sample no,record no", sample_no data);
    ("Customer Reference Number", customer_reference data);
    ("Customer Name", customer_name data);
    ("City , State", city_state data);
    ("Purchase Value & Down Payment",
       "$  " ++ Py.format_2f (purchase_value l) ++ " and "
             ++ str_float (down_payment data) ++ "%");
    ("Loan Period AND Annuity Interest",
       Py.str_int (loan_period data) ++ " Years and "
             ++ str_float (annuity_interest data) ++ "%");
    ("Guarantor Name", guarantor_name data);
    ("Guarantor Reference Number", guarantor_reference data);
    ("Loan Amount AND Principal",
       "$  " ++ Py.format_2f (loan_amount l) ++ " , " ++ Py.format_2f (principal l));
    ("Total Interest for Loan",
       "$  " ++ Py.format_2f (total_interest l));
    (insurance_key,
       match insurance_monthly l with
       | NA => "NA"
       | Amount v => "$  " ++ Py.format_2f v
       end) ]%string.

Definition process_record (data : LoanInput) : Py.result LoanOutputRow :=
  let* l := process_record_locals data in
  Py.Ok (output_row data l).

End ProcessRecord.

(** The record of [backup.py] 91-107, with the class's field types. *)
Definition sample_record : LoanInput := {|
  sample_no := "1";
  customer_reference := "CR12345";
  customer_name := "John Doe";
  city_state := "New York, NY";
  A := 88850508.30;
  down_payment := 29;
  loan_period := 16;
  annuity_interest := 8.7;
  purchase_value_reduction := 14.56;
  monthly_principal_reduction := 9.76;
  total_interest_reduction := 15.42;
  guarantor_name := "Mark Doe";
  guarantor_reference := "GR98765"
|}.

(** The sample record with another down payment. *)
Definition sample_with_down_payment (d : float) : LoanInput := {|
  sample_no := sample_no sample_record;
  customer_reference := customer_reference sample_record;
  customer_name := customer_name sample_record;
  city_state := city_state sample_record;
  A := A sample_record;
  down_payment := d;
  loan_period := loan_period sample_record;
  annuity_interest := annuity_interest sample_record;
  purchase_value_reduction := purchase_value_reduction sample_record;
  monthly_principal_reduction := monthly_principal_reduction sample_record;
  total_interest_reduction := total_interest_reduction sample_record;
  guarantor_name := guarantor_name sample_record;
  guarantor_reference := guarantor_reference sample_record
|}.

(** The six rates of the table. *)
Definition table_rates : list float := [0.0021; 0.0032; 0.0041; 0.0052; 0.0067; 0.0078].

(** ** Range conditions for the scaling property

    [in_range x]: [x] is a normal binary64 number, not zero, of magnitude at
    least [2^-968] and below [2^1023], so that neither [x] nor its double is
    rounded into the subnormal range or overflows. *)
Definition in_range (x : float) : Prop :=
  match Prim2SF x with
  | S754_finite _ _ e => (-1020 <= e < 971)%Z
  | _ => False
  end.

(** A value the doubling carries through: in range, or exactly zero. *)
Definition scalable (x : float) : Prop := in_range x \/ (x =? 0) = true.

(** A normal binary64 number of magnitude below [2^1023]: 53 significant bits
    and an exponent that doubling can still raise. *)
Definition normal_below_max (x : float) : Prop :=
  match Prim2SF x with
  | S754_finite _ m e => Zpos (digits2_pos m) = 53%Z /\ (e < 971)%Z
  | _ => False
  end.

(** A product, quotient or difference loses nothing to the range: it is in
    range, or it is zero because a factor (the dividend) is zero, or the
    difference is zero. *)
Definition mul_keeps (x y : float) : Prop :=
  in_range (x * y) \/ (x =? 0) = true \/ (y =? 0) = true.

Definition div_keeps (x y : float) : Prop :=
  in_range (x / y) \/ (x =? 0) = true.

Definition sub_keeps (x y : float) : Prop :=
  in_range (x - y) \/ (x - y =? 0) = true.

(** The record with another asset value. *)
Definition with_A (a : float) (data : LoanInput) : LoanInput := {|
  sample_no := sample_no data;
  customer_reference := customer_reference data;
  customer_name := customer_name data;
  city_state := city_state data;
  A := a;
  down_payment := down_payment data;
  loan_period := loan_period data;
  annuity_interest := annuity_interest data;
  purchase_value_reduction := purchase_value_reduction data;
  monthly_principal_reduction := monthly_principal_reduction data;
  total_interest_reduction := total_interest_reduction data;
  guarantor_name := guarantor_name data;
  guarantor_reference := guarantor_reference data
|}.

(** Every arithmetic step of the pipeline on [data], with [n] the float of the
    loan period, keeps its result in range. *)
Definition no_range_loss (data : LoanInput) (n : float) : Prop :=
  let t1 := A data * purchase_value_reduction data in
  let pv := t1 / 100 in
  let t2 := pv * down_payment data in
  let la := t2 / 100 in
  let t3 := la / n in
  let bp := t3 / 12 in
  let t4 := bp * monthly_principal_reduction data in
  let t5 := t4 / 100 in
  let bi := la * n in
  let t6 := bi * annuity_interest data in
  let iv := t6 / 100 in
  let t7 := iv * total_interest_reduction data in
  let t8 := t7 / 100 in
  mul_keeps (A data) (purchase_value_reduction data) /\ div_keeps t1 100 /\
  mul_keeps pv (down_payment data) /\ div_keeps t2 100 /\
  div_keeps la n /\ div_keeps t3 12 /\
  mul_keeps bp (monthly_principal_reduction data) /\ div_keeps t4 100 /\
  sub_keeps bp t5 /\
  mul_keeps la n /\
  mul_keeps bi (annuity_interest data) /\ div_keeps t6 100 /\
  mul_keeps iv (total_interest_reduction data) /\ div_keeps t7 100 /\
  sub_keeps iv t8.

(** ** Auxiliary notions for the monotonicity proofs

    [SFle a b]: [a] is below or equal to [b] in the order of [SFcompare]. *)
Definition SFle (a b : spec_float) : Prop :=
  SFcompare a b = Some Lt \/ SFcompare a b = Some Eq.

(** A rounding record read as an integer: the mantissa followed by the round
    and sticky bits. *)
Definition code (mrs : shr_record) : Z :=
  (4 * shr_m mrs + (if shr_r mrs then 2 else 0) + (if shr_s mrs then 1 else 0))%Z.

(** The float of sign [s], mantissa [m] and exponent [e], as the last step of
    [binary_round_aux] builds it. *)
Definition mk_float (s : bool) (m e : Z) : spec_float :=
  match m with
  | Z0 => S754_zero s
  | Zpos p => if (e <=? emax - prec)%Z then S754_finite s p e else S754_infinity s
  | Zneg _ => S754_nan
  end.

(** Zero, a positive finite value or plus infinity. *)
Definition nonneg (f : spec_float) : Prop :=
  match f with
  | S754_zero _ | S754_finite false _ _ | S754_infinity false => True
  | _ => False
  end.

(** The order of the four rounding locations. *)
Definition loc_code (l : location) : Z :=
  match l with
  | loc_Exact => 0
  | loc_Inexact Lt => 1
  | loc_Inexact Eq => 2
  | loc_Inexact Gt => 3
  end%Z.

(** The record with another monthly principal reduction. *)
Definition with_monthly_principal_reduction (r : float) (data : LoanInput) : LoanInput := {|
  sample_no := sample_no data;
  customer_reference := customer_reference data;
  customer_name := customer_name data;
  city_state := city_state data;
  A := A data;
  down_payment := down_payment data;
  loan_period := loan_period data;
  annuity_interest := annuity_interest data;
  purchase_value_reduction := purchase_value_reduction data;
  monthly_principal_reduction := r;
  total_interest_reduction := total_interest_reduction data;
  guarantor_name := guarantor_name data;
  guarantor_reference := guarantor_reference data
|}.

(** The record with another total interest reduction. *)
Definition with_total_interest_reduction (r : float) (data : LoanInput) : LoanInput := {|
  sample_no := sample_no data;
  customer_reference := customer_reference data;
  customer_name := customer_name data;
  city_state := city_state data;
  A := A data;
  down_payment := down_payment data;
  loan_period := loan_period data;
  annuity_interest := annuity_interest data;
  purchase_value_reduction := purchase_value_reduction data;
  monthly_principal_reduction := monthly_principal_reduction data;
  total_interest_reduction := r;
  guarantor_name := guarantor_name data;
  guarantor_reference := guarantor_reference data
|}.

(** The record with another loan period. *)
Definition with_loan_period (n : Z) (data : LoanInput) : LoanInput := {|
  sample_no := sample_no data;
  customer_reference := customer_reference data;
  customer_name := customer_name data;
  city_state := city_state data;
  A := A data;
  down_payment := down_payment data;
  loan_period := n;
  annuity_interest := annuity_interest data;
  purchase_value_reduction := purchase_value_reduction data;
  monthly_principal_reduction := monthly_principal_reduction data;
  total_interest_reduction := total_interest_reduction data;
  guarantor_name := guarantor_name data;
  guarantor_reference := guarantor_reference data
|}.

(** Not negative: NaN, a zero, a positive finite value or plus infinity. *)
Definition nonneg_or_nan (f : spec_float) : Prop := f = S754_nan \/ nonneg f.

(** ** The [Field] bounds of [LoanInput] (main.py 44-51)

    The request validation checks them on every record before
    [generate_excel] runs: [gt] is [>], [ge] is [>=], [le] is [<=], so a NaN
    passes none of them. *)
Definition LoanInput_bounds (data : LoanInput) : bool :=
  (0 <? A data)
  && ((0 <=? down_payment data) && (down_payment data <=? 100))
  && ((0 <? loan_period data)%Z && (loan_period data <=? 40)%Z)
  && ((0 <=? annuity_interest data) && (annuity_interest data <=? 100))
  && ((0 <=? purchase_value_reduction data) && (purchase_value_reduction data <=? 100))
  && ((0 <=? monthly_principal_reduction data)
      && (monthly_principal_reduction data <=? 100))
  && ((0 <=? total_interest_reduction data) && (total_interest_reduction data <=? 100)).

(** ** [generate_excel] (main.py 106-113): from the request to the rows

    The endpoint refuses an empty list with an [HTTPException] of status 400
    and builds one row per record with a list comprehension, which stops at
    the first record whose [process_record] raises; that line stands before
    the [try] block, so the exception leaves the function.  What follows
    line 113 writes and formats the spreadsheet file and is not modelled. *)
Inductive failure : Type :=
| HTTPException (status_code : Z) (detail : string)
| Escaped (e : Py.exn).

Section GenerateExcel.

Variable str_float : float -> string.

(** [[process_record(r) for r in records]] (main.py 113, backup.py 113). *)
Fixpoint rows (records : list LoanInput) : Py.result (list LoanOutputRow) :=
  match records with
  | [] => Py.Ok []
  | r :: rest =>
      let* row := process_record str_float r in
      let* others := rows rest in
      Py.Ok (row :: others)
  end.

Definition generate_excel_rows (records : list LoanInput)
  : list LoanOutputRow + failure :=
  match records with
  | [] => inr (HTTPException 400 "No records provided")
  | _ :: _ =>
      match rows records with
      | Py.Ok rs => inl rs
      | Py.Raise e => inr (Escaped e)
      end
  end.

End GenerateExcel.


(** A record within the [Field] bounds whose base principal is finite and
    whose interest value overflows. *)
Definition large_record : LoanInput := {|
  sample_no := "1";
  customer_reference := "CR12345";
  customer_name := "John Doe";
  city_state := "New York, NY";
  A := 1e308;
  down_payment := 100;
  loan_period := 40;
  annuity_interest := 100;
  purchase_value_reduction := 1;
  monthly_principal_reduction := 9.76;
  total_interest_reduction := 15.42;
  guarantor_name := "Mark Doe";
  guarantor_reference := "GR98765"
|}.

(** * Properties *)

(** ** The order of binary64 values

    [SFcompare] is what the primitive comparisons compute ([FloatAxioms.ltb_spec],
    [FloatAxioms.leb_spec], [FloatAxioms.eqb_spec]); NaN compares with nothing. *)

Lemma SFcompare_antisym a b c :
  SFcompare a b = Some c -> SFcompare b a = Some (CompOpp c).
Proof.
  destruct a as [[]|[]| |[] ma ea], b as [[]|[]| |[] mb eb]; simpl;
    intros H; inversion H; clear H; subst; try reflexivity;
    rewrite (Z.compare_antisym ea eb);
    change (Pos.compare_cont Eq mb ma) with (Pos.compare mb ma);
    change (Pos.compare_cont Eq ma mb) with (Pos.compare ma mb);
    rewrite (Pos.compare_antisym ma mb);
    destruct (Z.compare ea eb); simpl; try reflexivity;
    destruct (Pos.compare ma mb); reflexivity.
Qed.

Lemma SFcompare_trans a b c c1 c2 :
  SFcompare a b = Some c1 -> SFcompare b c = Some c2 ->
  c1 <> Gt -> c2 <> Gt ->
  SFcompare a c = Some (match c1 with Eq => c2 | _ => Lt end).
Proof.
  destruct a as [[]|[]| |[] ma ea], b as [[]|[]| |[] mb eb], c as [[]|[]| |[] mc ec];
    simpl; intros H1 H2 N1 N2;
    inversion H1; clear H1; inversion H2; clear H2; subst;
    try reflexivity; try congruence;
    revert N1 N2;
    repeat match goal with
      | |- context [Pos.compare_cont Eq ?p ?q] =>
          change (Pos.compare_cont Eq p q) with (Pos.compare p q)
      end;
    repeat match goal with
      | |- context [Z.compare ?p ?q] => destruct (Z.compare_spec p q)
      end;
    try lia; simpl; try congruence;
    repeat match goal with
      | |- context [Pos.compare ?p ?q] => destruct (Pos.compare_spec p q)
      end;
    simpl; try lia; congruence.
Qed.

Lemma ltb_compare x y : (x <? y) = true <-> SFcompare (Prim2SF x) (Prim2SF y) = Some Lt.
Proof.
  rewrite FloatAxioms.ltb_spec. unfold SFltb.
  destruct (SFcompare (Prim2SF x) (Prim2SF y)) as [[]|]; split; congruence.
Qed.

Lemma leb_compare x y :
  (x <=? y) = true <->
  SFcompare (Prim2SF x) (Prim2SF y) = Some Lt \/ SFcompare (Prim2SF x) (Prim2SF y) = Some Eq.
Proof.
  rewrite FloatAxioms.leb_spec. unfold SFleb.
  destruct (SFcompare (Prim2SF x) (Prim2SF y)) as [[]|]; split;
    try tauto; try congruence; intros [H|H]; congruence.
Qed.

Lemma eqb_compare x y : (x =? y) = true <-> SFcompare (Prim2SF x) (Prim2SF y) = Some Eq.
Proof.
  rewrite FloatAxioms.eqb_spec. unfold SFeqb.
  destruct (SFcompare (Prim2SF x) (Prim2SF y)) as [[]|]; split; congruence.
Qed.

Lemma ltb_leb x y : (x <? y) = true -> (x <=? y) = true.
Proof. rewrite ltb_compare, leb_compare. tauto. Qed.

Lemma leb_ltb_trans x y z : (x <=? y) = true -> (y <? z) = true -> (x <? z) = true.
Proof.
  rewrite leb_compare, !ltb_compare. intros [H|H] H';
    rewrite (SFcompare_trans _ _ _ _ _ H H'); congruence.
Qed.

Lemma ltb_leb_trans x y z : (x <? y) = true -> (y <=? z) = true -> (x <? z) = true.
Proof.
  rewrite leb_compare, !ltb_compare. intros H [H'|H'];
    rewrite (SFcompare_trans _ _ _ _ _ H H'); congruence.
Qed.

Lemma ltb_trans x y z : (x <? y) = true -> (y <? z) = true -> (x <? z) = true.
Proof. intros H; apply leb_ltb_trans, ltb_leb, H. Qed.

Lemma leb_trans x y z : (x <=? y) = true -> (y <=? z) = true -> (x <=? z) = true.
Proof.
  rewrite !leb_compare. intros [H|H] [H'|H'];
    rewrite (SFcompare_trans _ _ _ _ _ H H'); try congruence; tauto.
Qed.

(** Above [y] excludes at most [y], equal to [y] and below [y]. *)
Lemma ltb_excludes x y :
  (y <? x) = true -> (x <=? y) = false /\ (x =? y) = false /\ (x <? y) = false.
Proof.
  rewrite ltb_compare. intros H. apply SFcompare_antisym in H. simpl in H.
  rewrite FloatAxioms.leb_spec, FloatAxioms.eqb_spec, FloatAxioms.ltb_spec. unfold SFleb, SFeqb, SFltb.
  rewrite H. auto.
Qed.

Lemma ltb_not_eqb x y : (x <? y) = true -> (x =? y) = false.
Proof.
  rewrite ltb_compare, FloatAxioms.eqb_spec. unfold SFeqb. intros ->. reflexivity.
Qed.

(** ** The rate lookup *)

(** The lookup at exactly 81 depends on the loan period only. *)
Lemma rate_at_81 (loan_period : Z) :
  calculate_insurance_rate 81 loan_period
  = Some (if (loan_period <=? 25)%Z then 0.0021 else 0.0032).
Proof. reflexivity. Qed.

(** C2: the lookup returns the band values at the named points; at exactly 81
    the rate is 0.0021 up to 25 years and 0.0032 beyond. *)
Theorem rate_band_points :
  calculate_insurance_rate 80 20 = Some 0.0032 /\
  calculate_insurance_rate 81 20 = Some 0.0021 /\
  calculate_insurance_rate 81 30 = Some 0.0032 /\
  calculate_insurance_rate 85 30 = Some 0.0052 /\
  calculate_insurance_rate 95 20 = Some 0.0067 /\
  calculate_insurance_rate 96 20 = None /\
  calculate_insurance_rate 50 20 = None /\
  (forall loan_period : Z,
      ((loan_period <= 25)%Z -> calculate_insurance_rate 81 loan_period = Some 0.0021) /\
      ((25 < loan_period)%Z -> calculate_insurance_rate 81 loan_period = Some 0.0032)).
Proof.
  repeat (split; [vm_compute; reflexivity|]).
  intros n. rewrite rate_at_81. split; intros H.
  - apply Z.leb_le in H. rewrite H. reflexivity.
  - apply Z.leb_gt in H. rewrite H. reflexivity.
Qed.

(** Everything above 95 is not applicable: the last band stops at 95 and
    the first test only cuts off what the bands would not take anyway. *)
Lemma rate_above_95 x n : (95 <? x) = true -> calculate_insurance_rate x n = None.
Proof.
  intros H. unfold calculate_insurance_rate.
  destruct (95.01 <? x); [reflexivity|].
  assert (H80 : (80.99 <? x) = true) by (apply (ltb_trans _ 95); [reflexivity|exact H]).
  assert (H81 : (81 <? x) = true) by (apply (ltb_trans _ 95); [reflexivity|exact H]).
  assert (H90 : (90 <? x) = true) by (apply (ltb_trans _ 95); [reflexivity|exact H]).
  destruct (ltb_excludes _ _ H80) as (-> & _ & _).
  destruct (ltb_excludes _ _ H81) as (_ & -> & _).
  destruct (ltb_excludes _ _ H90) as (-> & _ & _).
  destruct (ltb_excludes _ _ H) as (-> & _ & _).
  rewrite !andb_false_r. reflexivity.
Qed.

Lemma rate_below_70 x n : (x <? 70) = true -> calculate_insurance_rate x n = None.
Proof.
  intros H. unfold calculate_insurance_rate.
  assert (H95 : (x <? 95.01) = true) by (apply (ltb_trans _ 70); [exact H|reflexivity]).
  assert (H81 : (x <? 81) = true) by (apply (ltb_trans _ 70); [exact H|reflexivity]).
  assert (H811 : (x <? 81.01) = true) by (apply (ltb_trans _ 70); [exact H|reflexivity]).
  assert (H90 : (x <? 90.01) = true) by (apply (ltb_trans _ 70); [exact H|reflexivity]).
  destruct (ltb_excludes _ _ H95) as (_ & _ & ->).
  destruct (ltb_excludes _ _ H) as (-> & _ & _).
  rewrite (ltb_not_eqb _ _ H81).
  destruct (ltb_excludes _ _ H811) as (-> & _ & _).
  destruct (ltb_excludes _ _ H90) as (-> & _ & _).
  reflexivity.
Qed.

Lemma rate_between_8099_81 x n :
  (80.99 <? x) = true -> (x <? 81) = true -> calculate_insurance_rate x n = None.
Proof.
  intros Hl Hu. unfold calculate_insurance_rate.
  assert (H95 : (x <? 95.01) = true) by (apply (ltb_trans _ 81); [exact Hu|reflexivity]).
  assert (H811 : (x <? 81.01) = true) by (apply (ltb_trans _ 81); [exact Hu|reflexivity]).
  assert (H90 : (x <? 90.01) = true) by (apply (ltb_trans _ 81); [exact Hu|reflexivity]).
  destruct (ltb_excludes _ _ H95) as (_ & _ & ->).
  destruct (ltb_excludes _ _ Hl) as (-> & _ & _).
  rewrite (ltb_not_eqb _ _ Hu).
  destruct (ltb_excludes _ _ H811) as (-> & _ & _).
  destruct (ltb_excludes _ _ H90) as (-> & _ & _).
  rewrite andb_false_r. reflexivity.
Qed.

Lemma rate_between_81_8101 x n :
  (81 <? x) = true -> (x <? 81.01) = true -> calculate_insurance_rate x n = None.
Proof.
  intros Hl Hu. unfold calculate_insurance_rate.
  assert (H95 : (x <? 95.01) = true) by (apply (ltb_trans _ 81.01); [exact Hu|reflexivity]).
  assert (H80 : (80.99 <? x) = true) by (apply (ltb_trans _ 81); [reflexivity|exact Hl]).
  assert (H90 : (x <? 90.01) = true) by (apply (ltb_trans _ 81.01); [exact Hu|reflexivity]).
  destruct (ltb_excludes _ _ H95) as (_ & _ & ->).
  destruct (ltb_excludes _ _ H80) as (-> & _ & _).
  destruct (ltb_excludes _ _ Hl) as (_ & -> & _).
  destruct (ltb_excludes _ _ Hu) as (-> & _ & _).
  destruct (ltb_excludes _ _ H90) as (-> & _ & _).
  rewrite andb_false_r. reflexivity.
Qed.

(** C3: in each uncovered gap, below 70 and above 95.01 the lookup is not
    applicable, whatever the loan period. *)
Theorem rate_gaps_not_applicable (loan_percentage : float) (loan_period : Z) :
  ((95 <? loan_percentage) = true /\ (loan_percentage <? 95.01) = true) \/
  ((80.99 <? loan_percentage) = true /\ (loan_percentage <? 81) = true) \/
  ((81 <? loan_percentage) = true /\ (loan_percentage <? 81.01) = true) \/
  (loan_percentage <? 70) = true \/
  (95.01 <? loan_percentage) = true ->
  calculate_insurance_rate loan_percentage loan_period = None.
Proof.
  intros [[H _]|[[H1 H2]|[[H1 H2]|[H|H]]]].
  - apply rate_above_95, H.
  - apply rate_between_8099_81; assumption.
  - apply rate_between_81_8101; assumption.
  - apply rate_below_70, H.
  - unfold calculate_insurance_rate. rewrite H. reflexivity.
Qed.

Lemma rate_gaps_not_applicable_witness :
  calculate_insurance_rate 95.005 20 = None /\
  calculate_insurance_rate 80.995 20 = None /\
  calculate_insurance_rate 81.005 30 = None /\
  calculate_insurance_rate 69.99 30 = None /\
  calculate_insurance_rate 95.02 20 = None.
Proof.
  split; [|split; [|split; [|split]]].
  - apply (rate_gaps_not_applicable 95.005 20). left. split; reflexivity.
  - apply (rate_gaps_not_applicable 80.995 20). right; left. split; reflexivity.
  - apply (rate_gaps_not_applicable 81.005 30). right; right; left. split; reflexivity.
  - apply (rate_gaps_not_applicable 69.99 30). right; right; right; left. reflexivity.
  - apply (rate_gaps_not_applicable 95.02 20). right; right; right; right. reflexivity.
Defined.

(** C10: the lookup yields not applicable or one of the six table rates, and
    each of the six is the result for some argument. *)
Theorem rate_range (loan_percentage : float) (loan_period : Z) :
  match calculate_insurance_rate loan_percentage loan_period with
  | None => True
  | Some r => In r table_rates
  end /\
  (forall r, In r table_rates -> exists p n, calculate_insurance_rate p n = Some r).
Proof.
  split.
  - unfold calculate_insurance_rate, table_rates.
    repeat match goal with
      | |- context [if ?c then _ else _] => destruct c
      end; simpl; tauto.
  - unfold table_rates. simpl. intros r [<-|[<-|[<-|[<-|[<-|[<-|[]]]]]]].
    + exists 81, 20%Z. reflexivity.
    + exists 80, 20%Z. reflexivity.
    + exists 85, 20%Z. reflexivity.
    + exists 85, 30%Z. reflexivity.
    + exists 95, 20%Z. reflexivity.
    + exists 95, 30%Z. reflexivity.
Qed.

(** ** Conversion of an int to a float

    [binary_normalize] shifts the integer's bits right until 53 are left and
    rounds; the lemmas below follow the number of bits through it, to show
    that a non-zero integer gives a finite non-zero float or overflows. *)

Lemma iter_pos_nat {T : Type} (f : T -> T) (n : positive) (x : T) :
  iter_pos f n x = Nat.iter (Pos.to_nat n) f x.
Proof.
  revert x; induction n as [n IH|n IH|]; intros x; cbn [iter_pos].
  - rewrite !IH, Pos2Nat.inj_xI, <- Nat.iter_add, <- Nat.iter_succ_r.
    f_equal; lia.
  - rewrite !IH, Pos2Nat.inj_xO, <- Nat.iter_add.
    f_equal; lia.
  - reflexivity.
Qed.

Lemma shr_1_digits mrs :
  (0 <= shr_m mrs)%Z ->
  (0 <= shr_m (shr_1 mrs))%Z /\
  Zdigits2 (shr_m (shr_1 mrs)) = Z.max 0 (Zdigits2 (shr_m mrs) - 1).
Proof.
  destruct mrs as [m r s]; cbn [shr_m]. intros Hm.
  destruct m as [|[p|p|]|p]; cbn [shr_1 shr_m Zdigits2 digits2_pos]; lia.
Qed.

Lemma shr_iter_digits (k : nat) mrs :
  (0 <= shr_m mrs)%Z ->
  (0 <= shr_m (Nat.iter k shr_1 mrs))%Z /\
  Zdigits2 (shr_m (Nat.iter k shr_1 mrs)) = Z.max 0 (Zdigits2 (shr_m mrs) - Z.of_nat k).
Proof.
  intros Hm. induction k as [|k [IH1 IH2]].
  - simpl. destruct (shr_m mrs); simpl; lia.
  - rewrite Nat.iter_succ. destruct (shr_1_digits _ IH1) as [H1 H2].
    split; [exact H1|]. rewrite H2, IH2. lia.
Qed.

Lemma shr_digits mrs e n :
  (0 <= shr_m mrs)%Z -> (0 <= n)%Z ->
  (0 <= shr_m (fst (shr mrs e n)))%Z /\
  Zdigits2 (shr_m (fst (shr mrs e n))) = Z.max 0 (Zdigits2 (shr_m mrs) - n) /\
  snd (shr mrs e n) = (e + n)%Z.
Proof.
  intros Hm Hn. destruct n as [|k|k]; cbn [shr fst snd]; [| |lia].
  - repeat split; try lia; destruct (shr_m mrs); cbn [Zdigits2]; lia.
  - rewrite iter_pos_nat. destruct (shr_iter_digits (Pos.to_nat k) mrs Hm) as [H1 H2].
    repeat split; lia.
Qed.

Lemma digits2_pos_iter_xO (k : positive) : forall p,
  Zpos (digits2_pos (Pos.iter xO p k)) = (Zpos (digits2_pos p) + Zpos k)%Z.
Proof.
  induction k as [k IH|k IH|]; intros p; cbn [Pos.iter digits2_pos].
  - rewrite Pos2Z.inj_succ, !IH. lia.
  - rewrite !IH. lia.
  - lia.
Qed.

Lemma digits2_pos_succ p :
  (Zpos (digits2_pos p) <= Zpos (digits2_pos (Pos.succ p)) <= Zpos (digits2_pos p) + 1)%Z.
Proof.
  induction p as [p IH|p IH|]; cbn [Pos.succ digits2_pos]; lia.
Qed.

Lemma round_nearest_even_digits m l :
  (0 < m)%Z ->
  (0 < round_nearest_even m l)%Z /\
  (Zdigits2 m <= Zdigits2 (round_nearest_even m l) <= Zdigits2 m + 1)%Z.
Proof.
  intros Hm. destruct m as [|p|p]; try lia.
  assert (H := digits2_pos_succ p).
  assert (E : (Z.pos p + 1)%Z = Z.pos (Pos.succ p)) by lia.
  destruct l as [|[]]; cbn [round_nearest_even]; try destruct (Z.even (Z.pos p));
    rewrite ?E; cbn [Zdigits2]; lia.
Qed.

(** Rounding a mantissa of at least 53 bits: a valid finite float of the same
    sign, or that sign's infinity. *)
Lemma binary_round_aux_wide s (m : positive) e l :
  (53 <= Zpos (digits2_pos m))%Z -> (-1074 <= e)%Z ->
  (exists m' e', binary_round_aux prec emax s (Zpos m) e l = S754_finite s m' e'
                 /\ bounded prec emax m' e' = true)
  \/ binary_round_aux prec emax s (Zpos m) e l = S754_infinity s.
Proof.
  intros Hd He. unfold binary_round_aux, shr_fexp.
  set (d := Zpos (digits2_pos m)) in *.
  assert (Hf : (fexp prec emax (Zdigits2 (Zpos m) + e) - e = d - 53)%Z)
    by (unfold fexp, SpecFloat.emin, prec, emax; cbn [Zdigits2]; fold d; lia).
  rewrite Hf.
  set (mrs0 := shr_record_of_loc (Zpos m) l).
  assert (Hm0 : shr_m mrs0 = Zpos m) by (unfold mrs0; destruct l as [|[]]; reflexivity).
  destruct (shr_digits mrs0 e (d - 53)) as (P1 & P2 & P3); [rewrite Hm0; lia | lia |].
  destruct (shr mrs0 e (d - 53)) as [mrs' e'] eqn:E1. cbn [fst snd] in P1, P2, P3.
  rewrite Hm0 in P2. cbn [Zdigits2] in P2. fold d in P2.
  assert (Hm' : (0 < shr_m mrs')%Z)
    by (destruct (shr_m mrs'); cbn [Zdigits2] in P2; lia).
  destruct (round_nearest_even_digits (shr_m mrs') (loc_of_shr_record mrs') Hm') as (R1 & R2).
  set (m1 := round_nearest_even (shr_m mrs') (loc_of_shr_record mrs')) in *.
  assert (Hf2 : (fexp prec emax (Zdigits2 m1 + e') - e' = Zdigits2 m1 - 53)%Z)
    by (unfold fexp, SpecFloat.emin, prec, emax; lia).
  rewrite Hf2.
  change (shr_record_of_loc m1 loc_Exact) with (Build_shr_record m1 false false).
  destruct (shr_digits (Build_shr_record m1 false false) e' (Zdigits2 m1 - 53))
    as (Q1 & Q2 & Q3); [cbn [shr_m]; lia | lia |].
  destruct (shr _ e' (Zdigits2 m1 - 53)) as [mrs'' e''] eqn:E2.
  cbn [fst snd shr_m] in Q1, Q2, Q3.
  destruct (shr_m mrs'') as [|m''|m''] eqn:E3; cbn [Zdigits2] in Q2; try lia.
  destruct (Z.leb_spec e'' (emax - prec)); [left|right; reflexivity].
  exists m'', e''. split; [reflexivity|].
  unfold bounded, canonical_mantissa, fexp, SpecFloat.emin.
  apply andb_true_intro; split; [apply Z.eqb_eq | apply Z.leb_le; assumption].
  unfold prec, emax in *. lia.
Qed.

Lemma binary_round_int s (p : positive) :
  (exists m e, binary_round prec emax s p 0 = S754_finite s m e
               /\ bounded prec emax m e = true)
  \/ binary_round prec emax s p 0 = S754_infinity s.
Proof.
  unfold binary_round, shl_align.
  set (d := Zpos (digits2_pos p)).
  assert (Hf : fexp prec emax (d + 0) = (d - 53)%Z)
    by (unfold fexp, SpecFloat.emin, prec, emax, d; lia).
  rewrite Hf.
  destruct (d - 53 - 0)%Z as [|k|k] eqn:Ek.
  - apply binary_round_aux_wide; fold d; lia.
  - apply binary_round_aux_wide; fold d; lia.
  - apply binary_round_aux_wide; [rewrite digits2_pos_iter_xO; fold d|]; lia.
Qed.

Lemma float_of_int_finite (n : Z) (x : float) :
  n <> 0%Z -> Py.float_of_int n = Py.Ok x ->
  exists m e, Prim2SF x = S754_finite (n <? 0)%Z m e.
Proof.
  intros Hn. unfold Py.float_of_int.
  destruct n as [|p|p]; [congruence| |]; cbn [binary_normalize].
  - destruct (binary_round_int false p) as [(m & e & E & Hb)|E]; rewrite E;
      intros H; [|discriminate].
    assert (Hx : x = SF2Prim (S754_finite false m e)) by congruence.
    exists m, e. rewrite Hx. exact (Prim2SF_SF2Prim (S754_finite false m e) Hb).
  - destruct (binary_round_int true p) as [(m & e & E & Hb)|E]; rewrite E;
      intros H; [|discriminate].
    assert (Hx : x = SF2Prim (S754_finite true m e)) by congruence.
    exists m, e. rewrite Hx. exact (Prim2SF_SF2Prim (S754_finite true m e) Hb).
Qed.

Lemma float_of_int_not_zero (n : Z) (x : float) :
  n <> 0%Z -> Py.float_of_int n = Py.Ok x -> (x =? 0) = false.
Proof.
  intros Hn Hx. destruct (float_of_int_finite n x Hn Hx) as (m & e & E).
  rewrite FloatAxioms.eqb_spec, E. destruct (n <? 0)%Z; reflexivity.
Qed.

(** The only exception of a conversion is [OverflowError]. *)
Lemma float_of_int_raises (n : Z) (e : Py.exn) :
  Py.float_of_int n = Py.Raise e -> e = Py.OverflowError.
Proof.
  unfold Py.float_of_int. destruct (binary_normalize prec emax n 0 false); congruence.
Qed.

Lemma truediv_int_nonzero (a : float) (n : Z) (x : float) :
  n <> 0%Z -> Py.float_of_int n = Py.Ok x -> Py.truediv_int a n = Py.Ok (a / x).
Proof.
  intros Hn Hx. unfold Py.truediv_int, Py.truediv. rewrite Hx. cbn [Py.bind].
  rewrite (float_of_int_not_zero n x Hn Hx). reflexivity.
Qed.

Lemma truediv_int_zero (a : float) : Py.truediv_int a 0 = Py.Raise Py.ZeroDivisionError.
Proof. reflexivity. Qed.

(** Division by the literals of the source raises nothing. *)
Lemma truediv_int_100 (a : float) : Py.truediv_int a 100 = Py.Ok (a / 100).
Proof. apply truediv_int_nonzero; [lia|reflexivity]. Qed.

Lemma truediv_int_12 (a : float) : Py.truediv_int a 12 = Py.Ok (a / 12).
Proof. apply truediv_int_nonzero; [lia|reflexivity]. Qed.

(** ** The formula pipeline *)

Lemma process_record_locals_ok (data : LoanInput) (n : float) :
  loan_period data <> 0%Z -> Py.float_of_int (loan_period data) = Py.Ok n ->
  process_record_locals data =
  Py.Ok (let purchase_value := A data * purchase_value_reduction data / 100 in
         let loan_amount := purchase_value * down_payment data / 100 in
         let base_principal := loan_amount / n / 12 in
         let base_interest := loan_amount * n in
         let interest_value := base_interest * annuity_interest data / 100 in
         let rate := calculate_insurance_rate (100 - down_payment data) (loan_period data) in
         {| purchase_value := purchase_value;
            loan_amount := loan_amount;
            base_principal := base_principal;
            principal :=
              base_principal - base_principal * monthly_principal_reduction data / 100;
            base_interest := base_interest;
            interest_value := interest_value;
            total_interest :=
              interest_value - interest_value * total_interest_reduction data / 100;
            loan_percentage := 100 - down_payment data;
            rate := rate;
            insurance_monthly :=
              match rate with
              | None => NA
              | Some r => Amount (Py.round2 (loan_amount * r / 12))
              end |}).
Proof.
  intros Hn Hc. unfold process_record_locals.
  rewrite (truediv_int_nonzero _ _ _ Hn Hc). unfold Py.mul_int. rewrite Hc.
  reflexivity.
Qed.

Lemma process_record_locals_overflow (data : LoanInput) (e : Py.exn) :
  Py.float_of_int (loan_period data) = Py.Raise e ->
  process_record_locals data = Py.Raise Py.OverflowError.
Proof.
  intros Hc. unfold process_record_locals, Py.truediv_int.
  rewrite Hc, (float_of_int_raises _ _ Hc). reflexivity.
Qed.

Lemma process_record_locals_zero (data : LoanInput) :
  loan_period data = 0%Z -> process_record_locals data = Py.Raise Py.ZeroDivisionError.
Proof.
  intros Hz. unfold process_record_locals. rewrite Hz, truediv_int_zero. reflexivity.
Qed.

(** C1: with a non-zero loan period the intermediate values are those of the
    formula pipeline, each written from the values before it; the loan period
    enters the two formulas that use it as the float [n] it converts to, and
    the one exception left is that conversion's [OverflowError]. *)
Theorem process_record_pipeline (data : LoanInput) :
  loan_period data <> 0%Z ->
  match Py.float_of_int (loan_period data) with
  | Py.Ok n =>
      exists l : locals,
        process_record_locals data = Py.Ok l /\
        purchase_value l = A data * purchase_value_reduction data / 100 /\
        loan_amount l = purchase_value l * down_payment data / 100 /\
        base_principal l = (loan_amount l / n) / 12 /\
        principal l =
          base_principal l - base_principal l * monthly_principal_reduction data / 100 /\
        base_interest l = loan_amount l * n /\
        interest_value l = base_interest l * annuity_interest data / 100 /\
        total_interest l =
          interest_value l - interest_value l * total_interest_reduction data / 100 /\
        loan_percentage l = 100 - down_payment data
  | Py.Raise _ => process_record_locals data = Py.Raise Py.OverflowError
  end.
Proof.
  intros Hn. destruct (Py.float_of_int (loan_period data)) as [n|e] eqn:Hc.
  - eexists. split; [apply (process_record_locals_ok data n Hn Hc)|].
    cbn. repeat split.
  - apply (process_record_locals_overflow data e Hc).
Qed.

Lemma process_record_pipeline_witness :
  exists l : locals,
    process_record_locals sample_record = Py.Ok l /\
    purchase_value l = 88850508.30 * 14.56 / 100 /\
    loan_amount l = purchase_value l * 29 / 100 /\
    base_principal l = (loan_amount l / 16) / 12 /\
    principal l = base_principal l - base_principal l * 9.76 / 100 /\
    base_interest l = loan_amount l * 16 /\
    interest_value l = base_interest l * 8.7 / 100 /\
    total_interest l = interest_value l - interest_value l * 15.42 / 100 /\
    loan_percentage l = 100 - 29.
Proof.
  apply (process_record_pipeline sample_record). simpl. lia.
Defined.

(** C4: with a non-zero loan period the row's insurance field is ["NA"]
    exactly when the lookup at [100 - down_payment] is not applicable, and
    otherwise shows [round(loan_amount * rate / 12, 2)] with two decimals; a
    not applicable rate gives a row, not an exception. *)
Theorem insurance_field (str_float : float -> string) (data : LoanInput) :
  loan_period data <> 0%Z ->
  let lookup := calculate_insurance_rate (100 - down_payment data) (loan_period data) in
  let loan_amount :=
    A data * purchase_value_reduction data / 100 * down_payment data / 100 in
  match process_record str_float data with
  | Py.Ok row =>
      (row_get insurance_key row = Some "NA"%string <-> lookup = None) /\
      (forall r, lookup = Some r ->
         row_get insurance_key row
         = Some ("$  " ++ Py.format_2f (Py.round2 (loan_amount * r / 12)))%string)
  | Py.Raise e =>
      e = Py.OverflowError /\ Py.float_of_int (loan_period data) = Py.Raise Py.OverflowError
  end.
Proof.
  intros Hn lookup la. unfold process_record.
  destruct (Py.float_of_int (loan_period data)) as [n|e] eqn:Hc.
  - rewrite (process_record_locals_ok data n Hn Hc). cbn.
    fold lookup. fold la. destruct lookup as [r|]; split.
    + split; discriminate.
    + intros r' [= <-]. reflexivity.
    + split; reflexivity.
    + discriminate.
  - rewrite (process_record_locals_overflow data e Hc). cbn.
    rewrite (float_of_int_raises _ _ Hc). split; reflexivity.
Qed.

Lemma insurance_field_witness :
  row_get insurance_key
    match process_record (fun _ => ""%string) sample_record with
    | Py.Ok row => row
    | Py.Raise _ => []
    end
  = Some "$  1,000.43"%string.
Proof.
  pose proof (insurance_field (fun _ => ""%string) sample_record) as H.
  assert (Hn : loan_period sample_record <> 0%Z) by (simpl; lia).
  specialize (H Hn). cbv zeta in H.
  destruct (process_record (fun _ => ""%string) sample_record) as [row|e].
  - destruct H as [_ H]. rewrite (H 0.0032); [|reflexivity].
    vm_compute. reflexivity.
  - destruct H as [_ H]. vm_compute in H. discriminate.
Defined.

(** C6: a zero loan period raises [ZeroDivisionError] at the division of
    [base_principal], so no row (and no infinity or NaN in one) comes out;
    any exception means no row, and [ZeroDivisionError] is raised for the
    zero loan period only. *)
Theorem zero_loan_period_raises (str_float : float -> string) (data : LoanInput) :
  loan_period data = 0%Z ->
  Py.truediv_int (A data * purchase_value_reduction data / 100 * down_payment data / 100)
                 (loan_period data) = Py.Raise Py.ZeroDivisionError /\
  process_record str_float data = Py.Raise Py.ZeroDivisionError /\
  (forall row, process_record str_float data <> Py.Ok row) /\
  (forall (other : LoanInput) (e : Py.exn),
      process_record str_float other = Py.Raise e ->
      (forall row, process_record str_float other <> Py.Ok row) /\
      (e = Py.ZeroDivisionError <-> loan_period other = 0%Z)).
Proof.
  intros Hz. split; [rewrite Hz; apply truediv_int_zero|].
  assert (Hr : process_record str_float data = Py.Raise Py.ZeroDivisionError)
    by (unfold process_record; rewrite (process_record_locals_zero data Hz); reflexivity).
  split; [exact Hr|]. split; [rewrite Hr; discriminate|].
  intros other e He. split; [rewrite He; discriminate|].
  unfold process_record in He.
  destruct (Z.eq_dec (loan_period other) 0) as [Hz'|Hn'].
  - rewrite (process_record_locals_zero other Hz') in He. cbn in He.
    split; [intros _; exact Hz'|intros _; congruence].
  - destruct (Py.float_of_int (loan_period other)) as [n|e'] eqn:Hc.
    + rewrite (process_record_locals_ok other n Hn' Hc) in He. discriminate.
    + rewrite (process_record_locals_overflow other e' Hc) in He. cbn in He.
      split; [intros ->; discriminate|intros H; contradiction].
Qed.

Lemma zero_loan_period_raises_witness :
  process_record (fun _ => ""%string)
    {| sample_no := "1"; customer_reference := "CR12345"; customer_name := "John Doe";
       city_state := "New York, NY"; A := 88850508.30; down_payment := 29;
       loan_period := 0; annuity_interest := 8.7; purchase_value_reduction := 14.56;
       monthly_principal_reduction := 9.76; total_interest_reduction := 15.42;
       guarantor_name := "Mark Doe"; guarantor_reference := "GR98765" |}
  = Py.Raise Py.ZeroDivisionError.
Proof.
  refine (proj1 (proj2 (zero_loan_period_raises (fun _ => ""%string) _ _))). reflexivity.
Defined.

(** ** The sample record of backup.py *)

(** The figures the specification quotes for the sample are not the ones the
    formulas give: 14.56 percent of 88850508.30 is 12,936,634.01, about 2,960
    more than the quoted 12,933,673.97, and 29 percent of that is
    3,751,623.86. *)
Lemma sample_figures_differ :
  ~ (exists l : locals,
       process_record_locals sample_record = Py.Ok l /\
       Py.format_2f (purchase_value l) = "12,933,673.97"%string /\
       Py.format_2f (loan_amount l) = "3,750,765.45"%string).
Proof.
  intros (l & Hl & Hp & _).
  rewrite (process_record_locals_ok sample_record 16) in Hl;
    [|simpl; lia|reflexivity].
  injection Hl as <-. vm_compute in Hp. discriminate.
Qed.

(** C5 (amended): the sample record gives purchase_value 12,936,634.01 and
    loan_amount 3,751,623.86, and every money string of its row has two
    decimals and thousands separators. *)
Theorem sample_row (str_float : float -> string) :
  (exists l : locals,
     process_record_locals sample_record = Py.Ok l /\
     purchase_value l = 88850508.30 * 14.56 / 100 /\
     Py.format_2f (purchase_value l) = "12,936,634.01"%string /\
     loan_amount l = purchase_value l * 29 / 100 /\
     Py.format_2f (loan_amount l) = "3,751,623.86"%string) /\
  process_record str_float sample_record =
  Py.Ok [ ("Sample no,record no", "1");
          ("Customer Reference Number", "CR12345");
          ("Customer Name", "John Doe");
          ("City , State", "New York, NY");
          ("Purchase Value & Down Payment",
             "$  12,936,634.01 and " ++ str_float 29 ++ "%");
          ("Loan Period AND Annuity Interest",
             "16 Years and " ++ str_float 8.7 ++ "%");
          ("Guarantor Name", "Mark Doe");
          ("Guarantor Reference Number", "GR98765");
          ("Loan Amount AND Principal", "$  3,751,623.86 , 17,632.63");
          ("Total Interest for Loan", "$  4,416,987.86");
          ("Period & Property Insurance per Month", "$  1,000.43") ]%string.
Proof.
  split.
  - eexists. split; [vm_compute; reflexivity|].
    repeat split; vm_compute; reflexivity.
  - vm_compute. reflexivity.
Qed.

(** ** Zeros and finite values *)

Lemma SFcompare_refl_finite s m e :
  SFcompare (S754_finite s m e) (S754_finite s m e) = Some Eq.
Proof.
  cbn [SFcompare]. rewrite Z.compare_refl.
  change (Pos.compare_cont Eq m m) with (Pos.compare m m). rewrite Pos.compare_refl.
  destruct s; reflexivity.
Qed.

Lemma is_zero_spec x : (x =? 0) = true <-> exists s, Prim2SF x = S754_zero s.
Proof.
  rewrite FloatAxioms.eqb_spec. change (Prim2SF 0) with (S754_zero false).
  destruct (Prim2SF x) as [s|s| |s m e]; cbn; split;
    try discriminate; try (intros [s' H]; discriminate);
    try (intros _; eexists; reflexivity); try reflexivity;
    destruct s; discriminate.
Qed.

Lemma is_finite_spec x :
  is_finite x = true <->
  (exists s, Prim2SF x = S754_zero s) \/ (exists s m e, Prim2SF x = S754_finite s m e).
Proof.
  unfold is_finite, is_nan, is_infinity.
  rewrite !FloatAxioms.eqb_spec, abs_spec. change (Prim2SF infinity) with (S754_infinity false).
  destruct (Prim2SF x) as [s|s| |s m e]; unfold SFeqb.
  - cbn. split; [intros _; left; eexists; reflexivity|reflexivity].
  - destruct s; cbn; (split; [discriminate|intros [[s' H]|(s' & m' & e' & H)]; discriminate]).
  - cbn. split; [discriminate|intros [[s' H]|(s' & m' & e' & H)]; discriminate].
  - rewrite SFcompare_refl_finite. cbn.
    split; [intros _; right; do 3 eexists; reflexivity|reflexivity].
Qed.

Lemma mul_zero_r x y : is_finite x = true -> (y =? 0) = true -> (x * y =? 0) = true.
Proof.
  rewrite is_finite_spec, !is_zero_spec, mul_spec.
  intros [[s ->]|(s & m & e & ->)] [s' ->]; eexists; reflexivity.
Qed.

Lemma mul_zero_l x y : (x =? 0) = true -> is_finite y = true -> (x * y =? 0) = true.
Proof.
  rewrite is_finite_spec, !is_zero_spec, mul_spec.
  intros [s' ->] [[s ->]|(s & m & e & ->)]; eexists; reflexivity.
Qed.

Lemma div_zero_l x y s m e :
  (x =? 0) = true -> Prim2SF y = S754_finite s m e -> (x / y =? 0) = true.
Proof.
  rewrite !is_zero_spec, div_spec. intros [s' ->] ->. eexists; reflexivity.
Qed.

Lemma sub_zero x y : (x =? 0) = true -> (y =? 0) = true -> (x - y =? 0) = true.
Proof.
  rewrite !is_zero_spec, sub_spec. intros [s ->] [s' ->].
  destruct s, s'; eexists; reflexivity.
Qed.

Lemma sub_zero_r x y s m e :
  Prim2SF x = S754_finite s m e -> (y =? 0) = true -> x - y = x.
Proof.
  rewrite is_zero_spec. intros Hx [s' Hy]. apply Prim2SF_inj.
  rewrite sub_spec, Hx, Hy. reflexivity.
Qed.

Lemma zero_is_finite x : (x =? 0) = true -> is_finite x = true.
Proof. rewrite is_zero_spec, is_finite_spec. tauto. Qed.

Lemma div_100_zero x : (x =? 0) = true -> (x / 100 =? 0) = true.
Proof. intros H. apply (div_zero_l x 100 false 7036874417766400 (-46) H). reflexivity. Qed.

Lemma div_12_zero x : (x =? 0) = true -> (x / 12 =? 0) = true.
Proof. intros H. apply (div_zero_l x 12 false 6755399441055744 (-49) H). reflexivity. Qed.

(** ** A zero down payment *)

(** With no down payment the loan percentage is 100, above every band. *)
Lemma rate_zero_down_payment (d : float) (n : Z) :
  (d =? 0) = true -> calculate_insurance_rate (100 - d) n = None.
Proof.
  intros Hd. rewrite (sub_zero_r 100 d false 7036874417766400 (-46)); [|reflexivity|exact Hd].
  reflexivity.
Qed.

(** The sample record with no down payment. *)
Lemma zero_down_payment_no_rate :
  ~ (exists (l : locals) (r : float),
       process_record_locals (sample_with_down_payment 0) = Py.Ok l /\
       rate l = Some r /\
       insurance_monthly l = Amount (Py.round2 (loan_amount l * r / 12))).
Proof.
  intros (l & r & Hl & Hr & _).
  rewrite (process_record_locals_ok (sample_with_down_payment 0) 16) in Hl;
    [|simpl; lia|reflexivity].
  injection Hl as <-. vm_compute in Hr. discriminate.
Qed.

(** An asset value whose product with the percentage overflows leaves no zero
    loan amount: infinity times zero is NaN. *)
Lemma zero_down_payment_overflow :
  exists l : locals,
    process_record_locals
      {| sample_no := "1"; customer_reference := "CR12345"; customer_name := "John Doe";
         city_state := "New York, NY"; A := 1e308; down_payment := 0;
         loan_period := 16; annuity_interest := 8.7; purchase_value_reduction := 100;
         monthly_principal_reduction := 9.76; total_interest_reduction := 15.42;
         guarantor_name := "Mark Doe"; guarantor_reference := "GR98765" |} = Py.Ok l /\
    (loan_amount l =? 0) = false /\ is_nan (loan_amount l) = true.
Proof.
  eexists. split; [apply process_record_locals_ok; [simpl; lia|reflexivity]|].
  split; vm_compute; reflexivity.
Qed.

(** C7 (amended): with a zero down payment, a non-zero loan period, a finite
    purchase value and finite percentages, the loan amount, the principal and
    the total interest are zero, and the insurance is ["NA"]: the lookup at a
    loan percentage of 100 is not applicable, so no rate is multiplied. *)
Theorem zero_down_payment (str_float : float -> string) (data : LoanInput) :
  (down_payment data =? 0) = true ->
  loan_period data <> 0%Z ->
  is_finite (A data * purchase_value_reduction data / 100) = true ->
  is_finite (monthly_principal_reduction data) = true ->
  is_finite (annuity_interest data) = true ->
  is_finite (total_interest_reduction data) = true ->
  match Py.float_of_int (loan_period data) with
  | Py.Ok _ =>
      exists l : locals,
        process_record_locals data = Py.Ok l /\
        (loan_amount l =? 0) = true /\
        (principal l =? 0) = true /\
        (total_interest l =? 0) = true /\
        loan_percentage l = 100 /\
        rate l = None /\
        insurance_monthly l = NA /\
        row_get insurance_key (output_row str_float data l) = Some "NA"%string
  | Py.Raise _ => process_record_locals data = Py.Raise Py.OverflowError
  end.
Proof.
  intros Hd Hn Hpv Hm Ha Ht.
  destruct (Py.float_of_int (loan_period data)) as [n|e] eqn:Hc;
    [|apply (process_record_locals_overflow data e Hc)].
  destruct (float_of_int_finite _ _ Hn Hc) as (m & e & Hf).
  assert (Hnf : is_finite n = true)
    by (apply is_finite_spec; right; do 3 eexists; exact Hf).
  eexists. split; [apply (process_record_locals_ok data n Hn Hc)|].
  cbn [loan_amount principal total_interest loan_percentage rate insurance_monthly
       output_row row_get].
  assert (Hla : (A data * purchase_value_reduction data / 100 * down_payment data / 100 =? 0)
                = true) by (apply div_100_zero, mul_zero_r; assumption).
  set (la := A data * purchase_value_reduction data / 100 * down_payment data / 100) in *.
  assert (Hbp : (la / n / 12 =? 0) = true)
    by (apply div_12_zero, (div_zero_l la n _ m e Hla Hf)).
  assert (Hiv : (la * n * annuity_interest data / 100 =? 0) = true)
    by (apply div_100_zero, mul_zero_l; [apply mul_zero_l|]; assumption).
  rewrite (rate_zero_down_payment _ _ Hd).
  repeat split.
  - exact Hla.
  - apply sub_zero; [exact Hbp|]. apply div_100_zero, mul_zero_l; assumption.
  - apply sub_zero; [exact Hiv|]. apply div_100_zero, mul_zero_l; assumption.
  - apply (sub_zero_r 100 _ false 7036874417766400 (-46)); [reflexivity|exact Hd].
Qed.

Lemma zero_down_payment_witness :
  exists l : locals,
    process_record_locals (sample_with_down_payment 0) = Py.Ok l /\
    (loan_amount l =? 0) = true /\
    (principal l =? 0) = true /\
    (total_interest l =? 0) = true /\
    loan_percentage l = 100 /\
    rate l = None /\
    insurance_monthly l = NA /\
    row_get insurance_key
      (output_row (fun _ => ""%string) (sample_with_down_payment 0) l) = Some "NA"%string.
Proof.
  apply (zero_down_payment (fun _ => ""%string) (sample_with_down_payment 0));
    try reflexivity.
  simpl. lia.
Defined.

(** ** Scaling by two

    Doubling a binary64 value only raises its exponent; the lemmas below show
    that rounding commutes with that, away from overflow and from the
    subnormal range. *)
Local Open Scope Z_scope.

Lemma shr_exp mrs e n : 0 <= n -> shr mrs e n = (fst (shr mrs 0 n), e + n).
Proof.
  intros Hn. destruct n as [|k|k]; cbn [shr fst]; try lia.
  - rewrite Z.add_0_r. reflexivity.
  - reflexivity.
Qed.

Lemma round_nearest_even_bounds m l :
  0 <= m ->
  0 <= round_nearest_even m l /\
  Zdigits2 (round_nearest_even m l) <= Zdigits2 m + 1.
Proof.
  intros Hm. destruct (Z.eq_dec m 0) as [->|Hz].
  - destruct l as [|[]]; cbn; lia.
  - destruct (round_nearest_even_digits m l) as [H1 H2]; lia.
Qed.

(** Rounding the same mantissa one exponent higher gives the same mantissa one
    exponent higher, when the result is above the lowest binade and below the
    highest. *)
Lemma binary_round_aux_shift s (M : Z) E l m' e' :
  53 <= Zdigits2 M -> 0 < M ->
  binary_round_aux prec emax s M E l = S754_finite s m' e' ->
  -1074 < e' < 971 ->
  binary_round_aux prec emax s M (E + 1) l = S754_finite s m' (e' + 1).
Proof.
  intros Hd HM. unfold binary_round_aux, shr_fexp.
  set (d := Zdigits2 M) in *.
  set (mrs0 := shr_record_of_loc M l).
  assert (Hm0 : shr_m mrs0 = M) by (unfold mrs0; destruct l as [|[]]; reflexivity).
  destruct (Z_lt_le_dec (d + E - 53) (-1074)) as [Hc|Hu].
  - (* the result would lie in the lowest binade *)
    assert (Hf : fexp prec emax (d + E) - E = -1074 - E)
      by (unfold fexp, SpecFloat.emin, prec, emax; lia).
    rewrite Hf, (shr_exp mrs0 E (-1074 - E)) by lia.
    destruct (shr_digits mrs0 0 (-1074 - E)) as (P1 & P2 & _); [lia|lia|].
    set (mrs' := fst (shr mrs0 0 (-1074 - E))) in *.
    rewrite Hm0 in P2. fold d in P2.
    destruct (round_nearest_even_bounds (shr_m mrs') (loc_of_shr_record mrs') P1) as (R1 & R2).
    set (m1 := round_nearest_even (shr_m mrs') (loc_of_shr_record mrs')) in *.
    assert (Hf2 : fexp prec emax (Zdigits2 m1 + (E + (-1074 - E))) - (E + (-1074 - E)) = 0)
      by (unfold fexp, SpecFloat.emin, prec, emax; lia).
    rewrite Hf2. unfold shr. cbv beta iota. unfold shr_record_of_loc, shr_m.
    destruct m1; [discriminate| |discriminate].
    destruct (_ <=? _); [|discriminate]. intros HH He.
    assert (HE : E + (-1074 - E) = e') by congruence. lia.
  - assert (Hf : forall k, 0 <= k -> fexp prec emax (d + (E + k)) - (E + k) = d - 53)
      by (intros k Hk; unfold fexp, SpecFloat.emin, prec, emax; lia).
    rewrite (Hf 1) by lia. generalize (Hf 0). rewrite !Z.add_0_r. intros ->; [|lia].
    rewrite (shr_exp mrs0 E (d - 53)), (shr_exp mrs0 (E + 1) (d - 53)) by lia.
    destruct (shr_digits mrs0 0 (d - 53)) as (P1 & P2 & _); [lia|lia|].
    set (mrs' := fst (shr mrs0 0 (d - 53))) in *.
    rewrite Hm0 in P2. fold d in P2.
    assert (Hm' : 0 < shr_m mrs')
      by (destruct (shr_m mrs'); cbn [Zdigits2] in P2; lia).
    destruct (round_nearest_even_digits (shr_m mrs') (loc_of_shr_record mrs') Hm') as (R1 & R2).
    set (m1 := round_nearest_even (shr_m mrs') (loc_of_shr_record mrs')) in *.
    assert (Hg : forall k, 0 <= k ->
               fexp prec emax (Zdigits2 m1 + (E + k + (d - 53))) - (E + k + (d - 53))
               = Zdigits2 m1 - 53)
      by (intros k Hk; unfold fexp, SpecFloat.emin, prec, emax; lia).
    rewrite (Hg 1) by lia. generalize (Hg 0). rewrite !Z.add_0_r. intros ->; [|lia].
    rewrite (shr_exp _ (E + (d - 53)) (Zdigits2 m1 - 53)) by lia.
    rewrite (shr_exp _ (E + 1 + (d - 53)) (Zdigits2 m1 - 53)) by lia.
    destruct (shr_m (fst (shr (shr_record_of_loc m1 loc_Exact) 0 (Zdigits2 m1 - 53))));
      [discriminate| |discriminate].
    destruct (Z.leb_spec (E + (d - 53) + (Zdigits2 m1 - 53)) (emax - prec));
      [|discriminate].
    intros HH He.
    assert (HE : E + (d - 53) + (Zdigits2 m1 - 53) = e') by congruence.
    assert (HP : p = m') by congruence. rewrite HP.
    replace (E + 1 + (d - 53) + (Zdigits2 m1 - 53))
      with (E + (d - 53) + (Zdigits2 m1 - 53) + 1) by lia.
    destruct (Z.leb_spec (E + (d - 53) + (Zdigits2 m1 - 53) + 1) (emax - prec)) as [_|Hlt];
      [rewrite HE; reflexivity|].
    unfold emax, prec in Hlt. lia.
Qed.

(** *** Bit lengths *)

Lemma digits2_pos_size p : digits2_pos p = Pos.size p.
Proof. induction p as [p IH|p IH|]; cbn [digits2_pos Pos.size]; congruence. Qed.

Lemma digits2_pos_bounds p :
  2 ^ (Zpos (digits2_pos p) - 1) <= Zpos p < 2 ^ Zpos (digits2_pos p).
Proof.
  rewrite digits2_pos_size. split.
  - assert (H := Pos.size_le p).
    assert (E : 2 ^ Zpos (Pos.size p) = 2 * 2 ^ (Zpos (Pos.size p) - 1))
      by (rewrite <- Z.pow_succ_r by lia; f_equal; lia).
    assert (H' : 2 ^ Zpos (Pos.size p) <= Zpos p~0)
      by (rewrite <- Pos2Z.inj_pow; apply Pos2Z.pos_le_pos, H).
    lia.
  - rewrite <- Pos2Z.inj_pow. apply Pos2Z.pos_lt_pos, Pos.size_gt.
Qed.

Lemma Zdigits2_bounds m :
  0 < m -> 2 ^ (Zdigits2 m - 1) <= m < 2 ^ Zdigits2 m.
Proof. destruct m as [|p|p]; try lia. intros _. apply digits2_pos_bounds. Qed.

Lemma Zdigits2_nonneg m : 0 <= Zdigits2 m.
Proof. destruct m; cbn; lia. Qed.

Lemma Zdigits2_le a b : 0 < a -> a <= b -> Zdigits2 a <= Zdigits2 b.
Proof.
  intros Ha Hab.
  destruct (Zdigits2_bounds a Ha) as [La _].
  destruct (Zdigits2_bounds b) as [_ Ub]; [lia|].
  assert (H : 2 ^ (Zdigits2 a - 1) < 2 ^ Zdigits2 b) by lia.
  apply Z.pow_lt_mono_r_iff in H; [lia|lia|apply Zdigits2_nonneg].
Qed.

Lemma Zdigits2_le0 a b : 0 <= a -> a <= b -> Zdigits2 a <= Zdigits2 b.
Proof.
  intros Ha Hab. destruct (Z.eq_dec a 0) as [->|Hz].
  - apply Zdigits2_nonneg.
  - apply Zdigits2_le; lia.
Qed.

Lemma Zdigits2_mul_pow2 m k :
  0 < m -> 0 <= k -> Zdigits2 (m * 2 ^ k) = Zdigits2 m + k.
Proof.
  intros Hm Hk.
  assert (Hp : 0 < 2 ^ k) by (apply Z.pow_pos_nonneg; lia).
  destruct (Zdigits2_bounds m Hm) as [L U].
  destruct (Zdigits2_bounds (m * 2 ^ k)) as [L' U']; [nia|].
  assert (Hd := Zdigits2_nonneg m). assert (Hd' := Zdigits2_nonneg (m * 2 ^ k)).
  assert (Hd1 : 1 <= Zdigits2 m) by (destruct m; cbn in *; lia).
  assert (A1 : 2 ^ (Zdigits2 m - 1 + k) <= m * 2 ^ k)
    by (rewrite Z.pow_add_r by lia; nia).
  assert (A2 : m * 2 ^ k < 2 ^ (Zdigits2 m + k))
    by (rewrite Z.pow_add_r by lia; nia).
  assert (B1 : 2 ^ (Zdigits2 m - 1 + k) < 2 ^ Zdigits2 (m * 2 ^ k)) by lia.
  assert (B2 : 2 ^ (Zdigits2 (m * 2 ^ k) - 1) < 2 ^ (Zdigits2 m + k)) by lia.
  apply Z.pow_lt_mono_r_iff in B1; [|lia|lia].
  apply Z.pow_lt_mono_r_iff in B2; [|lia|lia].
  lia.
Qed.

(** A valid mantissa above the lowest binade has 53 bits. *)
Lemma bounded_normal m e :
  bounded prec emax m e = true -> -1074 < e -> Zpos (digits2_pos m) = 53.
Proof.
  unfold bounded, canonical_mantissa, fexp, SpecFloat.emin, prec, emax.
  intros H He. apply andb_prop in H. destruct H as [H _]. apply Z.eqb_eq in H. lia.
Qed.

Lemma bounded_digits m e :
  bounded prec emax m e = true -> Zpos (digits2_pos m) <= 53 /\ -1074 <= e.
Proof.
  unfold bounded, canonical_mantissa, fexp, SpecFloat.emin, prec, emax.
  intros H. apply andb_prop in H. destruct H as [H _]. apply Z.eqb_eq in H. lia.
Qed.

Lemma binary_round_aux_sign s M E l s0 m e :
  binary_round_aux prec emax s M E l = S754_finite s0 m e -> s0 = s.
Proof.
  unfold binary_round_aux.
  destruct (shr_fexp prec emax M E l) as [mrs' e1].
  destruct (shr_fexp prec emax _ e1 loc_Exact) as [mrs'' e2].
  destruct (shr_m mrs''); try discriminate.
  destruct (e2 <=? emax - prec); congruence.
Qed.

Lemma shr_iter_xO (k : nat) : forall m : positive,
  Nat.iter k shr_1 (Build_shr_record (Zpos (Nat.iter k xO m)) false false)
  = Build_shr_record (Zpos m) false false.
Proof.
  induction k as [|k IH]; intros m; [reflexivity|].
  rewrite Nat.iter_succ_r. cbn [Nat.iter shr_1 orb]. apply IH.
Qed.

Lemma pos_iter_nat {T : Type} (f : T -> T) (x : T) (k : positive) :
  Pos.iter f x k = Nat.iter (Pos.to_nat k) f x.
Proof. rewrite Pos2Nat.inj_iter. reflexivity. Qed.

(** Doubling a normal value below the highest binade raises its exponent. *)
Lemma SFmul_two s m e :
  Zpos (digits2_pos m) = 53 -> -1074 <= e < 971 ->
  SFmul prec emax (Prim2SF 2) (S754_finite s m e) = S754_finite s m (e + 1).
Proof.
  intros Hd He.
  change (Prim2SF 2) with (S754_finite false 4503599627370496 (-51)).
  cbn [SFmul xorb].
  change (Zpos (4503599627370496 * m)) with (Zpos (Pos.iter xO m 52)).
  unfold binary_round_aux, shr_fexp. cbn [Zdigits2].
  rewrite digits2_pos_iter_xO, Hd.
  assert (Hf : fexp prec emax (53 + 52 + (-51 + e)) - (-51 + e) = 52)
    by (unfold fexp, SpecFloat.emin, prec, emax; lia).
  rewrite Hf. cbn [shr shr_record_of_loc].
  rewrite iter_pos_nat, pos_iter_nat, shr_iter_xO.
  cbn [shr_m loc_of_shr_record round_nearest_even Zdigits2]. rewrite Hd.
  assert (Hf2 : fexp prec emax (53 + (-51 + e + 52)) - (-51 + e + 52) = 0)
    by (unfold fexp, SpecFloat.emin, prec, emax; lia).
  rewrite Hf2. cbn [shr shr_record_of_loc shr_m].
  destruct (Z.leb_spec (-51 + e + 52) (emax - prec)) as [_|Hlt];
    [|unfold emax, prec in Hlt; lia].
  f_equal. lia.
Qed.

Lemma shr_max mrs e n : shr mrs e n = shr mrs e (Z.max 0 n).
Proof. destruct n; reflexivity. Qed.

(** The exponent of a rounded result is at most one above the larger of the
    target exponent and the input exponent. *)
Lemma binary_round_aux_exp_le s M E l s0 m0 e0 :
  0 <= M ->
  binary_round_aux prec emax s M E l = S754_finite s0 m0 e0 ->
  e0 <= Z.max (Z.max (Zdigits2 M + E - 53) (-1074)) E + 1.
Proof.
  intros HM. unfold binary_round_aux, shr_fexp.
  set (d := Zdigits2 M).
  set (mrs0 := shr_record_of_loc M l).
  assert (Hm0 : shr_m mrs0 = M) by (unfold mrs0; destruct l as [|[]]; reflexivity).
  set (n1 := fexp prec emax (d + E) - E).
  rewrite (shr_max mrs0 E n1), (shr_exp mrs0 E (Z.max 0 n1)) by lia.
  destruct (shr_digits mrs0 0 (Z.max 0 n1)) as (P1 & P2 & _); [lia|lia|].
  set (mrs' := fst (shr mrs0 0 (Z.max 0 n1))) in *.
  rewrite Hm0 in P2. fold d in P2.
  destruct (round_nearest_even_bounds (shr_m mrs') (loc_of_shr_record mrs') P1) as (R1 & R2).
  set (m1 := round_nearest_even (shr_m mrs') (loc_of_shr_record mrs')) in *.
  set (e1 := E + Z.max 0 n1).
  set (n2 := fexp prec emax (Zdigits2 m1 + e1) - e1).
  rewrite (shr_max _ e1 n2), (shr_exp _ e1 (Z.max 0 n2)) by lia.
  destruct (shr_m (fst (shr (shr_record_of_loc m1 loc_Exact) 0 (Z.max 0 n2))));
    [discriminate| |discriminate].
  destruct (_ <=? _); [|discriminate].
  intros HH. assert (HE : e1 + Z.max 0 n2 = e0) by congruence.
  assert (Hd := Zdigits2_nonneg M). fold d in Hd.
  unfold n2, e1, n1, fexp, SpecFloat.emin, prec, emax in *. lia.
Qed.

Lemma SFmul_shift sx mx ex sy my ey s0 m0 e0 :
  Zpos (digits2_pos mx) = 53 ->
  SFmul prec emax (S754_finite sx mx ex) (S754_finite sy my ey) = S754_finite s0 m0 e0 ->
  -1074 < e0 < 971 ->
  SFmul prec emax (S754_finite sx mx (ex + 1)) (S754_finite sy my ey)
  = S754_finite s0 m0 (e0 + 1).
Proof.
  intros Hd. cbn [SFmul]. intros H He.
  assert (Hs := binary_round_aux_sign _ _ _ _ _ _ _ H). subst s0.
  replace (ex + 1 + ey) with (ex + ey + 1) by lia.
  apply binary_round_aux_shift; [|lia|exact H|exact He].
  rewrite <- Hd. change (Zpos (digits2_pos mx)) with (Zdigits2 (Zpos mx)).
  apply Zdigits2_le; [lia|]. rewrite Pos2Z.inj_mul. nia.
Qed.

Lemma shl_align_shift m e e' :
  shl_align m (e + 1) (e' + 1) = (fst (shl_align m e e'), snd (shl_align m e e') + 1).
Proof.
  unfold shl_align. replace (e' + 1 - (e + 1)) with (e' - e) by lia.
  destruct (e' - e); reflexivity.
Qed.

(** A mantissa of at most 53 bits at the lowest exponent is kept as it is. *)
Lemma binary_round_aux_lowest s m :
  Zpos (digits2_pos m) <= 53 ->
  binary_round_aux prec emax s (Zpos m) (-1074) loc_Exact = S754_finite s m (-1074).
Proof.
  intros Hd. unfold binary_round_aux, shr_fexp.
  assert (Hf : fexp prec emax (Zdigits2 (Zpos m) + -1074) - -1074 = 0)
    by (unfold fexp, SpecFloat.emin, prec, emax; cbn [Zdigits2]; lia).
  rewrite Hf.
  change (shr (shr_record_of_loc (Zpos m) loc_Exact) (-1074) 0)
    with (Build_shr_record (Zpos m) false false, -1074).
  lazy beta iota.
  change (shr_m (Build_shr_record (Zpos m) false false)) with (Zpos m).
  change (loc_of_shr_record (Build_shr_record (Zpos m) false false)) with loc_Exact.
  change (round_nearest_even (Zpos m) loc_Exact) with (Zpos m).
  rewrite Hf.
  change (shr (shr_record_of_loc (Zpos m) loc_Exact) (-1074) 0)
    with (Build_shr_record (Zpos m) false false, -1074).
  reflexivity.
Qed.

(** A non-zero integer mantissa at an exponent above the lowest never rounds
    to zero or NaN. *)
Lemma binary_round_cases s p e :
  -1074 < e ->
  (exists m e', binary_round prec emax s p e = S754_finite s m e')
  \/ binary_round prec emax s p e = S754_infinity s.
Proof.
  intros He. unfold binary_round.
  set (d := Zpos (digits2_pos p)).
  destruct (Z_lt_le_dec (d + e - 53) (-1074)) as [Hc|Hu].
  - assert (Hf : fexp prec emax (d + e) = -1074)
      by (unfold fexp, SpecFloat.emin, prec, emax; lia).
    rewrite Hf. unfold shl_align.
    destruct (-1074 - e) as [|k|k] eqn:Ek; try lia.
    left. do 2 eexists. apply binary_round_aux_lowest.
    rewrite digits2_pos_iter_xO. fold d. lia.
  - assert (Hf : fexp prec emax (d + e) = d + e - 53)
      by (unfold fexp, SpecFloat.emin, prec, emax; lia).
    rewrite Hf. unfold shl_align.
    destruct (d + e - 53 - e) as [|k|k] eqn:Ek.
    + destruct (binary_round_aux_wide s p e loc_Exact) as [(m & e' & H & _)|H];
        [fold d; lia|lia|left; eauto|right; exact H].
    + destruct (binary_round_aux_wide s p e loc_Exact) as [(m & e' & H & _)|H];
        [fold d; lia|lia|left; eauto|right; exact H].
    + destruct (binary_round_aux_wide s (Pos.iter xO p k) (d + e - 53) loc_Exact)
        as [(m & e' & H & _)|H];
        [rewrite digits2_pos_iter_xO; fold d; lia|lia|left; eauto|right; exact H].
Qed.

Lemma binary_round_shift s p e s0 m0 e0 :
  -1074 < e ->
  binary_round prec emax s p e = S754_finite s0 m0 e0 ->
  -1073 < e0 < 971 ->
  binary_round prec emax s p (e + 1) = S754_finite s0 m0 (e0 + 1).
Proof.
  intros He. unfold binary_round.
  set (d := Zpos (digits2_pos p)).
  destruct (Z_lt_le_dec (d + e - 53) (-1074)) as [Hc|Hu].
  - (* the result would lie in the lowest binade *)
    assert (Hf : fexp prec emax (d + e) = -1074)
      by (unfold fexp, SpecFloat.emin, prec, emax; lia).
    rewrite Hf. unfold shl_align.
    destruct (-1074 - e) as [|k|k] eqn:Ek; try lia.
    intros H Hr. exfalso.
    apply binary_round_aux_exp_le in H; [|lia].
    cbn [Zdigits2] in H. rewrite digits2_pos_iter_xO in H. fold d in H. lia.
  - assert (Hf : forall k, 0 <= k -> fexp prec emax (d + (e + k)) = d + e - 53 + k)
      by (intros k Hk; unfold fexp, SpecFloat.emin, prec, emax; lia).
    rewrite (Hf 1) by lia. generalize (Hf 0). rewrite !Z.add_0_r. intros ->; [|lia].
    rewrite shl_align_shift.
    destruct (shl_align p e (d + e - 53)) as [mz ez] eqn:Ea. cbn [fst snd].
    intros H Hr.
    assert (Hs := binary_round_aux_sign _ _ _ _ _ _ _ H). subst s0.
    apply binary_round_aux_shift; [|lia|exact H|lia].
    unfold shl_align in Ea. cbn [Zdigits2].
    destruct (d + e - 53 - e) as [|k|k] eqn:Ek;
      injection Ea as <- <-; rewrite ?digits2_pos_iter_xO; fold d; lia.
Qed.

Lemma SFsub_shift sx mx ex sy my ey :
  -1074 < ex -> -1074 < ey ->
  match SFsub prec emax (S754_finite sx mx ex) (S754_finite sy my ey) with
  | S754_zero s0 =>
      SFsub prec emax (S754_finite sx mx (ex + 1)) (S754_finite sy my (ey + 1))
      = S754_zero s0
  | S754_finite s0 m0 e0 =>
      -1073 < e0 < 971 ->
      SFsub prec emax (S754_finite sx mx (ex + 1)) (S754_finite sy my (ey + 1))
      = S754_finite s0 m0 (e0 + 1)
  | _ => True
  end.
Proof.
  intros Hx Hy. cbn [SFsub].
  rewrite Z.add_min_distr_r, !shl_align_shift. cbn [fst].
  set (ez := Z.min ex ey).
  set (M := cond_Zopp sx (Zpos (fst (shl_align mx ex ez)))
            - cond_Zopp sy (Zpos (fst (shl_align my ey ez)))).
  destruct M as [|p|p]; cbn [binary_normalize].
  - reflexivity.
  - destruct (binary_round prec emax false p ez) as [s0|s0| |s0 m0 e0] eqn:E; try exact I.
    + exfalso. destruct (binary_round_cases false p ez) as [(m & e & H)|H];
        [unfold ez; lia|congruence|congruence].
    + intros Hr. apply binary_round_shift; [unfold ez; lia|exact E|exact Hr].
  - destruct (binary_round prec emax true p ez) as [s0|s0| |s0 m0 e0] eqn:E; try exact I.
    + exfalso. destruct (binary_round_cases true p ez) as [(m & e & H)|H];
        [unfold ez; lia|congruence|congruence].
    + intros Hr. apply binary_round_shift; [unfold ez; lia|exact E|exact Hr].
Qed.

Lemma SFdiv_core_binary_eq m1 e1 m2 e2 :
  let e' :=
    Z.min (fexp prec emax (Zpos (digits2_pos m1) + e1 - (Zpos (digits2_pos m2) + e2)))
          (e1 - e2) in
  SFdiv_core_binary prec emax (Zpos m1) e1 (Zpos m2) e2
  = ((Zpos m1 * 2 ^ (e1 - e2 - e')) / Zpos m2, e',
     new_location (Zpos m2) ((Zpos m1 * 2 ^ (e1 - e2 - e')) mod Zpos m2)).
Proof.
  intros e'. unfold SFdiv_core_binary. cbn [Zdigits2]. fold e'.
  assert (Hs : 0 <= e1 - e2 - e') by (unfold e'; lia).
  assert (Hm : match e1 - e2 - e' with
               | Zpos _ => Z.shiftl (Zpos m1) (e1 - e2 - e')
               | 0 => Zpos m1
               | Zneg _ => 0
               end = Zpos m1 * 2 ^ (e1 - e2 - e')).
  { destruct (e1 - e2 - e') as [|k|k] eqn:Ek.
    - rewrite Z.pow_0_r. lia.
    - rewrite Z.shiftl_mul_pow2 by lia. reflexivity.
    - lia. }
  rewrite Hm. unfold Z.div, Z.modulo.
  destruct (Z.div_eucl (Zpos m1 * 2 ^ (e1 - e2 - e')) (Zpos m2)); reflexivity.
Qed.

Lemma SFdiv_shift sx mx ex sy my ey s0 m0 e0 :
  Zpos (digits2_pos mx) = 53 ->
  bounded prec emax my ey = true ->
  SFdiv prec emax (S754_finite sx mx ex) (S754_finite sy my ey) = S754_finite s0 m0 e0 ->
  -1021 < e0 < 971 ->
  SFdiv prec emax (S754_finite sx mx (ex + 1)) (S754_finite sy my ey)
  = S754_finite s0 m0 (e0 + 1).
Proof.
  intros Hd Hb. destruct (bounded_digits _ _ Hb) as [Hd2 _].
  cbn [SFdiv]. rewrite !SFdiv_core_binary_eq. rewrite Hd.
  set (d2 := Zpos (digits2_pos my)) in *.
  assert (Hd2' : 1 <= d2) by (unfold d2; lia).
  destruct (Z_lt_le_dec (ex - ey - d2) (-1074)) as [Hc|Hu].
  - (* too small a quotient for the result to be in range *)
    set (e' := Z.min (fexp prec emax (53 + ex - (d2 + ey))) (ex - ey)).
    assert (He' : e' = Z.min (-1074) (ex - ey))
      by (unfold e', fexp, SpecFloat.emin, prec, emax; lia).
    intros H Hr. exfalso.
    assert (Hp : 0 < 2 ^ (ex - ey - e')) by (apply Z.pow_pos_nonneg; lia).
    assert (Hq : 0 <= Zpos mx * 2 ^ (ex - ey - e') / Zpos my)
      by (apply Z.div_pos; lia).
    apply binary_round_aux_exp_le in H; [|exact Hq].
    assert (Hdq : Zdigits2 (Zpos mx * 2 ^ (ex - ey - e') / Zpos my) <= 53 + (ex - ey - e')).
    { rewrite <- Hd. change (Zpos (digits2_pos mx)) with (Zdigits2 (Zpos mx)).
      rewrite <- Zdigits2_mul_pow2 by lia.
      apply Zdigits2_le0; [exact Hq|].
      apply Z.div_le_upper_bound; [lia|]. nia. }
    lia.
  - assert (He : forall k, 0 <= k <= 1 ->
               Z.min (fexp prec emax (53 + (ex + k) - (d2 + ey))) (ex + k - ey)
               = ex - ey - d2 + k)
      by (intros k Hk; unfold fexp, SpecFloat.emin, prec, emax; lia).
    rewrite (He 1) by lia. generalize (He 0). rewrite !Z.add_0_r. intros ->; [|lia].
    replace (ex + 1 - ey - (ex - ey - d2 + 1)) with d2 by lia.
    replace (ex - ey - (ex - ey - d2)) with d2 by lia.
    intros H Hr.
    assert (Hs := binary_round_aux_sign _ _ _ _ _ _ _ H). subst s0.
    assert (Hp : 0 < 2 ^ d2) by (apply Z.pow_pos_nonneg; lia).
    assert (Hmy : Zpos my < 2 ^ d2) by (apply digits2_pos_bounds).
    assert (Hq : Zpos mx <= Zpos mx * 2 ^ d2 / Zpos my)
      by (apply Z.div_le_lower_bound; [lia|nia]).
    apply binary_round_aux_shift; [|lia|exact H|lia].
    rewrite <- Hd. change (Zpos (digits2_pos mx)) with (Zdigits2 (Zpos mx)).
    apply Zdigits2_le; lia.
Qed.

(** *** Doubling on floats *)

Local Open Scope float_scope.

Lemma in_range_finite x :
  in_range x ->
  exists s m e, Prim2SF x = S754_finite s m e /\ (-1020 <= e < 971)%Z
                /\ Zpos (digits2_pos m) = 53%Z.
Proof.
  unfold in_range. intros H. assert (Hv := Prim2SF_valid x).
  destruct (Prim2SF x) as [s|s| |s m e]; try contradiction.
  exists s, m, e. repeat split; try lia.
  apply (bounded_normal m e Hv). lia.
Qed.

Lemma in_range_not_zero x : in_range x -> (x =? 0) = false.
Proof.
  intros H. destruct (in_range_finite x H) as (s & m & e & E & _).
  rewrite FloatAxioms.eqb_spec, E. destruct s; reflexivity.
Qed.

Lemma double_in_range x s m e :
  Prim2SF x = S754_finite s m e -> in_range x ->
  Prim2SF (2 * x) = S754_finite s m (e + 1).
Proof.
  intros E H. destruct (in_range_finite x H) as (s' & m' & e' & E' & He & Hd).
  rewrite E in E'. injection E' as <- <- <-.
  rewrite mul_spec, E. apply SFmul_two; [exact Hd|lia].
Qed.

Lemma double_zero x : (x =? 0) = true -> 2 * x = x.
Proof.
  rewrite is_zero_spec. intros [s E]. apply Prim2SF_inj.
  rewrite mul_spec, E. reflexivity.
Qed.

Lemma scalable_finite x : scalable x -> is_finite x = true.
Proof.
  intros [H|H]; [|apply zero_is_finite, H].
  destruct (in_range_finite x H) as (s & m & e & E & _).
  apply is_finite_spec. right. eauto.
Qed.

Lemma mul_double x y :
  scalable x -> is_finite y = true -> mul_keeps x y ->
  (2 * x) * y = 2 * (x * y) /\ scalable (x * y).
Proof.
  intros Hx Hy Hk.
  assert (Hfx := scalable_finite x Hx).
  destruct Hx as [Hx|Hx].
  - destruct (in_range_finite x Hx) as (s & m & e & Ex & He & Hd).
    apply is_finite_spec in Hy. destruct Hy as [[sy Ey]|(sy & my & ey & Ey)].
    + assert (Hz : (x * y =? 0) = true)
        by (apply mul_zero_r; [exact Hfx|apply is_zero_spec; eauto]).
      split; [|right; exact Hz].
      rewrite (double_zero _ Hz). apply Prim2SF_inj.
      rewrite (mul_spec (2 * x) y), (mul_spec x y), (double_in_range x s m e Ex Hx), Ex, Ey.
      reflexivity.
    + assert (Hr : in_range (x * y)).
      { destruct Hk as [Hk|[Hk|Hk]]; [exact Hk| |].
        - rewrite (in_range_not_zero x Hx) in Hk. discriminate.
        - rewrite FloatAxioms.eqb_spec, Ey in Hk. destruct sy; discriminate. }
      split; [|left; exact Hr].
      destruct (in_range_finite _ Hr) as (s0 & m0 & e0 & E0 & He0 & _).
      apply Prim2SF_inj.
      rewrite (double_in_range _ s0 m0 e0 E0 Hr).
      rewrite mul_spec, (double_in_range x s m e Ex Hx), Ey.
      rewrite mul_spec, Ex, Ey in E0.
      apply SFmul_shift; [exact Hd|exact E0|lia].
  - assert (Hz : (x * y =? 0) = true) by (apply mul_zero_l; assumption).
    split; [|right; exact Hz].
    rewrite (double_zero _ Hx), (double_zero _ Hz). reflexivity.
Qed.

Lemma div_double x y sy my ey :
  scalable x -> Prim2SF y = S754_finite sy my ey -> div_keeps x y ->
  (2 * x) / y = 2 * (x / y) /\ scalable (x / y).
Proof.
  intros Hx Ey Hk.
  assert (Hb : bounded prec emax my ey = true).
  { assert (Hv := Prim2SF_valid y). rewrite Ey in Hv. exact Hv. }
  destruct Hx as [Hx|Hx].
  - destruct (in_range_finite x Hx) as (s & m & e & Ex & He & Hd).
    assert (Hr : in_range (x / y)).
    { destruct Hk as [Hk|Hk]; [exact Hk|].
      rewrite (in_range_not_zero x Hx) in Hk. discriminate. }
    split; [|left; exact Hr].
    destruct (in_range_finite _ Hr) as (s0 & m0 & e0 & E0 & He0 & _).
    apply Prim2SF_inj.
    rewrite (double_in_range _ s0 m0 e0 E0 Hr).
    rewrite div_spec, (double_in_range x s m e Ex Hx), Ey.
    rewrite div_spec, Ex, Ey in E0.
    apply SFdiv_shift; [exact Hd|exact Hb|exact E0|lia].
  - assert (Hz : (x / y =? 0) = true) by (apply (div_zero_l x y sy my ey); assumption).
    split; [|right; exact Hz].
    rewrite (double_zero _ Hx), (double_zero _ Hz). reflexivity.
Qed.

Lemma sub_double x y :
  scalable x -> scalable y -> sub_keeps x y ->
  (2 * x) - (2 * y) = 2 * (x - y) /\ scalable (x - y).
Proof.
  intros Hx Hy Hk. split; [|exact Hk].
  destruct Hx as [Hx|Hx], Hy as [Hy|Hy].
  - destruct (in_range_finite x Hx) as (sx & mx & ex & Ex & Hex & Hdx).
    destruct (in_range_finite y Hy) as (sy & my & ey & Ey & Hey & Hdy).
    assert (H := SFsub_shift sx mx ex sy my ey).
    apply Prim2SF_inj.
    rewrite sub_spec, (double_in_range x _ _ _ Ex Hx), (double_in_range y _ _ _ Ey Hy).
    destruct Hk as [Hk|Hk].
    + destruct (in_range_finite _ Hk) as (s0 & m0 & e0 & E0 & He0 & _).
      rewrite (double_in_range _ s0 m0 e0 E0 Hk).
      rewrite sub_spec, Ex, Ey in E0. unfold SF64sub in E0. rewrite E0 in H.
      apply H; lia.
    + rewrite (double_zero _ Hk).
      apply is_zero_spec in Hk. destruct Hk as [s0 E0].
      rewrite E0. rewrite sub_spec, Ex, Ey in E0. unfold SF64sub in E0. rewrite E0 in H.
      apply H; lia.
  - destruct (in_range_finite x Hx) as (sx & mx & ex & Ex & Hex & Hdx).
    rewrite (double_zero _ Hy).
    assert (E : x - y = x) by (apply (sub_zero_r x y sx mx ex); assumption).
    rewrite E. apply Prim2SF_inj.
    apply is_zero_spec in Hy. destruct Hy as [sy Ey].
    rewrite sub_spec, (double_in_range x _ _ _ Ex Hx), Ey. reflexivity.
  - destruct (in_range_finite y Hy) as (sy & my & ey & Ey & Hey & Hdy).
    rewrite (double_zero _ Hx).
    apply is_zero_spec in Hx. destruct Hx as [sx Ex].
    assert (E0 : Prim2SF (x - y) = S754_finite (negb sy) my ey)
      by (rewrite sub_spec, Ex, Ey; reflexivity).
    assert (Hr : in_range (x - y)) by (unfold in_range; rewrite E0; exact Hey).
    apply Prim2SF_inj.
    rewrite (double_in_range _ _ _ _ E0 Hr).
    rewrite sub_spec, Ex, (double_in_range y _ _ _ Ey Hy). reflexivity.
  - assert (Hz : (x - y =? 0) = true) by (apply sub_zero; assumption).
    rewrite (double_zero _ Hx), (double_zero _ Hy), (double_zero _ Hz). reflexivity.
Qed.

(** The first factor of the pipeline only has to be normal and below
    [2^1023]; the product has to be in range. *)
Lemma mul_double_normal x y :
  normal_below_max x -> is_finite y = true -> mul_keeps x y ->
  (2 * x) * y = 2 * (x * y) /\ scalable (x * y).
Proof.
  unfold normal_below_max. intros Hx Hy Hk.
  assert (Hv := Prim2SF_valid x).
  destruct (Prim2SF x) as [s|s| |s m e] eqn:Ex; try contradiction.
  destruct Hx as [Hd He]. destruct (bounded_digits _ _ Hv) as [_ He'].
  assert (E2 : Prim2SF (2 * x) = S754_finite s m (e + 1))
    by (rewrite mul_spec, Ex; apply SFmul_two; [exact Hd|lia]).
  assert (Hfx : is_finite x = true) by (apply is_finite_spec; right; eauto).
  assert (Hnz : (x =? 0) = false)
    by (rewrite FloatAxioms.eqb_spec, Ex; destruct s; reflexivity).
  apply is_finite_spec in Hy. destruct Hy as [[sy Ey]|(sy & my & ey & Ey)].
  - assert (Hz : (x * y =? 0) = true)
      by (apply mul_zero_r; [exact Hfx|apply is_zero_spec; eauto]).
    split; [|right; exact Hz].
    rewrite (double_zero _ Hz). apply Prim2SF_inj.
    rewrite (mul_spec (2 * x) y), (mul_spec x y), E2, Ex, Ey. reflexivity.
  - assert (Hr : in_range (x * y)).
    { destruct Hk as [Hk|[Hk|Hk]]; [exact Hk| |].
      - rewrite Hnz in Hk. discriminate.
      - rewrite FloatAxioms.eqb_spec, Ey in Hk. destruct sy; discriminate. }
    split; [|left; exact Hr].
    destruct (in_range_finite _ Hr) as (s0 & m0 & e0 & E0 & He0 & _).
    apply Prim2SF_inj.
    rewrite (double_in_range _ s0 m0 e0 E0 Hr).
    rewrite mul_spec, E2, Ey.
    rewrite mul_spec, Ex, Ey in E0.
    apply SFmul_shift; [exact Hd|exact E0|lia].
Qed.

(** *** Doubling the asset value *)





(** ** Monotonicity of rounding

    One right shift and the final rounding are monotone in the record read as
    an integer ([code]); so is therefore [binary_round_aux] for inputs given
    at one exponent. *)

Local Open Scope Z_scope.

Lemma shr_1_m_nonneg mrs : 0 <= shr_m mrs -> 0 <= shr_m (shr_1 mrs).
Proof. intros H. apply shr_1_digits, H. Qed.

Lemma shr_1_code mrs :
  0 <= shr_m mrs ->
  code (shr_1 mrs) = 2 * shr_m mrs + (if shr_r mrs || shr_s mrs then 1 else 0).
Proof.
  destruct mrs as [m r s]. unfold code. cbn [shr_m shr_r shr_s]. intros Hm.
  destruct m as [|[p|p|]|p]; cbn [shr_1 shr_m shr_r shr_s]; try lia;
    destruct (r || s)%bool; lia.
Qed.

Lemma code_bounds mrs : 4 * shr_m mrs <= code mrs <= 4 * shr_m mrs + 3.
Proof. unfold code. destruct (shr_r mrs), (shr_s mrs); lia. Qed.

Lemma shr_1_mono a b :
  0 <= shr_m a -> 0 <= shr_m b -> code a <= code b -> code (shr_1 a) <= code (shr_1 b).
Proof.
  intros Ha Hb. rewrite !shr_1_code by assumption. unfold code.
  destruct (shr_r a), (shr_s a), (shr_r b), (shr_s b); cbn [orb]; lia.
Qed.

Lemma shr_iter_mono (n : nat) a b :
  0 <= shr_m a -> 0 <= shr_m b -> code a <= code b ->
  code (Nat.iter n shr_1 a) <= code (Nat.iter n shr_1 b).
Proof.
  intros Ha Hb H. induction n as [|n IH]; [exact H|].
  rewrite !Nat.iter_succ. apply shr_1_mono; [| |exact IH];
    apply shr_iter_digits; assumption.
Qed.

Lemma round_record_mono a b :
  0 <= shr_m a -> 0 <= shr_m b -> code a <= code b ->
  round_nearest_even (shr_m a) (loc_of_shr_record a)
  <= round_nearest_even (shr_m b) (loc_of_shr_record b).
Proof.
  destruct a as [ma ra sa], b as [mb rb sb]. unfold code. cbn [shr_m shr_r shr_s].
  intros Ha Hb H.
  destruct (Z.eq_dec ma mb) as [->|Hne].
  - destruct ra, sa, rb, sb; cbn [loc_of_shr_record round_nearest_even];
      try lia; destruct (Z.even mb); lia.
  - assert (Hlt : ma + 1 <= mb) by (destruct ra, sa, rb, sb; lia).
    destruct ra, sa, rb, sb; cbn [loc_of_shr_record round_nearest_even];
      try destruct (Z.even ma); try destruct (Z.even mb); lia.
Qed.

Lemma round_record_bounds a :
  0 <= shr_m a ->
  shr_m a <= round_nearest_even (shr_m a) (loc_of_shr_record a) <= shr_m a + 1.
Proof.
  destruct a as [m r s]. cbn [shr_m]. intros Hm.
  destruct r, s; cbn [loc_of_shr_record round_nearest_even];
    try destruct (Z.even m); lia.
Qed.

Lemma shr_nat mrs e n :
  0 <= n -> shr mrs e n = (Nat.iter (Z.to_nat n) shr_1 mrs, e + n).
Proof.
  intros Hn. destruct n as [|k|k]; cbn [shr]; try lia.
  - rewrite Z.add_0_r. reflexivity.
  - rewrite iter_pos_nat. reflexivity.
Qed.

Lemma shr_record_of_loc_m m l : shr_m (shr_record_of_loc m l) = m.
Proof. destruct l as [|[]]; reflexivity. Qed.

Lemma mk_float_eq s m e :
  match m with
  | 0 => S754_zero s
  | Zpos p => if e <=? emax - prec then S754_finite s p e else S754_infinity s
  | Zneg _ => S754_nan
  end = mk_float s m e.
Proof. reflexivity. Qed.

(** [binary_round_aux] in one piece: [n] bits are shifted out, the record is
    rounded, and a carry to [2^53] moves to the next exponent. *)
Lemma binary_round_aux_form s M E l :
  0 <= M ->
  let n := fexp prec emax (Zdigits2 M + E) - E in
  0 <= n ->
  let R := Nat.iter (Z.to_nat n) shr_1 (shr_record_of_loc M l) in
  let m1 := round_nearest_even (shr_m R) (loc_of_shr_record R) in
  binary_round_aux prec emax s M E l
  = (if m1 <? 2 ^ 53 then mk_float s m1 (E + n) else mk_float s (2 ^ 52) (E + n + 1))
  /\ 0 <= shr_m R < 2 ^ 53
  /\ Zdigits2 (shr_m R) = Z.max 0 (Zdigits2 M - n)
  /\ shr_m R <= m1 <= shr_m R + 1.
Proof.
  intros HM n Hn R m1.
  assert (HR : 0 <= shr_m R /\ Zdigits2 (shr_m R) = Z.max 0 (Zdigits2 M - n)).
  { destruct (shr_iter_digits (Z.to_nat n) (shr_record_of_loc M l)) as [H1 H2];
      [rewrite shr_record_of_loc_m; exact HM|].
    fold R in H1, H2. rewrite shr_record_of_loc_m in H2. split; [exact H1|lia]. }
  destruct HR as [HR0 HRd].
  assert (Hdn : Zdigits2 M - n <= 53)
    by (unfold n, fexp, SpecFloat.emin, prec, emax; lia).
  assert (HRlt : shr_m R < 2 ^ 53).
  { destruct (Z.eq_dec (shr_m R) 0) as [->|Hz]; [reflexivity|].
    destruct (Zdigits2_bounds (shr_m R)) as [_ U]; [lia|].
    eapply Z.lt_le_trans; [exact U|]. apply Z.pow_le_mono_r; lia. }
  assert (Hm1 := round_record_bounds R HR0). fold m1 in Hm1.
  repeat split; try lia.
  unfold binary_round_aux, shr_fexp. fold n.
  rewrite (shr_nat _ E n Hn). fold R. fold m1.
  assert (He1 : -1074 <= E + n) by (unfold n, fexp, SpecFloat.emin, prec, emax; lia).
  destruct (Z.ltb_spec m1 (2 ^ 53)) as [Hlt|Hge].
  - assert (Hd1 : Zdigits2 m1 <= 53).
    { destruct (Z.eq_dec m1 0) as [->|Hz]; [cbn; lia|].
      destruct (Zdigits2_bounds m1) as [L _]; [lia|].
      assert (Hp : 2 ^ (Zdigits2 m1 - 1) < 2 ^ 53) by lia.
      apply Z.pow_lt_mono_r_iff in Hp; lia. }
    rewrite shr_max.
    replace (Z.max 0 (fexp prec emax (Zdigits2 m1 + (E + n)) - (E + n))) with 0
      by (unfold fexp, SpecFloat.emin, prec, emax; lia).
    cbn [shr]. rewrite shr_record_of_loc_m. apply mk_float_eq.
  - assert (Em1 : m1 = 2 ^ 53) by lia. rewrite Em1.
    replace (fexp prec emax (Zdigits2 (2 ^ 53) + (E + n)) - (E + n)) with 1
      by (change (Zdigits2 (2 ^ 53)) with 54;
          unfold fexp, SpecFloat.emin, prec, emax; lia).
    reflexivity.
Qed.

Lemma mk_float_le m1 e1 m2 e2 :
  0 <= m1 -> 0 <= m2 ->
  m1 = 0 \/ (e1 < e2 /\ 0 < m2) \/ (e1 = e2 /\ m1 <= m2) ->
  SFle (mk_float false m1 e1) (mk_float false m2 e2).
Proof.
  intros H1 H2 H. unfold SFle, mk_float.
  destruct m1 as [|p1|p1], m2 as [|p2|p2]; try lia;
    repeat match goal with
      | |- context [?a <=? ?b] => destruct (Z.leb_spec a b)
      end;
    cbn [SFcompare]; auto;
    change (Pos.compare_cont Eq p1 p2) with (Pos.compare p1 p2);
    destruct (Z.compare_spec e1 e2); auto; try lia;
    destruct (Pos.compare_spec p1 p2); auto; lia.
Qed.

Lemma Zdigits2_53 m : 0 <= m -> Zdigits2 m = 53 -> 2 ^ 52 <= m.
Proof.
  intros Hm Hd. destruct (Z.eq_dec m 0) as [->|Hz]; [discriminate|].
  destruct (Zdigits2_bounds m) as [L _]; [lia|]. rewrite Hd in L. exact L.
Qed.

(** Rounding at one exponent (low enough that bits are only shifted out) is
    monotone in the mantissa and its location. *)
Lemma binary_round_aux_mono E M1 l1 M2 l2 :
  0 <= M1 -> 0 <= M2 -> E <= -1074 ->
  code (shr_record_of_loc M1 l1) <= code (shr_record_of_loc M2 l2) ->
  SFle (binary_round_aux prec emax false M1 E l1)
       (binary_round_aux prec emax false M2 E l2).
Proof.
  intros H1 H2 HE Hc.
  assert (HM : M1 <= M2).
  { assert (B1 := code_bounds (shr_record_of_loc M1 l1)).
    assert (B2 := code_bounds (shr_record_of_loc M2 l2)).
    rewrite shr_record_of_loc_m in B1, B2. lia. }
  assert (Hd := Zdigits2_le0 M1 M2 H1 HM).
  assert (Hd1 := Zdigits2_nonneg M1).
  set (n1 := fexp prec emax (Zdigits2 M1 + E) - E).
  set (n2 := fexp prec emax (Zdigits2 M2 + E) - E).
  assert (Hn1 : 0 <= n1) by (unfold n1, fexp, SpecFloat.emin, prec, emax; lia).
  assert (Hn2 : 0 <= n2) by (unfold n2, fexp, SpecFloat.emin, prec, emax; lia).
  assert (Hn : n1 <= n2) by (unfold n1, n2, fexp, SpecFloat.emin, prec, emax; lia).
  destruct (binary_round_aux_form false M1 E l1 H1 Hn1) as (-> & A1 & A2 & A3).
  destruct (binary_round_aux_form false M2 E l2 H2 Hn2) as (-> & B1 & B2 & B3).
  fold n1 in A1, A2, A3 |- *. fold n2 in B1, B2, B3 |- *.
  set (R1 := Nat.iter (Z.to_nat n1) shr_1 (shr_record_of_loc M1 l1)) in *.
  set (R2 := Nat.iter (Z.to_nat n2) shr_1 (shr_record_of_loc M2 l2)) in *.
  set (r1 := round_nearest_even (shr_m R1) (loc_of_shr_record R1)) in *.
  set (r2 := round_nearest_even (shr_m R2) (loc_of_shr_record R2)) in *.
  destruct (Z.eq_dec n1 n2) as [En|Nn].
  - assert (Hr : r1 <= r2).
    { apply round_record_mono; try lia. unfold R1, R2. rewrite En.
      apply shr_iter_mono; rewrite ?shr_record_of_loc_m; assumption. }
    rewrite <- En.
    destruct (Z.ltb_spec r1 (2 ^ 53)), (Z.ltb_spec r2 (2 ^ 53));
      apply mk_float_le; lia.
  - assert (E2 : n2 = Zdigits2 M2 - 53)
      by (unfold n1, n2, fexp, SpecFloat.emin, prec, emax in *; lia).
    assert (D2 : Zdigits2 (shr_m R2) = 53) by lia.
    assert (L2 := Zdigits2_53 _ (proj1 B1) D2).
    destruct (Z.ltb_spec r1 (2 ^ 53)), (Z.ltb_spec r2 (2 ^ 53));
      apply mk_float_le; lia.
Qed.

(** *** The same value at a lower exponent *)

Lemma shr_iter_pow2 (k : nat) (M : Z) :
  0 <= M ->
  Nat.iter k shr_1 (Build_shr_record (M * 2 ^ Z.of_nat k) false false)
  = Build_shr_record M false false.
Proof.
  intros HM. induction k as [|k IH].
  - cbn [Nat.iter]. rewrite Z.mul_1_r. reflexivity.
  - rewrite Nat.iter_succ_r, Nat2Z.inj_succ, Z.pow_succ_r by lia.
    replace (M * (2 * 2 ^ Z.of_nat k)) with (2 * (M * 2 ^ Z.of_nat k)) by lia.
    assert (Hp : 0 <= M * 2 ^ Z.of_nat k)
      by (apply Z.mul_nonneg_nonneg; [exact HM|apply Z.pow_nonneg; lia]).
    destruct (M * 2 ^ Z.of_nat k) as [|p|p] eqn:Ep; try lia.
    + exact IH.
    + change (2 * Zpos p) with (Zpos p~0). exact IH.
Qed.

Lemma binary_round_aux_align s M E k :
  0 < M -> 0 <= k -> E <= fexp prec emax (Zdigits2 M + E) ->
  binary_round_aux prec emax s (M * 2 ^ k) (E - k) loc_Exact
  = binary_round_aux prec emax s M E loc_Exact.
Proof.
  intros HM Hk Hn.
  assert (Hp : 0 < 2 ^ k) by (apply Z.pow_pos_nonneg; lia).
  assert (Hd : Zdigits2 (M * 2 ^ k) = Zdigits2 M + k) by (apply Zdigits2_mul_pow2; lia).
  destruct (binary_round_aux_form s M E loc_Exact) as (-> & _); [lia|lia|].
  destruct (binary_round_aux_form s (M * 2 ^ k) (E - k) loc_Exact) as (-> & _);
    [nia|rewrite Hd; replace (Zdigits2 M + k + (E - k)) with (Zdigits2 M + E) by lia; lia|].
  rewrite Hd. replace (Zdigits2 M + k + (E - k)) with (Zdigits2 M + E) by lia.
  set (n := fexp prec emax (Zdigits2 M + E) - E).
  replace (fexp prec emax (Zdigits2 M + E) - (E - k)) with (n + k) by (unfold n; lia).
  replace (Z.to_nat (n + k)) with (Z.to_nat n + Z.to_nat k)%nat by (unfold n; lia).
  rewrite Nat.iter_add.
  change (shr_record_of_loc (M * 2 ^ k) loc_Exact)
    with (Build_shr_record (M * 2 ^ k) false false).
  replace (M * 2 ^ k) with (M * 2 ^ Z.of_nat (Z.to_nat k)) by (rewrite Z2Nat.id; lia).
  rewrite shr_iter_pow2 by lia.
  replace (E - k + (n + k)) with (E + n) by lia.
  reflexivity.
Qed.

Lemma Zpos_iter_xO (n : nat) (p : positive) :
  Zpos (Nat.iter n xO p) = Zpos p * 2 ^ Z.of_nat n.
Proof.
  induction n as [|n IH].
  - change (Zpos p = Zpos p * 1). lia.
  - rewrite Nat.iter_succ, Nat2Z.inj_succ, Z.pow_succ_r, Pos2Z.inj_xO, IH by lia. ring.
Qed.

Lemma shl_align_value m e e' :
  let '(mz, ez) := shl_align m e e' in
  ez = Z.min e e' /\ Zpos mz = Zpos m * 2 ^ (e - ez).
Proof.
  unfold shl_align. destruct (e' - e) as [|k|k] eqn:Ek.
  - split; [lia|]. replace (e - e) with 0 by lia. lia.
  - split; [lia|]. replace (e - e) with 0 by lia. lia.
  - split; [lia|]. rewrite pos_iter_nat, Zpos_iter_xO.
    f_equal. f_equal. lia.
Qed.

(** [binary_round] is [binary_round_aux] on the value written at any exponent
    at or below the target one. *)
Lemma binary_round_low s p e E0 :
  E0 <= e -> E0 <= -1074 ->
  binary_round prec emax s p e
  = binary_round_aux prec emax s (Zpos p * 2 ^ (e - E0)) E0 loc_Exact.
Proof.
  intros H0 H1. unfold binary_round.
  set (f := fexp prec emax (Zpos (digits2_pos p) + e)).
  assert (Hf : -1074 <= f) by (unfold f, fexp, SpecFloat.emin, prec, emax; lia).
  assert (A := shl_align_value p e f).
  destruct (shl_align p e f) as [mz ez]. destruct A as [Ez Em].
  assert (Hez : 0 <= e - ez) by lia.
  assert (Hp : 0 < 2 ^ (e - ez)) by (apply Z.pow_pos_nonneg; lia).
  assert (Hd : Zdigits2 (Zpos mz) = Zpos (digits2_pos p) + (e - ez)).
  { rewrite Em. rewrite Zdigits2_mul_pow2 by lia. reflexivity. }
  rewrite <- (binary_round_aux_align s (Zpos mz) ez (ez - E0)); [|lia|lia|].
  - f_equal; [|lia]. rewrite Em, <- Z.mul_assoc, <- Z.pow_add_r by lia.
    f_equal. f_equal. lia.
  - rewrite Hd. replace (Zpos (digits2_pos p) + (e - ez) + ez)
      with (Zpos (digits2_pos p) + e) by lia.
    fold f. lia.
Qed.

(** *** The order of valid floats is the order of their values *)

Lemma SFle_finite_values ma ea mb eb E0 :
  bounded prec emax ma ea = true -> bounded prec emax mb eb = true ->
  E0 <= -1074 ->
  SFle (S754_finite false ma ea) (S754_finite false mb eb) ->
  Zpos ma * 2 ^ (ea - E0) <= Zpos mb * 2 ^ (eb - E0).
Proof.
  intros Ha Hb H0 H.
  destruct (bounded_digits _ _ Ha) as [Da Ea].
  destruct (bounded_digits _ _ Hb) as [Db Eb].
  assert (Hlt : ea < eb \/ (ea = eb /\ (ma <= mb)%positive)).
  { unfold SFle in H. cbn [SFcompare] in H.
    change (Pos.compare_cont Eq ma mb) with (Pos.compare ma mb) in H.
    destruct (Z.compare_spec ea eb); [right|left; lia|destruct H; discriminate].
    split; [assumption|]. destruct (Pos.compare_spec ma mb); try lia.
    destruct H; discriminate. }
  destruct Hlt as [Hlt|[-> Hm]].
  - assert (Db' := bounded_normal _ _ Hb ltac:(lia)).
    destruct (digits2_pos_bounds ma) as [_ Ua].
    destruct (digits2_pos_bounds mb) as [Lb _]. rewrite Db' in Lb.
    assert (Ua' : Zpos ma < 2 ^ 53)
      by (eapply Z.lt_le_trans; [exact Ua|apply Z.pow_le_mono_r; lia]).
    assert (P1 : 0 < 2 ^ (ea - E0)) by (apply Z.pow_pos_nonneg; lia).
    assert (P2 : 2 ^ (eb - E0) = 2 ^ (eb - ea - 1) * 2 * 2 ^ (ea - E0)).
    { replace (eb - E0) with ((eb - ea - 1) + 1 + (ea - E0)) at 1 by lia.
      rewrite !Z.pow_add_r by lia. reflexivity. }
    assert (P3 : 0 < 2 ^ (eb - ea - 1)) by (apply Z.pow_pos_nonneg; lia).
    rewrite P2. change (2 ^ (53 - 1)) with (2 ^ 52) in Lb.
    assert (Q : 2 ^ 53 = 2 * 2 ^ 52) by reflexivity.
    nia.
  - assert (P1 : 0 < 2 ^ (eb - E0)) by (apply Z.pow_pos_nonneg; lia).
    nia.
Qed.

(** *** Shapes and the order *)

Lemma SFle_zero_nonneg s f : nonneg f -> SFle (S754_zero s) f.
Proof. unfold SFle. destruct f as [s'|[]| |[] m e]; cbn; tauto. Qed.

Lemma SFle_nonneg_infinity f : nonneg f -> SFle f (S754_infinity false).
Proof. unfold SFle. destruct f as [s'|[]| |[] m e]; cbn; tauto. Qed.

Lemma SFle_refl f : f <> S754_nan -> SFle f f.
Proof.
  unfold SFle. destruct f as [s|[]| |s m e]; cbn [SFcompare]; try tauto.
  intros _. right. apply SFcompare_refl_finite.
Qed.

Lemma mk_float_nonneg m e : 0 <= m -> nonneg (mk_float false m e).
Proof.
  intros Hm. unfold mk_float. destruct m as [|p|p]; try lia; [exact I|].
  destruct (e <=? emax - prec); exact I.
Qed.

Lemma binary_round_aux_nonneg M E l :
  0 <= M -> E <= fexp prec emax (Zdigits2 M + E) ->
  nonneg (binary_round_aux prec emax false M E l).
Proof.
  intros HM Hn.
  destruct (binary_round_aux_form false M E l HM) as (-> & A1 & _ & A3); [lia|].
  destruct (_ <? _); apply mk_float_nonneg; lia.
Qed.

(** *** Products *)

Lemma mul_shift_nonneg mx ex my ey :
  bounded prec emax mx ex = true -> bounded prec emax my ey = true ->
  ex + ey <= fexp prec emax (Zdigits2 (Zpos (mx * my)) + (ex + ey)).
Proof.
  intros Hx Hy.
  destruct (bounded_digits _ _ Hx) as [Dx Ex].
  destruct (bounded_digits _ _ Hy) as [Dy Ey].
  destruct (Z_le_gt_dec (ex + ey) (-1074)) as [Hs|Hs];
    [unfold fexp, SpecFloat.emin, prec, emax; lia|].
  assert (Hd : 53 <= Zdigits2 (Zpos (mx * my))).
  { destruct (Z_le_gt_dec ex (-1074)) as [Hex|Hex].
    - rewrite <- (bounded_normal _ _ Hy) by lia.
      change (Zpos (digits2_pos my)) with (Zdigits2 (Zpos my)).
      apply Zdigits2_le; [lia|]. rewrite Pos2Z.inj_mul. nia.
    - rewrite <- (bounded_normal _ _ Hx) by lia.
      change (Zpos (digits2_pos mx)) with (Zdigits2 (Zpos mx)).
      apply Zdigits2_le; [lia|]. rewrite Pos2Z.inj_mul. nia. }
  unfold fexp, SpecFloat.emin, prec, emax. lia.
Qed.

Lemma SFmul_low mx ex my ey :
  bounded prec emax mx ex = true -> bounded prec emax my ey = true ->
  SFmul prec emax (S754_finite false mx ex) (S754_finite false my ey)
  = binary_round_aux prec emax false
      (Zpos mx * 2 ^ (ex + 1074) * (Zpos my * 2 ^ (ey + 1074))) (-2148) loc_Exact.
Proof.
  intros Hx Hy. cbn [SFmul xorb].
  destruct (bounded_digits _ _ Hx) as [_ Ex].
  destruct (bounded_digits _ _ Hy) as [_ Ey].
  rewrite <- (binary_round_aux_align false (Zpos (mx * my)) (ex + ey) (ex + ey + 2148));
    [|lia|lia|apply mul_shift_nonneg; assumption].
  f_equal; [|lia].
  replace (ex + ey + 2148) with ((ex + 1074) + (ey + 1074)) by lia.
  rewrite Z.pow_add_r, Pos2Z.inj_mul by lia. ring.
Qed.

Lemma SFmul_mono_finite mx ex ma ea mb eb :
  bounded prec emax mx ex = true ->
  bounded prec emax ma ea = true -> bounded prec emax mb eb = true ->
  SFle (S754_finite false ma ea) (S754_finite false mb eb) ->
  SFle (SFmul prec emax (S754_finite false mx ex) (S754_finite false ma ea))
       (SFmul prec emax (S754_finite false mx ex) (S754_finite false mb eb)).
Proof.
  intros Hx Ha Hb H.
  rewrite !SFmul_low by assumption.
  assert (V := SFle_finite_values ma ea mb eb (-1074) Ha Hb ltac:(lia) H).
  replace (ea - -1074) with (ea + 1074) in V by lia.
  replace (eb - -1074) with (eb + 1074) in V by lia.
  destruct (bounded_digits _ _ Hx) as [_ Ex].
  destruct (bounded_digits _ _ Ha) as [_ Ea].
  destruct (bounded_digits _ _ Hb) as [_ Eb].
  assert (Px : 0 < 2 ^ (ex + 1074)) by (apply Z.pow_pos_nonneg; lia).
  assert (Pa : 0 < 2 ^ (ea + 1074)) by (apply Z.pow_pos_nonneg; lia).
  assert (Pb : 0 < 2 ^ (eb + 1074)) by (apply Z.pow_pos_nonneg; lia).
  apply binary_round_aux_mono; [nia|nia|lia|].
  unfold code. cbn [shr_record_of_loc shr_m shr_r shr_s]. nia.
Qed.

Lemma SFmul_finite_nonneg mx ex my ey :
  bounded prec emax mx ex = true -> bounded prec emax my ey = true ->
  nonneg (SFmul prec emax (S754_finite false mx ex) (S754_finite false my ey)).
Proof.
  intros Hx Hy. cbn [SFmul xorb].
  apply binary_round_aux_nonneg; [lia|apply mul_shift_nonneg; assumption].
Qed.

(** Zero or a positive finite value. *)
Lemma SFmul_mono x a b :
  valid_binary x = true -> valid_binary a = true -> valid_binary b = true ->
  nonneg x -> nonneg a -> nonneg b ->
  x <> S754_infinity false -> a <> S754_infinity false -> b <> S754_infinity false ->
  SFle a b ->
  SFle (SFmul prec emax x a) (SFmul prec emax x b)
  /\ nonneg (SFmul prec emax x a) /\ nonneg (SFmul prec emax x b).
Proof.
  intros Vx Va Vb Nx Na Nb Fx Fa Fb H.
  destruct x as [sx|[]| |[] mx ex]; try contradiction; try congruence;
  destruct a as [sa|[]| |[] ma ea]; try contradiction; try congruence;
  destruct b as [sb|[]| |[] mb eb]; try contradiction; try congruence;
    cbn [valid_binary] in Vx, Va, Vb.
  - cbn. unfold SFle. cbn. tauto.
  - cbn. unfold SFle. cbn. tauto.
  - cbn. unfold SFle. cbn. tauto.
  - cbn. unfold SFle. cbn. tauto.
  - cbn [SFmul]. unfold SFle. cbn. tauto.
  - split; [|split]; [apply SFle_zero_nonneg| exact I|];
      apply SFmul_finite_nonneg; assumption.
  - exfalso. destruct H as [H|H]; discriminate.
  - split; [apply SFmul_mono_finite; assumption|].
    split; apply SFmul_finite_nonneg; assumption.
Qed.

(** *** Quotients *)

(** The location of a remainder is the comparison of its double with the
    divisor. *)
Lemma new_location_spec D r :
  0 < D -> 0 <= r < D ->
  new_location D r = if r =? 0 then loc_Exact else loc_Inexact (2 * r ?= D).
Proof.
  intros HD Hr. unfold new_location, new_location_even, new_location_odd.
  destruct (Z.even D) eqn:Ev; [reflexivity|].
  destruct (r =? 0); [reflexivity|]. f_equal.
  assert (Ho : Z.odd D = true) by (rewrite <- Z.negb_even, Ev; reflexivity).
  apply Z.odd_spec in Ho. destruct Ho as [c Hc].
  destruct (Z.compare_spec (2 * r + 1) D), (Z.compare_spec (2 * r) D);
    try reflexivity; lia.
Qed.

Lemma code_of_loc m l : code (shr_record_of_loc m l) = 4 * m + loc_code l.
Proof. destruct l as [|[]]; unfold code; cbn; lia. Qed.

Lemma new_location_mono D r1 r2 :
  0 < D -> 0 <= r1 -> r1 <= r2 -> r2 < D ->
  loc_code (new_location D r1) <= loc_code (new_location D r2).
Proof.
  intros HD H1 H12 H2. rewrite !new_location_spec by lia.
  destruct (Z.eqb_spec r1 0), (Z.eqb_spec r2 0); cbn [loc_code]; try lia.
  - destruct (2 * r2 ?= D); cbn; lia.
  - destruct (Z.compare_spec (2 * r1) D), (Z.compare_spec (2 * r2) D); cbn; lia.
Qed.

(** One more bit of quotient, shifted out again, leaves the same record. *)
Lemma shr_1_quotient N D :
  0 <= N -> 0 < D ->
  shr_1 (shr_record_of_loc (2 * N / D) (new_location D ((2 * N) mod D)))
  = shr_record_of_loc (N / D) (new_location D (N mod D)).
Proof.
  intros HN HD.
  assert (Hq := Z.div_mod N D ltac:(lia)).
  assert (Hr := Z.mod_pos_bound N D HD).
  assert (Hq0 : 0 <= N / D) by (apply Z.div_pos; lia).
  set (q := N / D) in *. set (r := N mod D) in *.
  rewrite (new_location_spec D r HD Hr).
  destruct (Z_lt_le_dec (2 * r) D) as [Hlt|Hge].
  - assert (E1 : 2 * N / D = 2 * q)
      by (symmetry; apply (Z.div_unique _ _ _ (2 * r)); lia).
    assert (E2 : (2 * N) mod D = 2 * r)
      by (symmetry; apply (Z.mod_unique _ _ (2 * q)); lia).
    rewrite E1, E2, (new_location_spec D (2 * r)) by lia.
    replace (2 * r =? 0) with (r =? 0)
      by (destruct (Z.eqb_spec r 0), (Z.eqb_spec (2 * r) 0); lia || reflexivity).
    assert (C : (2 * r ?= D) = Lt) by (apply Z.compare_lt_iff; lia).
    rewrite C.
    destruct (r =? 0); destruct q as [|p|p]; try lia;
      destruct (2 * (2 * r) ?= D); reflexivity.
  - assert (E1 : 2 * N / D = 2 * q + 1)
      by (symmetry; apply (Z.div_unique _ _ _ (2 * r - D)); lia).
    assert (E2 : (2 * N) mod D = 2 * r - D)
      by (symmetry; apply (Z.mod_unique _ _ (2 * q + 1)); lia).
    rewrite E1, E2, (new_location_spec D (2 * r - D)) by lia.
    assert (Hr0 : (r =? 0) = false) by (apply Z.eqb_neq; lia).
    rewrite Hr0.
    destruct (Z.eqb_spec (2 * r - D) 0) as [Ez|Ez].
    + assert (C : (2 * r ?= D) = Eq) by (apply Z.compare_eq_iff; lia).
      rewrite C. destruct q as [|p|p]; try lia; reflexivity.
    + assert (C : (2 * r ?= D) = Gt) by (apply Z.compare_gt_iff; lia).
      rewrite C. destruct q as [|p|p]; try lia;
        destruct (2 * (2 * r - D) ?= D); reflexivity.
Qed.

Lemma shr_iter_quotient (k : nat) N D :
  0 <= N -> 0 < D ->
  Nat.iter k shr_1
    (shr_record_of_loc (N * 2 ^ Z.of_nat k / D)
                       (new_location D ((N * 2 ^ Z.of_nat k) mod D)))
  = shr_record_of_loc (N / D) (new_location D (N mod D)).
Proof.
  intros HN HD. induction k as [|k IH].
  - change (2 ^ Z.of_nat 0) with 1. rewrite Z.mul_1_r. reflexivity.
  - rewrite Nat.iter_succ_r, Nat2Z.inj_succ, Z.pow_succ_r by lia.
    replace (N * (2 * 2 ^ Z.of_nat k)) with (2 * (N * 2 ^ Z.of_nat k)) by ring.
    rewrite shr_1_quotient; [exact IH| |exact HD].
    apply Z.mul_nonneg_nonneg; [exact HN|apply Z.pow_nonneg; lia].
Qed.

Lemma quotient_digits N D e k :
  0 <= N -> 0 < D -> 0 <= k ->
  e <= fexp prec emax (Zdigits2 (N / D) + e) ->
  fexp prec emax (Zdigits2 (N * 2 ^ k / D) + (e - k))
  = fexp prec emax (Zdigits2 (N / D) + e).
Proof.
  intros HN HD Hk He.
  assert (Hp : 0 < 2 ^ k) by (apply Z.pow_pos_nonneg; lia).
  assert (Hq := Z.div_mod N D ltac:(lia)).
  assert (Hr := Z.mod_pos_bound N D HD).
  assert (Hq0 : 0 <= N / D) by (apply Z.div_pos; lia).
  assert (Hlo : N / D * 2 ^ k <= N * 2 ^ k / D)
    by (apply Z.div_le_lower_bound; [lia|nia]).
  assert (Hhi : N * 2 ^ k / D < (N / D + 1) * 2 ^ k)
    by (apply Z.div_lt_upper_bound; [lia|nia]).
  destruct (Z.eq_dec (N / D) 0) as [Ez|Nz].
  - rewrite Ez in *. cbn [Zdigits2] in *.
    assert (Hd : Zdigits2 (N * 2 ^ k / D) <= k).
    { destruct (Z.eq_dec (N * 2 ^ k / D) 0) as [->|Nz']; [cbn; lia|].
      destruct (Zdigits2_bounds (N * 2 ^ k / D)) as [L _]; [lia|].
      assert (H : 2 ^ (Zdigits2 (N * 2 ^ k / D) - 1) < 2 ^ k) by lia.
      apply Z.pow_lt_mono_r_iff in H; lia. }
    assert (Hd0 := Zdigits2_nonneg (N * 2 ^ k / D)).
    revert He. unfold fexp, SpecFloat.emin, prec, emax. lia.
  - f_equal.
    assert (Hd : Zdigits2 (N * 2 ^ k / D) = Zdigits2 (N / D) + k); [|lia].
    rewrite <- Zdigits2_mul_pow2 by lia.
    apply Z.le_antisymm.
    + destruct (Zdigits2_bounds (N * 2 ^ k / D)) as [L _]; [lia|].
      destruct (Zdigits2_bounds (N / D)) as [_ U]; [lia|].
      rewrite Zdigits2_mul_pow2 by lia.
      assert (H : 2 ^ (Zdigits2 (N * 2 ^ k / D) - 1) < 2 ^ (Zdigits2 (N / D) + k)).
      { rewrite Z.pow_add_r by (try apply Zdigits2_nonneg; lia). nia. }
      apply Z.pow_lt_mono_r_iff in H; [lia|lia|].
      assert (Hn := Zdigits2_nonneg (N / D)). lia.
    + apply Zdigits2_le; [nia|lia].
Qed.

(** More bits of the quotient do not change the rounded result. *)
Lemma binary_round_aux_quotient s N D e k :
  0 <= N -> 0 < D -> 0 <= k ->
  e <= fexp prec emax (Zdigits2 (N / D) + e) ->
  binary_round_aux prec emax s (N * 2 ^ k / D) (e - k)
                   (new_location D ((N * 2 ^ k) mod D))
  = binary_round_aux prec emax s (N / D) e (new_location D (N mod D)).
Proof.
  intros HN HD Hk He.
  assert (Hp : 0 < 2 ^ k) by (apply Z.pow_pos_nonneg; lia).
  assert (Hq0 : 0 <= N / D) by (apply Z.div_pos; lia).
  assert (Hq1 : 0 <= N * 2 ^ k / D) by (apply Z.div_pos; nia).
  assert (Hd := quotient_digits N D e k HN HD Hk He).
  destruct (binary_round_aux_form s (N / D) e (new_location D (N mod D)))
    as (-> & _); [lia|lia|].
  destruct (binary_round_aux_form s (N * 2 ^ k / D) (e - k)
              (new_location D ((N * 2 ^ k) mod D))) as (-> & _);
    [lia|rewrite Hd; lia|].
  rewrite Hd.
  set (n := fexp prec emax (Zdigits2 (N / D) + e) - e).
  replace (fexp prec emax (Zdigits2 (N / D) + e) - (e - k)) with (n + k)
    by (unfold n; lia).
  replace (Z.to_nat (n + k)) with (Z.to_nat n + Z.to_nat k)%nat by (unfold n; lia).
  rewrite Nat.iter_add.
  replace (2 ^ k) with (2 ^ Z.of_nat (Z.to_nat k)) by (rewrite Z2Nat.id; lia).
  rewrite shr_iter_quotient by lia.
  replace (e - k + (n + k)) with (e + n) by lia.
  reflexivity.
Qed.

(** The exponent chosen by the division leaves at least 53 bits of quotient,
    or is the lowest one. *)
Lemma SFdiv_core_exponent ma ea mc ec :
  let e' :=
    Z.min (fexp prec emax (Zpos (digits2_pos ma) + ea - (Zpos (digits2_pos mc) + ec)))
          (ea - ec) in
  e' <= fexp prec emax (Zdigits2 (Zpos ma * 2 ^ (ea - ec - e') / Zpos mc) + e').
Proof.
  intros e'.
  destruct (Z_le_gt_dec e' (-1074)) as [Hl|Hg];
    [unfold fexp, SpecFloat.emin, prec, emax; lia|].
  assert (He : e' <= Zpos (digits2_pos ma) + ea - (Zpos (digits2_pos mc) + ec) - 53)
    by (revert Hg; unfold e', fexp, SpecFloat.emin, prec, emax; lia).
  assert (Hs : 0 <= ea - ec - e') by (unfold e'; lia).
  destruct (digits2_pos_bounds ma) as [La _].
  destruct (digits2_pos_bounds mc) as [_ Uc].
  set (da := Zpos (digits2_pos ma)) in *. set (dc := Zpos (digits2_pos mc)) in *.
  assert (Hda : 1 <= da) by (unfold da; lia).
  assert (Hdc : 1 <= dc) by (unfold dc; lia).
  assert (Hq : 2 ^ 52 <= Zpos ma * 2 ^ (ea - ec - e') / Zpos mc).
  { apply Z.div_le_lower_bound; [lia|].
    assert (P : 2 ^ (da - 1) * 2 ^ (ea - ec - e') = 2 ^ 52 * 2 ^ dc * 2 ^ (da - 1 + (ea - ec - e') - 52 - dc)).
    { rewrite <- !Z.pow_add_r by lia. f_equal. lia. }
    assert (P1 : 0 < 2 ^ (da - 1 + (ea - ec - e') - 52 - dc))
      by (apply Z.pow_pos_nonneg; lia).
    assert (P2 : 0 < 2 ^ (ea - ec - e')) by (apply Z.pow_pos_nonneg; lia).
    assert (P3 : 0 < 2 ^ dc) by (apply Z.pow_pos_nonneg; lia).
    assert (P4 : 0 < 2 ^ 52) by reflexivity.
    nia. }
  assert (Hd : 53 <= Zdigits2 (Zpos ma * 2 ^ (ea - ec - e') / Zpos mc)).
  { change 53 with (Zdigits2 (2 ^ 52)). apply Zdigits2_le; [reflexivity|exact Hq]. }
  unfold fexp, SpecFloat.emin, prec, emax. lia.
Qed.

(** The quotient of two positive finite values, computed at any exponent
    [E0] low enough. *)
Lemma SFdiv_low ma ea mc ec E0 :
  -1074 <= ea -> E0 <= -1074 -> E0 <= -1074 - ec ->
  SFdiv prec emax (S754_finite false ma ea) (S754_finite false mc ec)
  = binary_round_aux prec emax false
      (Zpos ma * 2 ^ (ea - ec - E0) / Zpos mc) E0
      (new_location (Zpos mc) ((Zpos ma * 2 ^ (ea - ec - E0)) mod Zpos mc)).
Proof.
  intros Ha HE0 HE1. cbn [SFdiv xorb]. rewrite SFdiv_core_binary_eq.
  assert (He := SFdiv_core_exponent ma ea mc ec).
  set (e' := Z.min (fexp prec emax (Zpos (digits2_pos ma) + ea - (Zpos (digits2_pos mc) + ec)))
          (ea - ec)) in *.
  cbv zeta in He.
  assert (Hle : E0 <= e') by (unfold e', fexp, SpecFloat.emin, prec, emax; lia).
  assert (Hs : 0 <= ea - ec - e') by (unfold e'; lia).
  assert (Hp : 0 < 2 ^ (ea - ec - e')) by (apply Z.pow_pos_nonneg; lia).
  rewrite <- (binary_round_aux_quotient false (Zpos ma * 2 ^ (ea - ec - e'))
                (Zpos mc) e' (e' - E0)); [|lia|lia|lia|exact He].
  replace (e' - (e' - E0)) with E0 by lia.
  rewrite <- Z.mul_assoc, <- Z.pow_add_r by lia.
  replace (ea - ec - e' + (e' - E0)) with (ea - ec - E0) by lia.
  reflexivity.
Qed.

Lemma quotient_code_mono Na Nb D :
  0 <= Na -> Na <= Nb -> 0 < D ->
  code (shr_record_of_loc (Na / D) (new_location D (Na mod D)))
  <= code (shr_record_of_loc (Nb / D) (new_location D (Nb mod D))).
Proof.
  intros Ha Hab HD. rewrite !code_of_loc.
  assert (Hqa := Z.div_mod Na D ltac:(lia)).
  assert (Hra := Z.mod_pos_bound Na D HD).
  assert (Hqb := Z.div_mod Nb D ltac:(lia)).
  assert (Hrb := Z.mod_pos_bound Nb D HD).
  assert (Hq : Na / D <= Nb / D) by (apply Z.div_le_mono; lia).
  destruct (Z.eq_dec (Na / D) (Nb / D)) as [E|N].
  - assert (Hr : Na mod D <= Nb mod D) by nia.
    assert (H := new_location_mono D _ _ HD (proj1 Hra) Hr (proj2 Hrb)). lia.
  - assert (L1 : loc_code (new_location D (Na mod D)) <= 3)
      by (destruct (new_location D (Na mod D)) as [|[]]; cbn; lia).
    assert (L2 : 0 <= loc_code (new_location D (Nb mod D)))
      by (destruct (new_location D (Nb mod D)) as [|[]]; cbn; lia).
    lia.
Qed.

Lemma SFdiv_mono_finite ma ea mb eb mc ec :
  bounded prec emax ma ea = true -> bounded prec emax mb eb = true ->
  SFle (S754_finite false ma ea) (S754_finite false mb eb) ->
  SFle (SFdiv prec emax (S754_finite false ma ea) (S754_finite false mc ec))
       (SFdiv prec emax (S754_finite false mb eb) (S754_finite false mc ec)).
Proof.
  intros Ba Bb Hab.
  destruct (bounded_digits _ _ Ba) as [_ Ea].
  destruct (bounded_digits _ _ Bb) as [_ Eb].
  set (E0 := Z.min (-1074) (-1074 - ec)).
  rewrite (SFdiv_low ma ea mc ec E0), (SFdiv_low mb eb mc ec E0)
    by (unfold E0; lia).
  assert (Hv := SFle_finite_values ma ea mb eb (E0 + ec) Ba Bb ltac:(unfold E0; lia) Hab).
  replace (ea - (E0 + ec)) with (ea - ec - E0) in Hv by lia.
  replace (eb - (E0 + ec)) with (eb - ec - E0) in Hv by lia.
  assert (Pa : 0 < 2 ^ (ea - ec - E0)) by (apply Z.pow_pos_nonneg; unfold E0; lia).
  assert (Pb : 0 < 2 ^ (eb - ec - E0)) by (apply Z.pow_pos_nonneg; unfold E0; lia).
  apply binary_round_aux_mono.
  - apply Z.div_pos; lia.
  - apply Z.div_pos; lia.
  - unfold E0; lia.
  - apply quotient_code_mono; lia.
Qed.

Lemma SFdiv_finite_nonneg ma ea mc ec :
  nonneg (SFdiv prec emax (S754_finite false ma ea) (S754_finite false mc ec)).
Proof.
  cbn [SFdiv xorb]. rewrite SFdiv_core_binary_eq.
  apply binary_round_aux_nonneg; [|apply SFdiv_core_exponent].
  apply Z.div_pos; [|lia].
  apply Z.mul_nonneg_nonneg; [lia|apply Z.pow_nonneg; lia].
Qed.

(** Division by a positive finite value is monotone on non-negative values. *)
Lemma SFdiv_mono a b mc ec :
  valid_binary a = true -> valid_binary b = true ->
  nonneg a -> nonneg b -> SFle a b ->
  SFle (SFdiv prec emax a (S754_finite false mc ec))
       (SFdiv prec emax b (S754_finite false mc ec))
  /\ nonneg (SFdiv prec emax a (S754_finite false mc ec))
  /\ nonneg (SFdiv prec emax b (S754_finite false mc ec)).
Proof.
  intros Va Vb Na Nb Hab.
  assert (Ha : nonneg (SFdiv prec emax a (S754_finite false mc ec))).
  { destruct a as [sa|[]| |[] ma ea]; try contradiction; try exact I.
    apply SFdiv_finite_nonneg. }
  assert (Hb : nonneg (SFdiv prec emax b (S754_finite false mc ec))).
  { destruct b as [sb|[]| |[] mb eb]; try contradiction; try exact I.
    apply SFdiv_finite_nonneg. }
  split; [|split; assumption].
  destruct a as [sa|[]| |[] ma ea]; try contradiction.
  - apply SFle_zero_nonneg. exact Hb.
  - destruct b as [sb|[]| |[] mb eb]; try contradiction;
      try (destruct Hab; discriminate).
    right. reflexivity.
  - destruct b as [sb|[]| |[] mb eb]; try contradiction.
    + destruct Hab; discriminate.
    + apply SFle_nonneg_infinity. exact Ha.
    + apply SFdiv_mono_finite; assumption.
Qed.

(** *** Differences *)

Lemma mk_float_opp m e : mk_float true m e = SFopp (mk_float false m e).
Proof. unfold mk_float. destruct m; [reflexivity| |reflexivity]. destruct (_ <=? _); reflexivity. Qed.

Lemma binary_round_aux_opp M E l :
  0 <= M -> E <= fexp prec emax (Zdigits2 M + E) ->
  binary_round_aux prec emax true M E l
  = SFopp (binary_round_aux prec emax false M E l).
Proof.
  intros HM Hn.
  destruct (binary_round_aux_form true M E l HM) as (-> & _); [lia|].
  destruct (binary_round_aux_form false M E l HM) as (-> & _); [lia|].
  destruct (_ <? _); apply mk_float_opp.
Qed.

Lemma SFle_opp a b :
  nonneg a -> nonneg b -> SFle a b -> SFle (SFopp b) (SFopp a).
Proof.
  unfold SFle.
  destruct a as [sa|[]| |[] ma ea], b as [sb|[]| |[] mb eb];
    try contradiction; intros _ _; cbn [SFopp negb SFcompare]; try tauto.
  rewrite (Z.compare_antisym eb ea).
  change (Pos.compare_cont Eq mb ma) with (Pos.compare mb ma).
  change (Pos.compare_cont Eq ma mb) with (Pos.compare ma mb).
  rewrite (Pos.compare_antisym mb ma).
  destruct (eb ?= ea); cbn [CompOpp]; tauto.
Qed.

Lemma SFle_opp_nonneg a b : nonneg a -> nonneg b -> SFle (SFopp a) b.
Proof.
  unfold SFle.
  destruct a as [sa|[]| |[] ma ea], b as [sb|[]| |[] mb eb];
    try contradiction; intros _ _; cbn [SFopp negb SFcompare]; tauto.
Qed.

Lemma binary_normalize_lowest v :
  binary_normalize prec emax v (-1074) false
  = match v with
    | 0 => S754_zero false
    | Zpos p => binary_round_aux prec emax false (Zpos p) (-1074) loc_Exact
    | Zneg p => SFopp (binary_round_aux prec emax false (Zpos p) (-1074) loc_Exact)
    end.
Proof.
  destruct v as [|p|p]; cbn [binary_normalize]; [reflexivity| |].
  - rewrite (binary_round_low false p (-1074) (-1074)) by lia.
    change (-1074 - -1074) with 0. rewrite Z.pow_0_r, Z.mul_1_r. reflexivity.
  - rewrite (binary_round_low true p (-1074) (-1074)) by lia.
    change (-1074 - -1074) with 0. rewrite Z.pow_0_r, Z.mul_1_r.
    apply binary_round_aux_opp; [lia|unfold fexp, SpecFloat.emin, prec, emax; lia].
Qed.

Lemma binary_round_aux_lowest_nonneg p :
  nonneg (binary_round_aux prec emax false (Zpos p) (-1074) loc_Exact).
Proof.
  apply binary_round_aux_nonneg; [lia|unfold fexp, SpecFloat.emin, prec, emax; lia].
Qed.

(** Rounding an integer multiple of [2^-1074] is monotone. *)
Lemma binary_normalize_mono v1 v2 :
  v1 <= v2 ->
  SFle (binary_normalize prec emax v1 (-1074) false)
       (binary_normalize prec emax v2 (-1074) false).
Proof.
  intros H. rewrite !binary_normalize_lowest.
  destruct v1 as [|p1|p1], v2 as [|p2|p2]; try lia.
  - right. reflexivity.
  - apply SFle_zero_nonneg, binary_round_aux_lowest_nonneg.
  - apply binary_round_aux_mono; try lia. rewrite !code_of_loc. cbn [loc_code]. lia.
  - apply (SFle_opp_nonneg _ (S754_zero false)); [apply binary_round_aux_lowest_nonneg|exact I].
  - apply SFle_opp_nonneg; apply binary_round_aux_lowest_nonneg.
  - apply SFle_opp; try apply binary_round_aux_lowest_nonneg.
    apply binary_round_aux_mono; try lia. rewrite !code_of_loc. cbn [loc_code]. lia.
Qed.

Lemma binary_normalize_low v e :
  -1074 <= e ->
  binary_normalize prec emax v e false
  = binary_normalize prec emax (v * 2 ^ (e + 1074)) (-1074) false.
Proof.
  intros He.
  assert (Hp : 0 < 2 ^ (e + 1074)) by (apply Z.pow_pos_nonneg; lia).
  destruct v as [|p|p].
  - reflexivity.
  - destruct (Zpos p * 2 ^ (e + 1074)) as [|q|q] eqn:Eq; try lia.
    cbn [binary_normalize].
    rewrite (binary_round_low false p e (-1074)), (binary_round_low false q (-1074) (-1074)) by lia.
    change (-1074 - -1074) with 0. rewrite Z.pow_0_r, Z.mul_1_r.
    replace (e - -1074) with (e + 1074) by lia. rewrite Eq. reflexivity.
  - destruct (Zneg p * 2 ^ (e + 1074)) as [|q|q] eqn:Eq; try lia.
    cbn [binary_normalize].
    rewrite (binary_round_low true p e (-1074)), (binary_round_low true q (-1074) (-1074)) by lia.
    change (-1074 - -1074) with 0. rewrite Z.pow_0_r, Z.mul_1_r.
    replace (e - -1074) with (e + 1074) by lia.
    replace (Zpos p * 2 ^ (e + 1074)) with (Zpos q) by lia. reflexivity.
Qed.

(** A binary64 value is its own rounding. *)
Lemma binary_normalize_bounded m e :
  bounded prec emax m e = true ->
  binary_normalize prec emax (Zpos m * 2 ^ (e + 1074)) (-1074) false
  = S754_finite false m e.
Proof.
  intros B. destruct (bounded_digits _ _ B) as [Hd He].
  rewrite <- binary_normalize_low by lia. cbn [binary_normalize].
  rewrite (binary_round_low false m e (-1074)) by lia.
  replace (-1074) with (e - (e + 1074)) at 2 by lia.
  replace (e - -1074) with (e + 1074) by lia.
  unfold bounded, canonical_mantissa in B. apply andb_prop in B.
  destruct B as [B1 B2]. apply Z.eqb_eq in B1. apply Z.leb_le in B2.
  rewrite binary_round_aux_align; [|lia|lia|cbn [Zdigits2]; lia].
  destruct (binary_round_aux_form false (Zpos m) e loc_Exact) as (-> & _);
    [lia|cbn [Zdigits2]; lia|].
  cbn [Zdigits2]. rewrite B1, Z.sub_diag.
  change (Nat.iter (Z.to_nat 0) shr_1 (shr_record_of_loc (Zpos m) loc_Exact))
    with (Build_shr_record (Zpos m) false false).
  cbn [shr_m loc_of_shr_record shr_r shr_s round_nearest_even].
  destruct (digits2_pos_bounds m) as [_ U].
  assert (Hm : Zpos m < 2 ^ 53)
    by (eapply Z.lt_le_trans; [exact U|apply Z.pow_le_mono_r; lia]).
  apply Z.ltb_lt in Hm. rewrite Hm, Z.add_0_r. unfold mk_float.
  apply Z.leb_le in B2. rewrite B2. reflexivity.
Qed.

(** The difference of two positive finite values, at the lowest exponent. *)
Lemma SFsub_low mx ex mt et :
  -1074 <= ex -> -1074 <= et ->
  SFsub prec emax (S754_finite false mx ex) (S754_finite false mt et)
  = binary_normalize prec emax
      (Zpos mx * 2 ^ (ex + 1074) - Zpos mt * 2 ^ (et + 1074)) (-1074) false.
Proof.
  intros Hx Ht. cbn [SFsub cond_Zopp].
  assert (A := shl_align_value mx ex (Z.min ex et)).
  assert (B := shl_align_value mt et (Z.min ex et)).
  destruct (shl_align mx ex (Z.min ex et)) as [mx' ex'].
  destruct (shl_align mt et (Z.min ex et)) as [mt' et'].
  destruct A as [A1 A2], B as [B1 B2]. cbn [fst].
  rewrite binary_normalize_low by lia. f_equal.
  rewrite A2, B2, A1, B1, Z.mul_sub_distr_r, <- !Z.mul_assoc, <- !Z.pow_add_r by lia.
  change (IntDef.Z.min ex et) with (Z.min ex et).
  f_equal; f_equal; f_equal; lia.
Qed.

Lemma binary_normalize_not_nan v :
  binary_normalize prec emax v (-1074) false <> S754_nan.
Proof.
  rewrite binary_normalize_lowest. destruct v as [|p|p]; [discriminate| |];
    assert (H := binary_round_aux_lowest_nonneg p);
    destruct (binary_round_aux prec emax false (Zpos p) (-1074) loc_Exact);
    try contradiction; discriminate.
Qed.

(** Subtracting more from a finite non-negative value gives less. *)
Lemma SFsub_mono x a b :
  valid_binary x = true -> valid_binary a = true -> valid_binary b = true ->
  nonneg x -> x <> S754_infinity false -> nonneg a -> nonneg b ->
  SFle a b ->
  SFle (SFsub prec emax x b) (SFsub prec emax x a).
Proof.
  intros Vx Va Vb Nx Fx Na Nb Hab.
  destruct x as [sx|[]| |[] mx ex]; try contradiction; try congruence.
  - (* x is a zero *)
    destruct a as [sa|[]| |[] ma ea]; try contradiction;
      destruct b as [sb|[]| |[] mb eb]; try contradiction;
      try (destruct Hab; discriminate); cbn [SFsub negb].
    + destruct sx, sa, sb; right; reflexivity.
    + destruct sx, sa; left; reflexivity.
    + destruct sx, sa; left; reflexivity.
    + right; reflexivity.
    + left; reflexivity.
    + apply (SFle_opp (S754_finite false ma ea) (S754_finite false mb eb)); [exact I|exact I|exact Hab].
  - (* x is positive *)
    destruct (bounded_digits _ _ Vx) as [_ Ex].
    destruct a as [sa|[]| |[] ma ea]; try contradiction;
      destruct b as [sb|[]| |[] mb eb]; try contradiction;
      try (destruct Hab; discriminate).
    + cbn [SFsub]. apply SFle_refl. discriminate.
    + cbn [SFsub negb]. left. reflexivity.
    + destruct (bounded_digits _ _ Vb) as [_ Eb].
      rewrite SFsub_low by lia.
      change (SFsub prec emax (S754_finite false mx ex) (S754_zero sa))
        with (S754_finite false mx ex).
      rewrite <- (binary_normalize_bounded mx ex Vx).
      apply binary_normalize_mono.
      assert (P : 0 < 2 ^ (eb + 1074)) by (apply Z.pow_pos_nonneg; lia). nia.
    + cbn [SFsub negb]. right. reflexivity.
    + destruct (bounded_digits _ _ Va) as [_ Ea].
      rewrite SFsub_low by lia. cbn [SFsub negb].
      assert (H := binary_normalize_not_nan (Zpos mx * 2 ^ (ex + 1074) - Zpos ma * 2 ^ (ea + 1074))).
      unfold SFle.
      destruct (binary_normalize prec emax _ (-1074) false) as [s|[]| |[] m e];
        cbn [SFcompare]; tauto.
    + destruct (bounded_digits _ _ Va) as [_ Ea].
      destruct (bounded_digits _ _ Vb) as [_ Eb].
      rewrite !SFsub_low by lia.
      apply binary_normalize_mono.
      assert (Hv := SFle_finite_values ma ea mb eb (-1074) Va Vb ltac:(lia) Hab).
      replace (ea - -1074) with (ea + 1074) in Hv by lia.
      replace (eb - -1074) with (eb + 1074) in Hv by lia.
      lia.
Qed.

(** *** Reductions on floats *)

Local Open Scope float_scope.

Lemma leb_zero_nonneg r : (0 <=? r) = true -> nonneg (Prim2SF r).
Proof.
  rewrite leb_compare. change (Prim2SF 0) with (S754_zero false).
  destruct (Prim2SF r) as [s|[]| |[] m e]; cbn; intros [H|H];
    try discriminate; exact I.
Qed.

Lemma finite_not_infinity r : is_finite r = true -> Prim2SF r <> S754_infinity false.
Proof.
  rewrite is_finite_spec. intros [[s H]|(s & m & e & H)]; rewrite H; discriminate.
Qed.

Lemma SFle_not_infinity a b :
  SFle a b -> b <> S754_infinity false -> nonneg b -> a <> S754_infinity false.
Proof.
  intros H Hb Nb ->. apply Hb.
  destruct b as [s|[]| |[] m e]; try contradiction; try reflexivity;
    destruct H; discriminate.
Qed.

(** A finite non-negative amount less a larger percentage of it is not more. *)
Lemma reduction_mono (x r1 r2 : float) :
  is_finite x = true -> (0 <=? x) = true ->
  (0 <=? r1) = true -> (r1 <=? r2) = true -> is_finite r2 = true ->
  (x - x * r2 / 100 <=? x - x * r1 / 100) = true.
Proof.
  intros Fx Px P1 H12 F2.
  assert (Nx := leb_zero_nonneg x Px).
  assert (Ix := finite_not_infinity x Fx).
  assert (N1 := leb_zero_nonneg r1 P1).
  assert (N2 := leb_zero_nonneg r2 (leb_trans _ _ _ P1 H12)).
  assert (I2 := finite_not_infinity r2 F2).
  assert (L12 : SFle (Prim2SF r1) (Prim2SF r2)) by (apply leb_compare; exact H12).
  assert (I1 := SFle_not_infinity _ _ L12 I2 N2).
  destruct (SFmul_mono (Prim2SF x) (Prim2SF r1) (Prim2SF r2)
              (Prim2SF_valid x) (Prim2SF_valid r1) (Prim2SF_valid r2)
              Nx N1 N2 Ix I1 I2 L12) as (Lm & Nm1 & Nm2).
  change (SFmul prec emax) with SF64mul in Lm, Nm1, Nm2.
  rewrite <- (mul_spec x r1) in Lm, Nm1. rewrite <- (mul_spec x r2) in Lm, Nm2.
  destruct (SFdiv_mono (Prim2SF (x * r1)) (Prim2SF (x * r2)) 7036874417766400 (-46)
              (Prim2SF_valid _) (Prim2SF_valid _) Nm1 Nm2 Lm) as (Ld & Nd1 & Nd2).
  change (S754_finite false 7036874417766400 (-46)) with (Prim2SF 100) in Ld, Nd1, Nd2.
  change (SFdiv prec emax) with SF64div in Ld, Nd1, Nd2.
  rewrite <- (div_spec (x * r1) 100) in Ld, Nd1.
  rewrite <- (div_spec (x * r2) 100) in Ld, Nd2.
  apply leb_compare. rewrite !sub_spec.
  apply (SFsub_mono (Prim2SF x) (Prim2SF (x * r1 / 100)) (Prim2SF (x * r2 / 100)));
    try apply Prim2SF_valid; assumption.
Qed.

Lemma process_record_locals_defined (data : LoanInput) (l : locals) :
  process_record_locals data = Py.Ok l ->
  loan_period data <> 0%Z /\ exists n, Py.float_of_int (loan_period data) = Py.Ok n.
Proof.
  intros H. split.
  - intros Hz. rewrite (process_record_locals_zero data Hz) in H. discriminate.
  - destruct (Py.float_of_int (loan_period data)) as [n|e] eqn:E; [eauto|].
    rewrite (process_record_locals_overflow data e E) in H. discriminate.
Qed.

(** The claim as written fails twice: with a negative loan period a larger
    reduction gives a larger principal, and on the sample record the next
    float after 9.76 gives the same principal as 9.76. *)
Lemma reduction_not_strictly_decreasing :
  (exists l l' : locals,
     loan_period (with_loan_period (-16) sample_record) <> 0%Z /\
     process_record_locals (with_loan_period (-16) sample_record) = Py.Ok l /\
     process_record_locals
       (with_monthly_principal_reduction 50 (with_loan_period (-16) sample_record))
     = Py.Ok l' /\
     (monthly_principal_reduction sample_record <? 50) = true /\
     (principal l <? principal l') = true)
  /\
  (exists l l' : locals,
     loan_period sample_record <> 0%Z /\
     process_record_locals sample_record = Py.Ok l /\
     process_record_locals
       (with_monthly_principal_reduction
          (next_up (monthly_principal_reduction sample_record)) sample_record)
     = Py.Ok l' /\
     (monthly_principal_reduction sample_record
      <? next_up (monthly_principal_reduction sample_record)) = true /\
     (0 <? monthly_principal_reduction sample_record) = true /\
     (next_up (monthly_principal_reduction sample_record) <? 100) = true /\
     (0 <? base_principal l) = true /\
     principal l' = principal l).
Proof.
  split.
  - do 2 eexists. split; [simpl; lia|].
    split; [apply (process_record_locals_ok _ (-16)); [simpl; lia|reflexivity]|].
    split; [apply (process_record_locals_ok _ (-16)); [simpl; lia|reflexivity]|].
    split; reflexivity.
  - do 2 eexists. split; [simpl; lia|].
    split; [apply (process_record_locals_ok _ 16); [simpl; lia|reflexivity]|].
    split; [apply (process_record_locals_ok _ 16); [simpl; lia|reflexivity]|].
    repeat apply conj; reflexivity.
Qed.

(** C8 (amended): when the base principal is finite and not negative,
    raising the monthly principal reduction from a non-negative value to a
    larger finite one never increases the principal; when the interest value
    is finite and not negative, raising the total interest reduction in the
    same way never increases the total interest.  Each half stands on its own
    conditions; all other fields are held fixed. *)
Theorem reduction_never_increases (data : LoanInput) (l : locals) (r : float) :
  process_record_locals data = Py.Ok l ->
  is_finite r = true ->
  (is_finite (base_principal l) = true -> (0 <=? base_principal l) = true ->
   (0 <=? monthly_principal_reduction data) = true ->
   (monthly_principal_reduction data <=? r) = true ->
   exists l1 : locals,
     process_record_locals (with_monthly_principal_reduction r data) = Py.Ok l1 /\
     (principal l1 <=? principal l) = true) /\
  (is_finite (interest_value l) = true -> (0 <=? interest_value l) = true ->
   (0 <=? total_interest_reduction data) = true ->
   (total_interest_reduction data <=? r) = true ->
   exists l2 : locals,
     process_record_locals (with_total_interest_reduction r data) = Py.Ok l2 /\
     (total_interest l2 <=? total_interest l) = true).
Proof.
  intros Hl Fr.
  destruct (process_record_locals_defined data l Hl) as (Hn & n & Hc).
  rewrite (process_record_locals_ok data n Hn Hc) in Hl.
  injection Hl as <-.
  cbn [base_principal interest_value principal total_interest].
  split.
  - intros Fb Pb P1 H1. eexists.
    split; [apply (process_record_locals_ok (with_monthly_principal_reduction r data)
                     n Hn Hc)|].
    cbn [principal with_monthly_principal_reduction A purchase_value_reduction
         down_payment monthly_principal_reduction].
    apply reduction_mono; assumption.
  - intros Fi Pi P2 H2. eexists.
    split; [apply (process_record_locals_ok (with_total_interest_reduction r data)
                     n Hn Hc)|].
    cbn [total_interest with_total_interest_reduction A purchase_value_reduction
         down_payment annuity_interest total_interest_reduction].
    apply reduction_mono; assumption.
Qed.

Lemma reduction_never_increases_witness :
  (exists l l1 l2 : locals,
     process_record_locals sample_record = Py.Ok l /\
     process_record_locals (with_monthly_principal_reduction 50 sample_record)
     = Py.Ok l1 /\
     (principal l1 <=? principal l) = true /\
     process_record_locals (with_total_interest_reduction 50 sample_record)
     = Py.Ok l2 /\
     (total_interest l2 <=? total_interest l) = true) /\
  (exists l l1 : locals,
     process_record_locals large_record = Py.Ok l /\
     is_finite (base_principal l) = true /\
     is_finite (interest_value l) = false /\
     process_record_locals (with_monthly_principal_reduction 50 large_record)
     = Py.Ok l1 /\
     (principal l1 <=? principal l) = true).
Proof.
  split.
  - assert (E := process_record_locals_ok sample_record 16 ltac:(simpl; lia) eq_refl).
    destruct (reduction_never_increases sample_record _ 50 E eq_refl) as [H1 H2].
    destruct H1 as (l1 & H1 & H1'); try reflexivity.
    destruct H2 as (l2 & H2 & H2'); try reflexivity.
    eexists. exists l1, l2. split; [exact E|]. repeat apply conj; assumption.
  - assert (E := process_record_locals_ok large_record 40 ltac:(simpl; lia) eq_refl).
    destruct (reduction_never_increases large_record _ 50 E eq_refl) as [H1 _].
    destruct H1 as (l1 & H1 & H1'); try reflexivity.
    eexists. exists l1. split; [exact E|].
    split; [reflexivity|]. split; [reflexivity|]. split; assumption.
Defined.

(** ** The rate lookup, band by band *)

Lemma eqb_leb x y : (x =? y) = true -> (x <=? y) = true /\ (y <=? x) = true.
Proof.
  rewrite eqb_compare, !leb_compare. intros H. split; [right; exact H|].
  right. apply (SFcompare_antisym _ _ _ H).
Qed.

Lemma leb_antisym x y : (x <=? y) = true -> (y <=? x) = true -> (x =? y) = true.
Proof.
  rewrite eqb_compare, !leb_compare. intros [H|H] [H'|H']; try assumption;
    apply SFcompare_antisym in H; cbn [CompOpp] in H; congruence.
Qed.

Lemma leb_not_ltb x y : (x <=? y) = true -> (y <? x) = false.
Proof.
  intros H. destruct (y <? x) eqn:E; [|reflexivity].
  destruct (ltb_excludes _ _ E) as (E' & _). congruence.
Qed.

Lemma rate_band_70 p n :
  (70 <=? p) = true -> (p <=? 80.99) = true ->
  calculate_insurance_rate p n = Some 0.0032.
Proof.
  intros L U. unfold calculate_insurance_rate.
  rewrite (leb_not_ltb p 95.01) by (apply (leb_trans _ 80.99); [exact U|reflexivity]).
  rewrite L, U. reflexivity.
Qed.

Lemma rate_band_81 p n :
  (p =? 81) = true ->
  calculate_insurance_rate p n = Some (if (n <=? 25)%Z then 0.0021 else 0.0032).
Proof.
  intros E. destruct (eqb_leb _ _ E) as [U L]. unfold calculate_insurance_rate.
  rewrite (leb_not_ltb p 95.01) by (apply (leb_trans _ 81); [exact U|reflexivity]).
  assert (H : (80.99 <? p) = true) by (apply (ltb_leb_trans _ 81); [reflexivity|exact L]).
  destruct (ltb_excludes _ _ H) as (-> & _). rewrite andb_false_r, E. reflexivity.
Qed.

Lemma rate_band_8101 p n :
  (81.01 <=? p) = true -> (p <=? 90) = true ->
  calculate_insurance_rate p n = Some (if (n <=? 25)%Z then 0.0041 else 0.0052).
Proof.
  intros L U. unfold calculate_insurance_rate.
  rewrite (leb_not_ltb p 95.01) by (apply (leb_trans _ 90); [exact U|reflexivity]).
  assert (H : (80.99 <? p) = true) by (apply (ltb_leb_trans _ 81.01); [reflexivity|exact L]).
  destruct (ltb_excludes _ _ H) as (-> & _). rewrite andb_false_r.
  assert (H' : (81 <? p) = true) by (apply (ltb_leb_trans _ 81.01); [reflexivity|exact L]).
  destruct (ltb_excludes _ _ H') as (_ & -> & _).
  rewrite L, U. reflexivity.
Qed.

Lemma rate_band_9001 p n :
  (90.01 <=? p) = true -> (p <=? 95) = true ->
  calculate_insurance_rate p n = Some (if (n <=? 25)%Z then 0.0067 else 0.0078).
Proof.
  intros L U. unfold calculate_insurance_rate.
  rewrite (leb_not_ltb p 95.01) by (apply (leb_trans _ 95); [exact U|reflexivity]).
  assert (H : (80.99 <? p) = true) by (apply (ltb_leb_trans _ 90.01); [reflexivity|exact L]).
  destruct (ltb_excludes _ _ H) as (-> & _). rewrite andb_false_r.
  assert (H' : (81 <? p) = true) by (apply (ltb_leb_trans _ 90.01); [reflexivity|exact L]).
  destruct (ltb_excludes _ _ H') as (_ & -> & _).
  assert (H'' : (90 <? p) = true) by (apply (ltb_leb_trans _ 90.01); [reflexivity|exact L]).
  destruct (ltb_excludes _ _ H'') as (-> & _). rewrite andb_false_r.
  rewrite L, U. reflexivity.
Qed.

(** Which test answered. *)
Lemma rate_some_cases p n r :
  calculate_insurance_rate p n = Some r ->
  ((70 <=? p) = true /\ (p <=? 80.99) = true /\ r = 0.0032) \/
  ((p =? 81) = true /\ r = (if (n <=? 25)%Z then 0.0021 else 0.0032)) \/
  ((81.01 <=? p) = true /\ (p <=? 90) = true
   /\ r = (if (n <=? 25)%Z then 0.0041 else 0.0052)) \/
  ((90.01 <=? p) = true /\ (p <=? 95) = true
   /\ r = (if (n <=? 25)%Z then 0.0067 else 0.0078)).
Proof.
  unfold calculate_insurance_rate.
  destruct (95.01 <? p); [discriminate|].
  destruct (70 <=? p) eqn:L1, (p <=? 80.99) eqn:U1; cbn [andb];
    try (intros [= <-]; left; repeat split; reflexivity);
    (destruct (p =? 81) eqn:E;
     [intros [= <-]; right; left; split; reflexivity|]);
    (destruct (81.01 <=? p) eqn:L3, (p <=? 90) eqn:U3; cbn [andb];
     try (intros [= <-]; right; right; left; repeat split; reflexivity));
    (destruct (90.01 <=? p) eqn:L4, (p <=? 95) eqn:U4; cbn [andb];
     try (intros [= <-]; right; right; right; repeat split; reflexivity));
    discriminate.
Qed.

(** X1: a rate is returned only for a loan percentage from 70 to 95; NaN and
    the infinities get none. *)
Theorem rate_applicable_range (p : float) (n : Z) (r : float) :
  calculate_insurance_rate p n = Some r ->
  (70 <=? p) = true /\ (p <=? 95) = true /\ is_finite p = true.
Proof.
  intros H.
  assert (B : (70 <=? p) = true /\ (p <=? 95) = true).
  { destruct (rate_some_cases p n r H) as [(L & U & _)|[(E & _)|[(L & U & _)|(L & U & _)]]].
    - split; [exact L|apply (leb_trans _ 80.99); [exact U|reflexivity]].
    - destruct (eqb_leb _ _ E) as [U L].
      split; [apply (leb_trans _ 81); [reflexivity|exact L]
             |apply (leb_trans _ 81); [exact U|reflexivity]].
    - split; [apply (leb_trans _ 81.01); [reflexivity|exact L]
             |apply (leb_trans _ 90); [exact U|reflexivity]].
    - split; [apply (leb_trans _ 90.01); [reflexivity|exact L]|exact U]. }
  destruct B as [L U]. split; [exact L|split; [exact U|]].
  apply is_finite_spec. apply leb_compare in L. apply leb_compare in U.
  change (Prim2SF 70) with (S754_finite false 4925812092436480 (-46)) in L.
  change (Prim2SF 95) with (S754_finite false 6685030696878080 (-46)) in U.
  destruct (Prim2SF p) as [s|[]| |s m e].
  - left. eauto.
  - cbn [SFcompare] in L. destruct L; discriminate.
  - cbn [SFcompare] in U. destruct U; discriminate.
  - cbn [SFcompare] in L. destruct L; discriminate.
  - right. eauto.
Qed.

Lemma rate_applicable_range_witness :
  (70 <=? 85) = true /\ (85 <=? 95) = true /\ is_finite 85 = true.
Proof. apply (rate_applicable_range 85 30 0.0052). reflexivity. Defined.

(** X2: whether a rate applies depends on the loan percentage alone, never on
    the loan period. *)
Theorem rate_applicability_ignores_period (p : float) (n m : Z) :
  calculate_insurance_rate p n = None <-> calculate_insurance_rate p m = None.
Proof.
  assert (K : forall a b, calculate_insurance_rate p a = None ->
                          calculate_insurance_rate p b = None).
  { intros a b Ha. destruct (calculate_insurance_rate p b) as [r|] eqn:Hb; [|reflexivity].
    destruct (rate_some_cases p b r Hb) as [(L & U & _)|[(E & _)|[(L & U & _)|(L & U & _)]]].
    - rewrite (rate_band_70 p a L U) in Ha. discriminate.
    - rewrite (rate_band_81 p a E) in Ha. discriminate.
    - rewrite (rate_band_8101 p a L U) in Ha. discriminate.
    - rewrite (rate_band_9001 p a L U) in Ha. discriminate. }
  split; apply K.
Qed.

(** X3: a longer loan period never lowers the rate. *)
Theorem rate_monotone_in_period (p : float) (n m : Z) (a : float) :
  (n <= m)%Z -> calculate_insurance_rate p n = Some a ->
  exists b, calculate_insurance_rate p m = Some b /\ (a <=? b) = true.
Proof.
  intros Hnm Ha.
  assert (C : (n <=? 25)%Z = true \/ ((n <=? 25)%Z = false /\ (m <=? 25)%Z = false)).
  { destruct (Z.leb_spec n 25); [left; reflexivity|right].
    split; [reflexivity|apply Z.leb_gt; lia]. }
  destruct (rate_some_cases p n a Ha) as [(L & U & ->)|[(E & ->)|[(L & U & ->)|(L & U & ->)]]];
    eexists; (split;
      [first [apply (rate_band_70 p m L U) | apply (rate_band_81 p m E)
             | apply (rate_band_8101 p m L U) | apply (rate_band_9001 p m L U)]|]);
    try reflexivity;
    destruct C as [C|[C C']]; rewrite C; try rewrite C';
    try reflexivity; destruct (m <=? 25)%Z; reflexivity.
Qed.

Lemma rate_monotone_in_period_witness :
  exists b, calculate_insurance_rate 85 30 = Some b /\ (0.0041 <=? b) = true.
Proof. apply (rate_monotone_in_period 85 20 30 0.0041); [lia|reflexivity]. Defined.

(** X4: for a loan period above 25 years the rate never falls as the loan
    percentage rises. *)
Theorem rate_monotone_in_percentage (p1 p2 : float) (n : Z) (a b : float) :
  (25 < n)%Z -> (p1 <=? p2) = true ->
  calculate_insurance_rate p1 n = Some a ->
  calculate_insurance_rate p2 n = Some b ->
  (a <=? b) = true.
Proof.
  intros Hn H Ha Hb.
  assert (C : (n <=? 25)%Z = false) by (apply Z.leb_gt; exact Hn).
  assert (K : forall lo hi, (lo <=? p1) = true -> (p2 <=? hi) = true ->
                            (lo <=? hi) = true)
    by (intros lo hi L U; exact (leb_trans _ _ _ (leb_trans _ _ _ L H) U)).
  destruct (rate_some_cases p1 n a Ha)
    as [(L1 & U1 & ->)|[(E1 & ->)|[(L1 & U1 & ->)|(L1 & U1 & ->)]]];
    try (destruct (eqb_leb _ _ E1) as [U1 L1]);
    destruct (rate_some_cases p2 n b Hb)
      as [(L2 & U2 & ->)|[(E2 & ->)|[(L2 & U2 & ->)|(L2 & U2 & ->)]]];
    try (destruct (eqb_leb _ _ E2) as [U2 L2]);
    rewrite ?C; try reflexivity;
    exfalso; assert (K' := K _ _ L1 U2); vm_compute in K'; discriminate K'.
Qed.

Lemma rate_monotone_in_percentage_witness : (0.0032 <=? 0.0052) = true.
Proof.
  apply (rate_monotone_in_percentage 80 85 30 0.0032 0.0052);
    [lia|reflexivity|reflexivity|reflexivity].
Defined.

(** X5: up to 25 years the rate at exactly 81 is 0.0021, below the 0.0032 or
    more of every other loan percentage that has a rate, the lower ones
    included. *)
Theorem rate_lowest_at_81 (p : float) (n : Z) (r : float) :
  (n <= 25)%Z -> calculate_insurance_rate p n = Some r -> (p =? 81) = false ->
  (0.0032 <=? r) = true /\
  calculate_insurance_rate 81 n = Some 0.0021 /\
  calculate_insurance_rate 80 n = Some 0.0032.
Proof.
  intros Hn Hr Hp.
  assert (C : (n <=? 25)%Z = true) by (apply Z.leb_le; exact Hn).
  split; [|split].
  - destruct (rate_some_cases p n r Hr)
      as [(_ & _ & ->)|[(E & _)|[(_ & _ & ->)|(_ & _ & ->)]]];
      rewrite ?C; try reflexivity. congruence.
  - rewrite (rate_band_81 81 n) by reflexivity. rewrite C. reflexivity.
  - apply rate_band_70; reflexivity.
Qed.

Lemma rate_lowest_at_81_witness :
  (0.0032 <=? 0.0041) = true /\
  calculate_insurance_rate 81 20 = Some 0.0021 /\
  calculate_insurance_rate 80 20 = Some 0.0032.
Proof.
  apply (rate_lowest_at_81 85 20 0.0041); [lia|reflexivity|reflexivity].
Defined.

(** ** Inputs within the [Field] bounds *)

Lemma float_of_int_ok (n : Z) :
  (Z.abs n < 2 ^ 1023)%Z -> exists x, Py.float_of_int n = Py.Ok x.
Proof.
  intros Hn. unfold Py.float_of_int.
  assert (K : forall s p, (Zpos p < 2 ^ 1023)%Z ->
            forall s', binary_round prec emax s p 0 <> S754_infinity s').
  { intros s p Hp s'.
    rewrite (binary_round_low s p 0 (-1074)) by lia.
    change (0 - -1074)%Z with 1074%Z.
    assert (P : (0 < 2 ^ 1074)%Z) by reflexivity.
    assert (Hd : (Zdigits2 (Zpos p * 2 ^ 1074) = Zpos (digits2_pos p) + 1074)%Z)
      by (rewrite Zdigits2_mul_pow2 by lia; reflexivity).
    assert (Hd' : (Zpos (digits2_pos p) <= 1023)%Z).
    { destruct (digits2_pos_bounds p) as [L _].
      assert (H : (2 ^ (Zpos (digits2_pos p) - 1) < 2 ^ 1023)%Z) by lia.
      apply Z.pow_lt_mono_r_iff in H; lia. }
    destruct (binary_round_aux_form s (Zpos p * 2 ^ 1074) (-1074) loc_Exact)
      as (-> & A1 & _ & A3);
      [lia|unfold fexp, SpecFloat.emin, prec, emax; lia|].
    rewrite Hd in A1, A3. rewrite Hd.
    set (m1 := round_nearest_even _ _) in *.
    assert (He : (fexp prec emax (Zpos (digits2_pos p) + 1074 + -1074) <= 970)%Z)
      by (unfold fexp, SpecFloat.emin, prec, emax; lia).
    replace (-1074 + (fexp prec emax (Zpos (digits2_pos p) + 1074 + -1074) - -1074))%Z
      with (fexp prec emax (Zpos (digits2_pos p) + 1074 + -1074)) by lia.
    set (e := fexp prec emax (Zpos (digits2_pos p) + 1074 + -1074)) in *.
    assert (L1 : (e <=? emax - prec)%Z = true)
      by (apply Z.leb_le; unfold emax, prec; lia).
    assert (L2 : (e + 1 <=? emax - prec)%Z = true)
      by (apply Z.leb_le; unfold emax, prec; lia).
    destruct (m1 <? 2 ^ 53)%Z; unfold mk_float.
    - destruct m1 as [|q|q]; try discriminate. rewrite L1. discriminate.
    - change (2 ^ 52)%Z with (Zpos (2 ^ 52)). cbv iota. rewrite L2. discriminate. }
  destruct n as [|p|p]; cbn [binary_normalize].
  - eexists. reflexivity.
  - assert (H := K false p ltac:(lia)).
    destruct (binary_round prec emax false p 0) as [s'|s'| |s' m' e'];
      try (eexists; reflexivity). exfalso. apply (H s'). reflexivity.
  - assert (H := K true p ltac:(lia)).
    destruct (binary_round prec emax true p 0) as [s'|s'| |s' m' e'];
      try (eexists; reflexivity). exfalso. apply (H s'). reflexivity.
Qed.

Lemma bounds_fields (data : LoanInput) :
  LoanInput_bounds data = true ->
  (0 <? A data) = true /\
  ((0 <=? down_payment data) = true /\ (down_payment data <=? 100) = true) /\
  (0 < loan_period data <= 40)%Z /\
  ((0 <=? annuity_interest data) = true /\ (annuity_interest data <=? 100) = true) /\
  ((0 <=? purchase_value_reduction data) = true
   /\ (purchase_value_reduction data <=? 100) = true) /\
  ((0 <=? monthly_principal_reduction data) = true
   /\ (monthly_principal_reduction data <=? 100) = true) /\
  ((0 <=? total_interest_reduction data) = true
   /\ (total_interest_reduction data <=? 100) = true).
Proof.
  unfold LoanInput_bounds. rewrite !andb_true_iff, Z.ltb_lt, Z.leb_le. tauto.
Qed.

Lemma bounds_period (data : LoanInput) :
  LoanInput_bounds data = true ->
  loan_period data <> 0%Z /\
  exists n m e, Py.float_of_int (loan_period data) = Py.Ok n
                /\ Prim2SF n = S754_finite false m e.
Proof.
  intros H. destruct (bounds_fields data H) as (_ & _ & Hp & _).
  assert (Hn : loan_period data <> 0%Z) by lia. split; [exact Hn|].
  destruct (float_of_int_ok (loan_period data)) as [n Hc].
  { apply (Z.lt_trans _ 41); [lia|reflexivity]. }
  destruct (float_of_int_finite _ _ Hn Hc) as (m & e & Hf).
  exists n, m, e. split; [exact Hc|].
  replace (loan_period data <? 0)%Z with false in Hf; [exact Hf|].
  symmetry. apply Z.ltb_ge. lia.
Qed.

(** X6: a record within the [Field] bounds always gives a row:
    [process_record] raises nothing on it. *)
Theorem bounded_record_gives_row (str_float : float -> string) (data : LoanInput) :
  LoanInput_bounds data = true ->
  exists l : locals,
    process_record_locals data = Py.Ok l /\
    process_record str_float data = Py.Ok (output_row str_float data l).
Proof.
  intros H. destruct (bounds_period data H) as (Hn & n & _ & _ & Hc & _).
  eexists. unfold process_record.
  rewrite (process_record_locals_ok data n Hn Hc). split; reflexivity.
Qed.

Lemma bounded_record_gives_row_witness :
  exists l : locals,
    process_record_locals sample_record = Py.Ok l /\
    process_record (fun _ => ""%string) sample_record
    = Py.Ok (output_row (fun _ => ""%string) sample_record l).
Proof. apply (bounded_record_gives_row (fun _ => ""%string) sample_record). reflexivity. Defined.

(** ** Amounts that are never negative *)

Lemma SFmul_nonneg_or_nan x y :
  valid_binary x = true -> valid_binary y = true ->
  nonneg_or_nan x -> nonneg_or_nan y -> nonneg_or_nan (SFmul prec emax x y).
Proof.
  unfold nonneg_or_nan. intros Vx Vy [->|Nx] [->|Ny];
    try (left; destruct x; reflexivity); try (left; reflexivity).
  destruct x as [sx|[]| |[] mx ex]; try contradiction;
    destruct y as [sy|[]| |[] my ey]; try contradiction;
    try (left; reflexivity); try (right; exact I).
  right. apply SFmul_finite_nonneg; assumption.
Qed.

Lemma SFdiv_nonneg_or_nan x mc ec :
  nonneg_or_nan x -> nonneg_or_nan (SFdiv prec emax x (S754_finite false mc ec)).
Proof.
  unfold nonneg_or_nan. intros [->|Nx]; [left; reflexivity|].
  destruct x as [sx|[]| |[] mx ex]; try contradiction; try (right; exact I).
  right. apply SFdiv_finite_nonneg.
Qed.

Lemma mul_nonneg_or_nan x y :
  nonneg_or_nan (Prim2SF x) -> nonneg_or_nan (Prim2SF y) ->
  nonneg_or_nan (Prim2SF (x * y)).
Proof.
  intros Hx Hy. rewrite mul_spec.
  apply SFmul_nonneg_or_nan; try apply Prim2SF_valid; assumption.
Qed.

Lemma div_nonneg_or_nan x c mc ec :
  Prim2SF c = S754_finite false mc ec ->
  nonneg_or_nan (Prim2SF x) -> nonneg_or_nan (Prim2SF (x / c)).
Proof.
  intros Hc Hx. rewrite div_spec, Hc. apply SFdiv_nonneg_or_nan. exact Hx.
Qed.

Lemma nonneg_or_nan_ltb x : nonneg_or_nan (Prim2SF x) -> (x <? 0) = false.
Proof.
  rewrite FloatAxioms.ltb_spec. change (Prim2SF 0) with (S754_zero false).
  intros [->|H]; [reflexivity|].
  destruct (Prim2SF x) as [s|[]| |[] m e]; try contradiction; reflexivity.
Qed.

Lemma nonneg_leb x : nonneg (Prim2SF x) -> (0 <=? x) = true.
Proof.
  rewrite FloatAxioms.leb_spec. change (Prim2SF 0) with (S754_zero false).
  destruct (Prim2SF x) as [s|[]| |[] m e]; try contradiction; reflexivity.
Qed.

Lemma finite_nonneg x :
  nonneg_or_nan (Prim2SF x) -> is_finite x = true -> (0 <=? x) = true.
Proof.
  intros [H|H] F; [|apply nonneg_leb; exact H].
  apply is_finite_spec in F. rewrite H in F.
  destruct F as [[s F]|(s & m & e & F)]; discriminate.
Qed.

Lemma bounded_amounts (data : LoanInput) (n : float) m e :
  LoanInput_bounds data = true -> Prim2SF n = S754_finite false m e ->
  let pv := A data * purchase_value_reduction data / 100 in
  let la := pv * down_payment data / 100 in
  nonneg_or_nan (Prim2SF pv) /\ nonneg_or_nan (Prim2SF la) /\
  nonneg_or_nan (Prim2SF (la / n / 12)) /\ nonneg_or_nan (Prim2SF (la * n)) /\
  nonneg_or_nan (Prim2SF (la * n * annuity_interest data / 100)).
Proof.
  intros H Hn pv la.
  destruct (bounds_fields data H) as (HA & (Hd & _) & _ & (Ha & _) & (Hp & _) & _).
  assert (D100 : Prim2SF 100 = S754_finite false 7036874417766400 (-46)) by reflexivity.
  assert (D12 : Prim2SF 12 = S754_finite false 6755399441055744 (-49)) by reflexivity.
  assert (NA : nonneg_or_nan (Prim2SF (A data)))
    by (right; apply leb_zero_nonneg, ltb_leb, HA).
  assert (Npv : nonneg_or_nan (Prim2SF pv)).
  { apply (div_nonneg_or_nan _ _ _ _ D100), mul_nonneg_or_nan; [exact NA|].
    right. apply leb_zero_nonneg, Hp. }
  assert (Nla : nonneg_or_nan (Prim2SF la)).
  { apply (div_nonneg_or_nan _ _ _ _ D100), mul_nonneg_or_nan; [exact Npv|].
    right. apply leb_zero_nonneg, Hd. }
  assert (Nn : nonneg_or_nan (Prim2SF n)) by (right; rewrite Hn; exact I).
  assert (Nbi : nonneg_or_nan (Prim2SF (la * n)))
    by (apply mul_nonneg_or_nan; assumption).
  repeat apply conj; try assumption.
  - apply (div_nonneg_or_nan _ _ _ _ D12), (div_nonneg_or_nan _ _ _ _ Hn), Nla.
  - apply (div_nonneg_or_nan _ _ _ _ D100), mul_nonneg_or_nan; [exact Nbi|].
    right. apply leb_zero_nonneg, Ha.
Qed.

(** X7: for a record within the [Field] bounds the purchase value, the loan
    amount, the base principal, the base interest and the interest value are
    never negative. *)
Theorem bounded_amounts_not_negative (data : LoanInput) (l : locals) :
  LoanInput_bounds data = true ->
  process_record_locals data = Py.Ok l ->
  (purchase_value l <? 0) = false /\
  (loan_amount l <? 0) = false /\
  (base_principal l <? 0) = false /\
  (base_interest l <? 0) = false /\
  (interest_value l <? 0) = false.
Proof.
  intros H Hl. destruct (bounds_period data H) as (Hn & n & m & e & Hc & Hf).
  rewrite (process_record_locals_ok data n Hn Hc) in Hl. injection Hl as <-.
  cbn [purchase_value loan_amount base_principal base_interest interest_value].
  destruct (bounded_amounts data n m e H Hf) as (N1 & N2 & N3 & N4 & N5).
  repeat apply conj; apply nonneg_or_nan_ltb; assumption.
Qed.

Lemma bounded_amounts_not_negative_witness :
  exists l : locals,
    process_record_locals sample_record = Py.Ok l /\
    (purchase_value l <? 0) = false /\
    (loan_amount l <? 0) = false /\
    (base_principal l <? 0) = false /\
    (base_interest l <? 0) = false /\
    (interest_value l <? 0) = false.
Proof.
  assert (E := process_record_locals_ok sample_record 16 ltac:(simpl; lia) eq_refl).
  eexists. split; [exact E|].
  apply (bounded_amounts_not_negative sample_record _ eq_refl E).
Defined.

(** ** The loan percentage and the rate, from the down payment *)

Lemma sub_100_mono a b :
  (0 <=? a) = true -> (a <=? b) = true -> (100 - b <=? 100 - a) = true.
Proof.
  intros Pa Hab. apply leb_compare. rewrite !sub_spec.
  apply (SFsub_mono (Prim2SF 100) (Prim2SF a) (Prim2SF b));
    try apply Prim2SF_valid.
  - exact I.
  - discriminate.
  - apply leb_zero_nonneg, Pa.
  - apply leb_zero_nonneg, (leb_trans _ _ _ Pa Hab).
  - apply leb_compare, Hab.
Qed.

Lemma sub_100_between lo hi d :
  (0 <=? lo) = true -> (lo <=? d) = true -> (d <=? hi) = true ->
  (100 - hi <=? 100 - d) = true /\ (100 - d <=? 100 - lo) = true.
Proof.
  intros P L U. split.
  - apply sub_100_mono; [exact (leb_trans _ _ _ P L)|exact U].
  - apply sub_100_mono; assumption.
Qed.

(** X8: with a down payment from 0 to 100 the loan percentage lies from 0 to
    100 as well. *)
Theorem loan_percentage_bounds (data : LoanInput) (l : locals) :
  process_record_locals data = Py.Ok l ->
  (0 <=? down_payment data) = true -> (down_payment data <=? 100) = true ->
  (0 <=? loan_percentage l) = true /\ (loan_percentage l <=? 100) = true.
Proof.
  intros Hl L U. destruct (process_record_locals_defined data l Hl) as (Hn & n & Hc).
  rewrite (process_record_locals_ok data n Hn Hc) in Hl. injection Hl as <-.
  cbn [loan_percentage].
  destruct (sub_100_between 0 100 (down_payment data) eq_refl L U) as [H1 H2].
  split.
  - apply (leb_trans _ (100 - 100)); [reflexivity|exact H1].
  - apply (leb_trans _ (100 - 0)); [exact H2|reflexivity].
Qed.

Lemma loan_percentage_bounds_witness :
  exists l : locals,
    process_record_locals sample_record = Py.Ok l /\
    (0 <=? loan_percentage l) = true /\ (loan_percentage l <=? 100) = true.
Proof.
  assert (E := process_record_locals_ok sample_record 16 ltac:(simpl; lia) eq_refl).
  eexists. split; [exact E|].
  apply (loan_percentage_bounds sample_record _ E); reflexivity.
Defined.

(** X9: the rate table read by down payment.  From 19.01 to 30 percent down
    the rate is 0.0032; at exactly 19 it is the rate of a loan percentage of
    81; from 10 to 18.99 and from 5 to 9.99 it is the rate of the third and
    of the fourth band. *)
Theorem rate_by_down_payment (data : LoanInput) (l : locals) :
  process_record_locals data = Py.Ok l ->
  let d := down_payment data in
  let short := (loan_period data <=? 25)%Z in
  ((19.01 <=? d) = true -> (d <=? 30) = true -> rate l = Some 0.0032) /\
  ((d =? 19) = true -> rate l = Some (if short then 0.0021 else 0.0032)) /\
  ((10 <=? d) = true -> (d <=? 18.99) = true ->
   rate l = Some (if short then 0.0041 else 0.0052)) /\
  ((5 <=? d) = true -> (d <=? 9.99) = true ->
   rate l = Some (if short then 0.0067 else 0.0078)).
Proof.
  intros Hl d short.
  destruct (process_record_locals_defined data l Hl) as (Hn & n & Hc).
  rewrite (process_record_locals_ok data n Hn Hc) in Hl. injection Hl as <-.
  cbn [rate]. fold d. repeat apply conj.
  - intros L U.
    destruct (sub_100_between 19.01 30 d eq_refl L U) as [H1 H2].
    apply rate_band_70.
    + apply (leb_trans _ (100 - 30)); [reflexivity|exact H1].
    + apply (leb_trans _ (100 - 19.01)); [exact H2|reflexivity].
  - intros E. destruct (eqb_leb _ _ E) as [U L].
    destruct (sub_100_between 19 19 d eq_refl L U) as [H1 H2].
    apply rate_band_81. apply leb_antisym.
    + apply (leb_trans _ (100 - 19)); [exact H2|reflexivity].
    + apply (leb_trans _ (100 - 19)); [reflexivity|exact H1].
  - intros L U.
    destruct (sub_100_between 10 18.99 d eq_refl L U) as [H1 H2].
    apply rate_band_8101.
    + apply (leb_trans _ (100 - 18.99)); [reflexivity|exact H1].
    + apply (leb_trans _ (100 - 10)); [exact H2|reflexivity].
  - intros L U.
    destruct (sub_100_between 5 9.99 d eq_refl L U) as [H1 H2].
    apply rate_band_9001.
    + apply (leb_trans _ (100 - 9.99)); [reflexivity|exact H1].
    + apply (leb_trans _ (100 - 5)); [exact H2|reflexivity].
Qed.

Lemma rate_by_down_payment_witness :
  exists l : locals,
    process_record_locals sample_record = Py.Ok l /\ rate l = Some 0.0032.
Proof.
  assert (E := process_record_locals_ok sample_record 16 ltac:(simpl; lia) eq_refl).
  eexists. split; [exact E|].
  apply (proj1 (rate_by_down_payment sample_record _ E)); reflexivity.
Defined.

(** X10: a down payment from 0 to 4.99 percent, or of 30.01 percent or more,
    leaves the insurance not applicable: the row shows ["NA"]. *)
Theorem insurance_not_applicable_by_down_payment
  (str_float : float -> string) (data : LoanInput) (l : locals) :
  process_record_locals data = Py.Ok l ->
  ((0 <=? down_payment data) = true /\ (down_payment data <=? 4.99) = true)
  \/ (30.01 <=? down_payment data) = true ->
  rate l = None /\ insurance_monthly l = NA /\
  row_get insurance_key (output_row str_float data l) = Some "NA"%string.
Proof.
  intros Hl Hd.
  destruct (process_record_locals_defined data l Hl) as (Hn & n & Hc).
  rewrite (process_record_locals_ok data n Hn Hc) in Hl. injection Hl as <-.
  cbn [rate insurance_monthly output_row row_get].
  assert (R : calculate_insurance_rate (100 - down_payment data) (loan_period data)
              = None).
  { destruct Hd as [[L U]|L].
    - apply rate_above_95.
      apply (ltb_leb_trans _ (100 - 4.99)); [reflexivity|].
      apply sub_100_mono; assumption.
    - apply rate_below_70.
      apply (leb_ltb_trans _ (100 - 30.01)); [|reflexivity].
      apply sub_100_mono; [reflexivity|exact L]. }
  rewrite R. repeat split.
Qed.

Lemma insurance_not_applicable_by_down_payment_witness :
  exists l : locals,
    process_record_locals (sample_with_down_payment 40) = Py.Ok l /\
    rate l = None /\ insurance_monthly l = NA /\
    row_get insurance_key
      (output_row (fun _ => ""%string) (sample_with_down_payment 40) l)
    = Some "NA"%string.
Proof.
  assert (E := process_record_locals_ok (sample_with_down_payment 40) 16
                 ltac:(simpl; lia) eq_refl).
  eexists. split; [exact E|].
  apply (insurance_not_applicable_by_down_payment (fun _ => ""%string)
           (sample_with_down_payment 40) _ E).
  right. reflexivity.
Defined.

(** ** A reduction takes nothing below zero percent *)

Lemma zeros_leb a b : (a =? 0) = true -> (b =? 0) = true -> (a <=? b) = true.
Proof.
  rewrite !is_zero_spec, FloatAxioms.leb_spec. intros [s ->] [s' ->]. reflexivity.
Qed.

Lemma between_finite lo hi r :
  is_finite lo = true -> is_finite hi = true ->
  (lo <=? r) = true -> (r <=? hi) = true -> is_finite r = true.
Proof.
  rewrite !is_finite_spec, !leb_compare. intros Flo Fhi L U.
  destruct (Prim2SF r) as [s|[]| |s m e].
  - left. eauto.
  - exfalso. destruct Flo as [[s E]|(s & m & e & E)]; rewrite E in L;
      cbn [SFcompare] in L; destruct L; discriminate.
  - exfalso. destruct Fhi as [[s E]|(s & m & e & E)]; rewrite E in U;
      cbn [SFcompare] in U; destruct U; discriminate.
  - exfalso. destruct Flo as [[s E]|(s & m & e & E)]; rewrite E in L;
      cbn [SFcompare] in L; destruct L; discriminate.
  - right. eauto.
Qed.

Lemma reduction_not_above (x r : float) :
  is_finite x = true -> (0 <=? x) = true ->
  (0 <=? r) = true -> is_finite r = true ->
  (x - x * r / 100 <=? x) = true.
Proof.
  intros Fx Px Pr Fr.
  apply (leb_trans _ (x - x * 0 / 100));
    [apply reduction_mono; try assumption; reflexivity|].
  assert (Z0 : (x * 0 / 100 =? 0) = true)
    by (apply div_100_zero, mul_zero_r; [exact Fx|reflexivity]).
  destruct (proj1 (is_finite_spec x) Fx) as [[s Hx]|(s & m & e & Hx)].
  - apply zeros_leb; [|apply is_zero_spec; eauto].
    apply sub_zero; [apply is_zero_spec; eauto|exact Z0].
  - rewrite (sub_zero_r x _ s m e Hx Z0). apply leb_compare. right.
    rewrite Hx. apply SFcompare_refl_finite.
Qed.

(** X11: for a record within the [Field] bounds a finite base principal is
    never exceeded by the principal, and a finite interest value never by the
    total interest; each half needs its own amount to be finite only. *)
Theorem reduced_not_above_base (data : LoanInput) (l : locals) :
  LoanInput_bounds data = true ->
  process_record_locals data = Py.Ok l ->
  (is_finite (base_principal l) = true ->
   (principal l <=? base_principal l) = true) /\
  (is_finite (interest_value l) = true ->
   (total_interest l <=? interest_value l) = true).
Proof.
  intros H Hl. destruct (bounds_period data H) as (Hn & n & m & e & Hc & Hf).
  destruct (bounds_fields data H) as (_ & _ & _ & _ & _ & (Lm & Um) & (Lt & Ut)).
  rewrite (process_record_locals_ok data n Hn Hc) in Hl. injection Hl as <-.
  cbn [base_principal interest_value principal total_interest].
  destruct (bounded_amounts data n m e H Hf) as (_ & _ & N3 & _ & N5).
  cbv zeta in N3, N5. split.
  - intros Fb.
    apply reduction_not_above; [exact Fb|apply finite_nonneg; assumption|exact Lm|].
    apply (between_finite 0 100); [reflexivity|reflexivity|exact Lm|exact Um].
  - intros Fi.
    apply reduction_not_above; [exact Fi|apply finite_nonneg; assumption|exact Lt|].
    apply (between_finite 0 100); [reflexivity|reflexivity|exact Lt|exact Ut].
Qed.

Lemma reduced_not_above_base_witness :
  (exists l : locals,
     process_record_locals sample_record = Py.Ok l /\
     (principal l <=? base_principal l) = true /\
     (total_interest l <=? interest_value l) = true) /\
  (exists l : locals,
     process_record_locals large_record = Py.Ok l /\
     is_finite (base_principal l) = true /\
     is_finite (interest_value l) = false /\
     (principal l <=? base_principal l) = true).
Proof.
  split.
  - assert (E := process_record_locals_ok sample_record 16 ltac:(simpl; lia) eq_refl).
    destruct (reduced_not_above_base sample_record _ eq_refl E) as [H1 H2].
    eexists. split; [exact E|]. split; [apply H1|apply H2]; reflexivity.
  - assert (E := process_record_locals_ok large_record 40 ltac:(simpl; lia) eq_refl).
    destruct (reduced_not_above_base large_record _ eq_refl E) as [H1 _].
    eexists. split; [exact E|].
    split; [reflexivity|]. split; [reflexivity|]. apply H1. reflexivity.
Defined.

(** ** The rows of a request *)

Lemma rows_ok_iff (str_float : float -> string) (records : list LoanInput) :
  forall rs,
  rows str_float records = Py.Ok rs <->
  Forall2 (fun r row => process_record str_float r = Py.Ok row) records rs.
Proof.
  induction records as [|r rest IH]; intros rs; cbn [rows].
  - split.
    + intros [= <-]. constructor.
    + intros H. inversion H. reflexivity.
  - destruct (process_record str_float r) as [row|e] eqn:Hr; cbn [Py.bind].
    + destruct (rows str_float rest) as [others|e] eqn:Ho; cbn [Py.bind].
      * split.
        -- intros [= <-]. constructor; [exact Hr|]. apply IH. reflexivity.
        -- intros H. inversion H as [|? row' ? rs' H1 H2]; subst.
           apply IH in H2. congruence.
      * split; [discriminate|].
        intros H. inversion H as [|? row' ? rs' H1 H2]; subst.
        apply IH in H2. discriminate.
    + split; [discriminate|].
      intros H. inversion H as [|? row' ? rs' H1 H2]; subst. congruence.
Qed.

Lemma rows_raise (str_float : float -> string) (records : list LoanInput) (e : Py.exn) :
  rows str_float records = Py.Raise e ->
  exists good bad rest,
    records = good ++ bad :: rest /\
    Forall (fun r => exists row, process_record str_float r = Py.Ok row) good /\
    process_record str_float bad = Py.Raise e.
Proof.
  induction records as [|r rest IH]; cbn [rows]; [discriminate|].
  destruct (process_record str_float r) as [row|e'] eqn:Hr; cbn [Py.bind].
  - destruct (rows str_float rest) as [others|e'] eqn:Ho; cbn [Py.bind];
      [discriminate|].
    intros [= ->]. destruct (IH eq_refl) as (good & bad & rest' & -> & Hg & Hb).
    exists (r :: good), bad, rest'. split; [reflexivity|].
    split; [constructor; [eauto|exact Hg]|exact Hb].
  - intros [= ->]. exists [], r, rest. split; [reflexivity|].
    split; [constructor|exact Hr].
Qed.

(** X12: the endpoint gets its rows exactly when the list is not empty and
    every record gives its row; the rows then stand in the order of the
    records, one for each. *)
Theorem generate_excel_rows_iff
  (str_float : float -> string) (records : list LoanInput) (rs : list LoanOutputRow) :
  generate_excel_rows str_float records = inl rs <->
  records <> [] /\
  Forall2 (fun r row => process_record str_float r = Py.Ok row) records rs.
Proof.
  unfold generate_excel_rows. destruct records as [|r rest].
  - split; [discriminate|]. intros [H _]. congruence.
  - destruct (rows str_float (r :: rest)) as [rs'|e] eqn:E.
    + split.
      * intros [= <-]. split; [discriminate|]. apply rows_ok_iff, E.
      * intros [_ H]. apply rows_ok_iff in H. congruence.
    + split; [discriminate|]. intros [_ H]. apply rows_ok_iff in H. congruence.
Qed.

(** X13: this part of the endpoint fails in two ways only: with the
    [HTTPException] of status 400 on an empty list, or with the exception of
    the first record whose calculation raises, after which no later record is
    looked at. *)
Theorem generate_excel_rows_failure
  (str_float : float -> string) (records : list LoanInput) (f : failure) :
  generate_excel_rows str_float records = inr f ->
  (records = [] /\ f = HTTPException 400 "No records provided") \/
  (exists good bad rest e,
     records = good ++ bad :: rest /\
     Forall (fun r => exists row, process_record str_float r = Py.Ok row) good /\
     process_record str_float bad = Py.Raise e /\
     f = Escaped e /\
     forall others, generate_excel_rows str_float (good ++ bad :: others) = inr f).
Proof.
  unfold generate_excel_rows. destruct records as [|r rest].
  - intros [= <-]. left. split; reflexivity.
  - destruct (rows str_float (r :: rest)) as [rs'|e] eqn:E; [discriminate|].
    intros [= <-]. right.
    destruct (rows_raise _ _ _ E) as (good & bad & rest' & Hrec & Hg & Hb).
    exists good, bad, rest', e. repeat (split; [assumption || reflexivity|]).
    intros others.
    assert (R : rows str_float (good ++ bad :: others) = Py.Raise e).
    { clear Hrec E. induction Hg as [|g good' [row Hrow] _ IH]; cbn [app rows].
      - rewrite Hb. reflexivity.
      - rewrite Hrow, IH. reflexivity. }
    destruct (good ++ bad :: others) as [|x xs] eqn:Ex.
    + destruct good; discriminate.
    + rewrite R. reflexivity.
Qed.

Lemma generate_excel_rows_failure_witness :
  ([with_loan_period 0 sample_record] = []
   /\ Escaped Py.ZeroDivisionError = HTTPException 400 "No records provided") \/
  (exists good bad rest e,
     [with_loan_period 0 sample_record] = good ++ bad :: rest /\
     Forall (fun r => exists row, process_record (fun _ => ""%string) r = Py.Ok row)
            good /\
     process_record (fun _ => ""%string) bad = Py.Raise e /\
     Escaped Py.ZeroDivisionError = Escaped e /\
     forall others,
       generate_excel_rows (fun _ => ""%string) (good ++ bad :: others)
       = inr (Escaped Py.ZeroDivisionError)).
Proof.
  apply (generate_excel_rows_failure (fun _ => ""%string)
           [with_loan_period 0 sample_record] (Escaped Py.ZeroDivisionError)).
  reflexivity.
Defined.

(** X14: a request that is not empty and whose records are all within the
    [Field] bounds gets one row per record, each the row of its record. *)
Theorem generate_excel_rows_bounded
  (str_float : float -> string) (records : list LoanInput) :
  records <> [] ->
  Forall (fun r => LoanInput_bounds r = true) records ->
  exists rs,
    generate_excel_rows str_float records = inl rs /\
    length rs = length records /\
    Forall2 (fun r row => process_record str_float r = Py.Ok row) records rs.
Proof.
  intros Hne Hb.
  assert (H : exists rs,
            Forall2 (fun r row => process_record str_float r = Py.Ok row) records rs).
  { clear Hne. induction Hb as [|r rest Hr _ [rs IH]].
    - exists []. constructor.
    - destruct (bounds_period r Hr) as (Hn & n & _ & _ & Hc & _).
      eexists (_ :: rs). constructor; [|exact IH].
      unfold process_record. rewrite (process_record_locals_ok r n Hn Hc).
      reflexivity. }
  destruct H as [rs H]. exists rs.
  split; [|split; [symmetry; apply (Forall2_length H)|exact H]].
  unfold generate_excel_rows. destruct records as [|r rest]; [congruence|].
  rewrite (proj2 (rows_ok_iff str_float (r :: rest) rs) H). reflexivity.
Qed.

Lemma generate_excel_rows_bounded_witness :
  exists rs,
    generate_excel_rows (fun _ => ""%string) [sample_record; sample_with_down_payment 40]
    = inl rs /\
    length rs = 2%nat /\
    Forall2 (fun r row => process_record (fun _ => ""%string) r = Py.Ok row)
            [sample_record; sample_with_down_payment 40] rs.
Proof.
  apply (generate_excel_rows_bounded (fun _ => ""%string)
           [sample_record; sample_with_down_payment 40]).
  - discriminate.
  - repeat constructor.
Defined.

(** ** Larger inputs, larger amounts *)

Lemma SFmul_comm x y : SFmul prec emax x y = SFmul prec emax y x.
Proof.
  destruct x as [sx|sx| |sx mx ex], y as [sy|sy| |sy my ey]; cbn [SFmul];
    rewrite ?(xorb_comm sx sy); try reflexivity.
  rewrite (Pos.mul_comm mx my), (Z.add_comm ex ey). reflexivity.
Qed.

Lemma mul_comm x y : x * y = y * x.
Proof.
  apply Prim2SF_inj. rewrite !mul_spec. apply SFmul_comm.
Qed.

Lemma mul_mono_r x a b :
  is_finite x = true -> (0 <=? x) = true ->
  (0 <=? a) = true -> (a <=? b) = true -> is_finite b = true ->
  (0 <=? x * a) = true /\ (x * a <=? x * b) = true.
Proof.
  intros Fx Px Pa Hab Fb.
  assert (Nx := leb_zero_nonneg x Px).
  assert (Ix := finite_not_infinity x Fx).
  assert (Na := leb_zero_nonneg a Pa).
  assert (Nb := leb_zero_nonneg b (leb_trans _ _ _ Pa Hab)).
  assert (Ib := finite_not_infinity b Fb).
  assert (L : SFle (Prim2SF a) (Prim2SF b)) by (apply leb_compare; exact Hab).
  assert (Ia := SFle_not_infinity _ _ L Ib Nb).
  destruct (SFmul_mono (Prim2SF x) (Prim2SF a) (Prim2SF b)
              (Prim2SF_valid x) (Prim2SF_valid a) (Prim2SF_valid b)
              Nx Na Nb Ix Ia Ib L) as (Lm & Nm & _).
  change (SFmul prec emax) with SF64mul in Lm, Nm.
  rewrite <- (mul_spec x a) in Lm, Nm. rewrite <- (mul_spec x b) in Lm.
  split; [apply nonneg_leb, Nm|apply leb_compare, Lm].
Qed.

(** A product of non-negative finite factors grows with both. *)
Lemma mul_mono a b c d :
  (0 <=? a) = true -> (a <=? b) = true -> is_finite b = true ->
  (0 <=? c) = true -> (c <=? d) = true -> is_finite d = true ->
  (0 <=? a * c) = true /\ (a * c <=? b * d) = true.
Proof.
  intros Pa Hab Fb Pc Hcd Fd.
  assert (Fa : is_finite a = true)
    by (apply (between_finite 0 b); [reflexivity|assumption..]).
  destruct (mul_mono_r a c d Fa Pa Pc Hcd Fd) as [P1 L1].
  destruct (mul_mono_r d a b Fd (leb_trans _ _ _ Pc Hcd) Pa Hab Fb) as [_ L2].
  rewrite (mul_comm d a), (mul_comm d b) in L2.
  split; [exact P1|exact (leb_trans _ _ _ L1 L2)].
Qed.

Lemma div_mono a b c mc ec :
  Prim2SF c = S754_finite false mc ec ->
  (0 <=? a) = true -> (a <=? b) = true ->
  (0 <=? a / c) = true /\ (a / c <=? b / c) = true.
Proof.
  intros Hc Pa Hab.
  assert (Na := leb_zero_nonneg a Pa).
  assert (Nb := leb_zero_nonneg b (leb_trans _ _ _ Pa Hab)).
  assert (L : SFle (Prim2SF a) (Prim2SF b)) by (apply leb_compare; exact Hab).
  destruct (SFdiv_mono (Prim2SF a) (Prim2SF b) mc ec
              (Prim2SF_valid a) (Prim2SF_valid b) Na Nb L) as (Ld & Nd & _).
  rewrite <- Hc in Ld, Nd.
  change (SFdiv prec emax) with SF64div in Ld, Nd.
  rewrite <- (div_spec a c) in Ld, Nd. rewrite <- (div_spec b c) in Ld.
  split; [apply nonneg_leb, Nd|apply leb_compare, Ld].
Qed.

(** X15: of two records within the [Field] bounds with the same loan period,
    the one with the larger asset value, purchase value percentage, down
    payment and annuity interest has no smaller purchase value, loan amount,
    base principal, base interest and interest value, as long as the larger
    amounts stay finite. *)
Theorem amounts_monotone (d1 d2 : LoanInput) (l1 l2 : locals) :
  LoanInput_bounds d1 = true -> LoanInput_bounds d2 = true ->
  loan_period d1 = loan_period d2 ->
  process_record_locals d1 = Py.Ok l1 -> process_record_locals d2 = Py.Ok l2 ->
  (A d1 <=? A d2) = true ->
  (purchase_value_reduction d1 <=? purchase_value_reduction d2) = true ->
  (down_payment d1 <=? down_payment d2) = true ->
  (annuity_interest d1 <=? annuity_interest d2) = true ->
  is_finite (A d2) = true ->
  is_finite (purchase_value l2) = true ->
  is_finite (loan_amount l2) = true ->
  is_finite (base_interest l2) = true ->
  (purchase_value l1 <=? purchase_value l2) = true /\
  (loan_amount l1 <=? loan_amount l2) = true /\
  (base_principal l1 <=? base_principal l2) = true /\
  (base_interest l1 <=? base_interest l2) = true /\
  (interest_value l1 <=? interest_value l2) = true.
Proof.
  intros B1 B2 Hp Hl1 Hl2 HA Hr Hd Ha FA.
  destruct (bounds_period d1 B1) as (Hn1 & n & m & e & Hc1 & Hf).
  assert (Hn2 : loan_period d2 <> 0%Z) by congruence.
  assert (Hc2 : Py.float_of_int (loan_period d2) = Py.Ok n) by congruence.
  destruct (bounds_fields d1 B1) as (PA & (Pd & _) & _ & (Pa & _) & (Pr & _) & _).
  destruct (bounds_fields d2 B2) as (_ & (_ & Ud) & _ & (_ & Ua) & (_ & Ur) & _).
  rewrite (process_record_locals_ok d1 n Hn1 Hc1) in Hl1. injection Hl1 as <-.
  rewrite (process_record_locals_ok d2 n Hn2 Hc2) in Hl2. injection Hl2 as <-.
  cbn [purchase_value loan_amount base_principal base_interest interest_value].
  intros Fpv Fla Fbi.
  assert (D100 : Prim2SF 100 = S754_finite false 7036874417766400 (-46)) by reflexivity.
  assert (D12 : Prim2SF 12 = S754_finite false 6755399441055744 (-49)) by reflexivity.
  assert (F100 : forall r, (0 <=? r) = true -> (r <=? 100) = true -> is_finite r = true)
    by (intros r; apply (between_finite 0 100); reflexivity).
  assert (Fn : is_finite n = true) by (apply is_finite_spec; right; eauto).
  assert (Pn : (0 <=? n) = true) by (apply nonneg_leb; rewrite Hf; exact I).
  assert (Rn : (n <=? n) = true)
    by (apply leb_compare; right; rewrite Hf; apply SFcompare_refl_finite).
  destruct (mul_mono _ _ _ _ (ltb_leb _ _ PA) HA FA Pr Hr
              (F100 _ (leb_trans _ _ _ Pr Hr) Ur)) as [P1 L1].
  destruct (div_mono _ _ 100 _ _ D100 P1 L1) as [P2 L2].
  destruct (mul_mono _ _ _ _ P2 L2 Fpv Pd Hd
              (F100 _ (leb_trans _ _ _ Pd Hd) Ud)) as [P3 L3].
  destruct (div_mono _ _ 100 _ _ D100 P3 L3) as [P4 L4].
  destruct (div_mono _ _ n _ _ Hf P4 L4) as [P5 L5].
  destruct (div_mono _ _ 12 _ _ D12 P5 L5) as [P6 L6].
  destruct (mul_mono _ _ _ _ P4 L4 Fla Pn Rn Fn) as [P7 L7].
  destruct (mul_mono _ _ _ _ P7 L7 Fbi Pa Ha
              (F100 _ (leb_trans _ _ _ Pa Ha) Ua)) as [P8 L8].
  destruct (div_mono _ _ 100 _ _ D100 P8 L8) as [P9 L9].
  repeat apply conj; assumption.
Qed.

Lemma amounts_monotone_witness :
  exists l1 l2 : locals,
    process_record_locals sample_record = Py.Ok l1 /\
    process_record_locals (with_A 90000000 sample_record) = Py.Ok l2 /\
    (purchase_value l1 <=? purchase_value l2) = true /\
    (loan_amount l1 <=? loan_amount l2) = true /\
    (base_principal l1 <=? base_principal l2) = true /\
    (base_interest l1 <=? base_interest l2) = true /\
    (interest_value l1 <=? interest_value l2) = true.
Proof.
  assert (E1 := process_record_locals_ok sample_record 16 ltac:(simpl; lia) eq_refl).
  assert (E2 := process_record_locals_ok (with_A 90000000 sample_record) 16
                  ltac:(simpl; lia) eq_refl).
  do 2 eexists. split; [exact E1|]. split; [exact E2|].
  apply (amounts_monotone sample_record (with_A 90000000 sample_record) _ _
           eq_refl eq_refl eq_refl E1 E2); reflexivity.
Defined.
